(** * Python-EZ-Backup: the copy engine of [backup_helpers.py] and the
      aggregator of [main.py], embedded and verified.

    Modelling conventions.

    - Python integers are [Z]; a modification time (a float that is only
      ever compared with [>]) is a [Z] as well.
    - A path is the list of its components; [Path.name] is the last
      component and [os.path.join] appends one.  The text of a path
      ([str(p)], the string a dialog returns) stands for the path.
    - A character is a code point below 256, and the tests on
      characters are the Unicode ones of Python on these code points.
    - The selections being backed up are read from a source tree
      ([node]); the backup location is a separate store, a finite map
      from paths to entries, because the engine never lists it.  The two
      are kept apart: the development assumes that the backup location
      lies outside every selected directory.
    - Every filesystem call may fail: an oracle ([faults]) names the
      calls that raise [OSError], on top of the failures the stores
      themselves force (copying onto a directory, a missing parent...).
    - [BackupSelection.run] is an action of a small monad with the
      exceptions, the destination store and the emitted signals. *)

From stdpp Require Import base strings list gmap.
From Stdlib Require Import ZArith Lia Ascii String.

Local Open Scope string_scope.
Local Open Scope list_scope.
Local Open Scope Z_scope.

(** ** Python strings *)

(** [str.endswith(suffix)] *)
Definition endswith (s suffix : string) : bool :=
  let n := String.length s in
  let k := String.length suffix in
  (k <=? n)%nat && String.eqb (String.substring (n - k) k s) suffix.

(** [str.split(sep)] for a one-character separator: every occurrence of
    the separator cuts, so a trailing separator yields a last empty
    field. *)
Fixpoint split (sep : ascii) (s : string) : list string :=
  match s with
  | EmptyString => [EmptyString]
  | String c s' =>
      if Ascii.eqb c sep then EmptyString :: split sep s'
      else match split sep s' with
           | [] => [String c EmptyString]
           | field :: fields => String c field :: fields
           end
  end.

(** [sep.join(fields)] *)
Fixpoint join_with (sep : ascii) (fields : list string) : string :=
  match fields with
  | [] => EmptyString
  | [field] => field
  | field :: rest => field +:+ String sep (join_with sep rest)
  end.

(** ** Paths *)

Abbreviation path := (list string).

(** [Path(p).name] *)
Definition path_name (p : path) : string := List.last p "".

(** [Path(os.path.join(p, name))]: joining the empty name gives [p]
    itself (the trailing separator is dropped by [Path]). *)
Definition path_join (p : path) (name : string) : path :=
  if decide (name = "") then p else p ++ [name].

(** the directory a path lies in *)
Definition path_parent (p : path) : path := removelast p.

(** [p in paths] on a Python list *)
Definition path_in (p : path) (paths : list path) : bool :=
  bool_decide (p ∈ paths).

(** ** The source tree *)

#[warnings="-register-all"]
Inductive node :=
| File (size : Z) (mtime : Z)
| Other                             (* neither regular file nor directory *)
| Dir (entries : list (string * node)).

Fixpoint assoc (name : string) (entries : list (string * node)) : option node :=
  match entries with
  | [] => None
  | (n, c) :: rest => if decide (n = name) then Some c else assoc name rest
  end.

Fixpoint lookup_path (t : node) (p : path) : option node :=
  match p with
  | [] => Some t
  | name :: p' =>
      match t with
      | Dir entries =>
          match assoc name entries with
          | Some c => lookup_path c p'
          | None => None
          end
      | _ => None
      end
  end.

Definition is_dir_node (t : node) : bool :=
  match t with Dir _ => true | _ => false end.

Definition is_file_node (t : node) : bool :=
  match t with File _ _ => true | _ => false end.

(** ** The backup location *)

Inductive dentry :=
| DFile (size : Z) (mtime : Z)
| DDir.

Global Instance dentry_eq_dec : EqDecision dentry.
Proof. solve_decision. Defined.

(** the root of the store always is a directory *)
Definition dst_isdir (d : gmap path dentry) (p : path) : bool :=
  match p with
  | [] => true
  | _ => bool_decide (d !! p = Some DDir)
  end.

Definition dst_isfile (d : gmap path dentry) (p : path) : bool :=
  match p, d !! p with
  | _ :: _, Some (DFile _ _) => true
  | _, _ => false
  end.

(** all the directories [os.makedirs(p)] goes through, [p] last *)
Fixpoint ancestors_from (base : path) (p : path) : list path :=
  match p with
  | [] => []
  | name :: p' => (base ++ [name]) :: ancestors_from (base ++ [name]) p'
  end.

Definition ancestors (p : path) : list path := ancestors_from [] p.

Definition blocked_by_file (d : gmap path dentry) (p : path) : bool :=
  existsb (dst_isfile d) (ancestors p).

Definition mkdirs (d : gmap path dentry) (p : path) : gmap path dentry :=
  foldr (fun q acc => <[q := DDir]> acc) d (ancestors p).

(** ** Filesystem calls, exceptions, signals *)

Inductive fsop :=
| OpMakedirs (p : path)
| OpListdir (p : path)
| OpGetsize (p : path)
| OpGetmtimeSrc (p : path)
| OpGetmtimeDst (p : path)
| OpCopy2 (source target : path)
| OpOpenLog (directory : path).   (* [open(save_path, 'w')], the log of a backup *)

Inductive exn :=
| WorkerKilledException
| OSError (op : fsop).

(** the log message of an error tuple *)
Inductive context :=
| ErrorCreatingDirectory (p : path)
| ErrorOverwritingFile (p : path)
| ErrorCopyingNewFile (p : path)
| ErrorRunningBackup (p : path).

Record BackupSelection := {
  src : path;
  dst : path;
  ignore_files : list path;
  ignore_extensions : list string;
  root : bool;
  is_killed : bool
}.

(** [BackupSelection.kill] *)
Definition kill (w : BackupSelection) : BackupSelection :=
  {| src := src w; dst := dst w; ignore_files := ignore_files w;
     ignore_extensions := ignore_extensions w; root := root w;
     is_killed := true |}.

(** [WorkerSignals]; the traceback text of an error tuple is left out *)
Inductive event :=
| Error (e : exn) (log_message : context) (window_message : string)
| Progress (count : Z)
| MemoryCount (memory_value : Z)
| Status (message : string)
| Finished
| NewThread (worker : BackupSelection).

(** ** The world a Task Unit runs in *)

Record env := {
  src_fs : node;
  (** the calls that raise [OSError] whatever the stores say *)
  faults : fsop -> bool;
  (** [Some k]: a concurrent [kill()] lands on the unit after it has
      passed [k] checks of its flag; [None]: none lands while it runs *)
  kill_after : option nat;
  (** the current directory of the application *)
  cwd : path;
  (** [Path.resolve()] *)
  resolve : path -> path
}.

Record world := {
  dst_fs : gmap path dentry;
  (** every [shutil.copy2(source, target)] issued so far, oldest first *)
  copies : list (path * path)
}.

Inductive result (A : Type) :=
| Ok (a : A)
| Raise (e : exn).
Arguments Ok {A} a.
Arguments Raise {A} e.

Definition M (A : Type) : Type := env -> world -> result A * world * list event.

Definition ret {A} (a : A) : M A := fun _ s => (Ok a, s, []).

Definition bind {A B} (m : M A) (f : A -> M B) : M B :=
  fun E s =>
    match m E s with
    | (Ok a, s1, ev1) =>
        match f a E s1 with
        | (r, s2, ev2) => (r, s2, ev1 ++ ev2)
        end
    | (Raise e, s1, ev1) => (Raise e, s1, ev1)
    end.

Definition raise {A} (e : exn) : M A := fun _ s => (Raise e, s, []).

Definition emit (e : event) : M unit := fun _ s => (Ok tt, s, [e]).

Declare Scope m_scope.
Delimit Scope m_scope with M.
Notation "x <- m ;; k" := (bind m (fun x => k))
  (at level 100, m at next level, right associativity) : m_scope.
Notation "m ;; k" := (bind m (fun _ => k))
  (at level 100, right associativity) : m_scope.
Local Open Scope m_scope.

(** [try: body / except OSError: handler / else: otherwise] *)
Definition try_except_OSError {A} (body : M unit) (handler : exn -> M A)
    (otherwise : M A) : M A :=
  fun E s =>
    match body E s with
    | (Ok _, s1, ev1) =>
        match otherwise E s1 with
        | (r, s2, ev2) => (r, s2, ev1 ++ ev2)
        end
    | (Raise (OSError op), s1, ev1) =>
        match handler (OSError op) E s1 with
        | (r, s2, ev2) => (r, s2, ev1 ++ ev2)
        end
    | (Raise e, s1, ev1) => (Raise e, s1, ev1)
    end.

(** [for x in l: body] with the number of the iteration *)
Fixpoint for_each {A} (body : nat -> A -> M unit) (i : nat) (l : list A) : M unit :=
  match l with
  | [] => ret tt
  | x :: l' => body i x ;; for_each body (S i) l'
  end.

(** ** The filesystem calls of the engine *)

Definition fault (op : fsop) : M unit :=
  fun E s => if faults E op then (Raise (OSError op), s, []) else (Ok tt, s, []).

(** [os.path.isdir] and [os.path.isfile] never raise *)
Definition os_path_isdir (p : path) : M bool :=
  fun E s =>
    (Ok (match lookup_path (src_fs E) p with Some t => is_dir_node t | None => false end),
     s, []).

Definition os_path_isfile (p : path) : M bool :=
  fun E s =>
    (Ok (match lookup_path (src_fs E) p with Some t => is_file_node t | None => false end),
     s, []).

Definition os_path_isdir_dst (p : path) : M bool :=
  fun _ s => (Ok (dst_isdir (dst_fs s) p), s, []).

Definition os_path_isfile_dst (p : path) : M bool :=
  fun _ s => (Ok (dst_isfile (dst_fs s) p), s, []).

(** [os.listdir(p)] *)
Definition os_listdir (p : path) : M (list string) :=
  fault (OpListdir p) ;;
  fun E s =>
    match lookup_path (src_fs E) p with
    | Some (Dir entries) => (Ok (map fst entries), s, [])
    | _ => (Raise (OSError (OpListdir p)), s, [])
    end.

(** [os.path.getsize(p)] *)
Definition os_path_getsize (p : path) : M Z :=
  fault (OpGetsize p) ;;
  fun E s =>
    match lookup_path (src_fs E) p with
    | Some (File size _) => (Ok size, s, [])
    | _ => (Raise (OSError (OpGetsize p)), s, [])
    end.

(** [os.path.getmtime] on a selection and on the backup *)
Definition os_path_getmtime (p : path) : M Z :=
  fault (OpGetmtimeSrc p) ;;
  fun E s =>
    match lookup_path (src_fs E) p with
    | Some (File _ mtime) => (Ok mtime, s, [])
    | _ => (Raise (OSError (OpGetmtimeSrc p)), s, [])
    end.

Definition os_path_getmtime_dst (p : path) : M Z :=
  fault (OpGetmtimeDst p) ;;
  fun _ s =>
    match p, dst_fs s !! p with
    | _ :: _, Some (DFile _ mtime) => (Ok mtime, s, [])
    | _, _ => (Raise (OSError (OpGetmtimeDst p)), s, [])
    end.

(** [os.makedirs(p, exist_ok=True)]: fails when [p] or one of the
    directories above it is a file *)
Definition os_makedirs (p : path) : M unit :=
  fault (OpMakedirs p) ;;
  fun _ s =>
    if blocked_by_file (dst_fs s) p then (Raise (OSError (OpMakedirs p)), s, [])
    else (Ok tt, {| dst_fs := mkdirs (dst_fs s) p; copies := copies s |}, []).

(** where [shutil.copy2(source, target)] writes: into [target] when it is
    a directory, onto [target] otherwise *)
Definition copy_target (d : gmap path dentry) (source target : path) : path :=
  if dst_isdir d target then path_join target (path_name source) else target.

(** [shutil.copy2(source, target)]: the copy carries the size and the
    modification time of the source; it needs a source that is a file,
    and a place that is an existing file or lies in an existing
    directory *)
Definition shutil_copy2 (source target : path) : M unit :=
  (fun _ s => (Ok tt, {| dst_fs := dst_fs s; copies := copies s ++ [(source, target)] |}, [])) ;;
  fault (OpCopy2 source target) ;;
  fun E s =>
    let d := dst_fs s in
    let file := copy_target d source target in
    match lookup_path (src_fs E) source with
    | Some (File size mtime) =>
        if negb (dst_isdir d file) &&
           (dst_isfile d file || dst_isdir d (path_parent file))
        then (Ok tt, {| dst_fs := <[file := DFile size mtime]> d; copies := copies s |}, [])
        else (Raise (OSError (OpCopy2 source target)), s, [])
    | _ => (Raise (OSError (OpCopy2 source target)), s, [])
    end.

(** [check_existing_file] *)
Definition check_existing_file (source dest : path) : M bool :=
  m_src <- os_path_getmtime source ;;
  m_dst <- os_path_getmtime_dst dest ;;
  ret (bool_decide (m_src > m_dst)).

(** ** [BackupSelection] *)

Definition window_message : string :=
  "Error backing up files. See error log for more information".

Definition emit_progress (count : Z) : M unit := emit (Progress count).
Definition emit_memory_count (memory_value : Z) : M unit := emit (MemoryCount memory_value).
Definition emit_status (message : string) : M unit := emit (Status message).
Definition emit_error (e : exn) (c : context) (m : string) : M unit := emit (Error e c m).

(** the value [self.is_killed] has at the [i]-th check of the loop: set
    from the start, or by a [kill()] that has landed by then *)
Definition killed_at (w : BackupSelection) (E : env) (i : nat) : bool :=
  is_killed w ||
  match kill_after E with Some k => (k <=? i)%nat | None => false end.

Definition read_is_killed (w : BackupSelection) (i : nat) : M bool :=
  fun E s => (Ok (killed_at w E i), s, []).

(** one turn of [for name in names] in [run]; [d] is [self.dst] *)
Definition run_child (w : BackupSelection) (d : path) (i : nat) (name : string) : M unit :=
  killed <- read_is_killed w i ;;
  if killed : bool then raise WorkerKilledException else
  let src_name := path_join (src w) name in
  let dst_name := path_join d name in
  if path_in src_name (ignore_files w) then
    emit_progress 1 ;;
    emit_status (path_name src_name)
  else
    is_dir <- os_path_isdir src_name ;;
    if is_dir : bool then
      emit (NewThread {| src := src_name; dst := dst_name;
                         ignore_files := ignore_files w;
                         ignore_extensions := ignore_extensions w;
                         root := false; is_killed := false |})
    else
      is_file <- os_path_isfile src_name ;;
      if is_file : bool then
        let ignore_this := existsb (endswith name) (ignore_extensions w) in
        if ignore_this then
          emit_progress 1 ;;
          emit_status ("ignoring extension: " +:+ path_name src_name +:+ "...")
        else
          file_size <- os_path_getsize src_name ;;
          exists_ <- os_path_isfile_dst dst_name ;;
          if exists_ : bool then
            newer <- check_existing_file src_name dst_name ;;
            (if newer : bool then
               emit_status (path_name src_name +:+ "...") ;;
               try_except_OSError (shutil_copy2 src_name dst_name)
                 (fun os_error =>
                    emit_error os_error (ErrorOverwritingFile src_name) window_message)
                 (emit_memory_count file_size)
             else ret tt) ;;
            emit_progress 1
          else
            emit_status (path_name src_name +:+ "...") ;;
            try_except_OSError (shutil_copy2 src_name dst_name)
              (fun os_error =>
                 emit_error os_error (ErrorCopyingNewFile src_name) window_message)
              (emit_progress 1 ;; emit_memory_count file_size)
      else ret tt.

(** the branch of [run] for a selection that is a single file *)
Definition run_file (w : BackupSelection) : M unit :=
  if existsb (endswith (path_name (src w))) (ignore_extensions w) then
    emit_status (path_name (src w) +:+ "...") ;;
    emit_progress 1
  else
    file_size <- os_path_getsize (src w) ;;
    exists_ <- os_path_isfile_dst (path_join (dst w) (path_name (src w))) ;;
    if exists_ : bool then
      newer <- check_existing_file (src w) (path_join (dst w) (path_name (src w))) ;;
      (if newer : bool then
         emit_status (path_name (src w) +:+ "...") ;;
         try_except_OSError (shutil_copy2 (src w) (dst w))
           (fun os_error =>
              emit_error os_error (ErrorOverwritingFile (src w)) window_message)
           (emit_memory_count file_size)
       else ret tt) ;;
      emit_progress 1
    else
      emit_status (path_name (src w) +:+ "...") ;;
      try_except_OSError (shutil_copy2 (src w) (dst w))
        (fun os_error =>
           emit_error os_error (ErrorCopyingNewFile (src w)) window_message)
        (emit_progress 1 ;; emit_memory_count file_size).

(** the branch of [run] for a directory.  The assignment to [self.dst]
    is kept in [mapped]: a record of the model is a Task Unit as it is
    constructed, and [run] is its one execution. *)
Definition run_dir (w : BackupSelection) : M unit :=
  have_dst <- os_path_isdir_dst (dst w) ;;
  (if have_dst : bool then ret tt else os_makedirs (dst w)) ;;
  mapped <-
    (if root w then
       let parent_dir := path_name (src w) in
       try_except_OSError (os_makedirs (path_join (dst w) parent_dir))
         (fun os_error =>
            emit_error os_error
              (ErrorCreatingDirectory (path_join (dst w) parent_dir))
              window_message ;;
            ret None)
         (ret (Some (path_join (dst w) parent_dir)))
     else ret (Some (dst w))) ;;
  match mapped with
  | None => ret tt                   (* the [return] of the handler *)
  | Some d =>
      names <- os_listdir (src w) ;;
      for_each (run_child w d) 0%nat names
  end.

(** the [try] block of [run] *)
Definition run_body (w : BackupSelection) : M unit :=
  is_dir <- os_path_isdir (src w) ;;
  if is_dir : bool then run_dir w
  else
    is_file <- os_path_isfile (src w) ;;
    if is_file : bool then run_file w else ret tt.

(** [BackupSelection.run]: the [try] block with its two handlers and its
    [finally] clause *)
Definition run (w : BackupSelection) : M unit :=
  fun E s =>
    let after_handlers :=
      match run_body w E s with
      | (Ok _, s1, ev1) => (Ok tt, s1, ev1)
      | (Raise WorkerKilledException, s1, ev1) =>
          match emit_status "worker killed" E s1 with
          | (r, s2, ev2) => (r, s2, ev1 ++ ev2)
          end
      | (Raise error, s1, ev1) =>
          match emit_error error (ErrorRunningBackup (src w))
                  (window_message +:+ ".") E s1 with
          | (r, s2, ev2) => (r, s2, ev1 ++ ev2)
          end
      end in
    match after_handlers with
    | (r, s2, ev2) =>
        match emit Finished E s2 with
        | (Ok _, s3, ev3) => (r, s3, ev2 ++ ev3)
        | (Raise e, s3, ev3) => (Raise e, s3, ev2 ++ ev3)
        end
    end.

(** ** What a run adds up to *)

Definition progress_of (e : event) : Z :=
  match e with Progress count => count | _ => 0 end.

Definition memory_of (e : event) : Z :=
  match e with MemoryCount memory_value => memory_value | _ => 0 end.

(** the sum of the progress units, and of the byte counts, of a trace *)
Definition progress_total (evs : list event) : Z :=
  foldr (fun e acc => progress_of e + acc) 0 evs.

Definition memory_total (evs : list event) : Z :=
  foldr (fun e acc => memory_of e + acc) 0 evs.

Definition is_progress (e : event) : bool :=
  match e with Progress _ => true | _ => false end.
Definition is_memory_count (e : event) : bool :=
  match e with MemoryCount _ => true | _ => false end.
Definition is_status (e : event) : bool :=
  match e with Status _ => true | _ => false end.
Definition is_error (e : event) : bool :=
  match e with Error _ _ _ => true | _ => false end.
Definition is_finished (e : event) : bool :=
  match e with Finished => true | _ => false end.
Definition is_new_thread (e : event) : bool :=
  match e with NewThread _ => true | _ => false end.

(** how many signals of a kind a trace holds *)
Definition count_events (kind : event -> bool) (evs : list event) : nat :=
  List.length (filter (fun e => kind e = true) evs).

(** ** [count_total_files] *)

(** the files [os.walk] reports below a directory: every entry that is
    not a directory, at every level *)
Fixpoint walk_count (t : node) : Z :=
  match t with
  | Dir entries =>
      (fix over (es : list (string * node)) : Z :=
         match es with
         | [] => 0
         | (_, c) :: rest => (if is_dir_node c then walk_count c else 1) + over rest
         end) entries
  | _ => 0
  end.

Definition count_total_files (fs : node) (input_select : list path) : Z :=
  fold_left
    (fun count item =>
       match lookup_path fs item with
       | Some (File _ _) => count + 1
       | Some (Dir entries) => count + walk_count (Dir entries)
       | _ => count
       end)
    input_select 0.

(** ** The main window *)

(** [QProgressBar], as Qt documents it, with its minimum left at 0: a
    value outside the range is ignored (unless the range is empty), and a
    new range that excludes the value resets it to -1. *)
Record QProgressBar := { value : Z; maximum : Z }.

Definition setValue (v : Z) (b : QProgressBar) : QProgressBar :=
  if (v =? value b) || (((maximum b <? v) || (v <? 0)) && negb (maximum b =? 0))
  then b
  else {| value := v; maximum := maximum b |}.

Definition setMaximum (m : Z) (b : QProgressBar) : QProgressBar :=
  let m' := Z.max 0 m in
  {| value := if (value b <? -1) || (m' <? value b) then -1 else value b;
     maximum := m' |}.

(** a value of a JSON document, as [json.load] gives it and [json.dump]
    takes it *)
#[warnings="-register-all"]
Inductive json :=
| JNull
| JBool (b : bool)
| JNumber (n : Z)
| JString (s : string)
| JArray (items : list json)
| JObject (members : list (string * json)).

(** an item of [included_paths_list] or of [excluded_paths_list]: the
    text of a path, as the dialogs return it, or, in a list that was
    loaded from a file, a value that is no string and for which
    [QStandardItem] has no constructor: null, an array or an object (a
    number, which [QStandardItem] takes for a number of rows, is not an
    item of the model) *)
Inductive no_text :=
| NullItem
| ArrayItem (items : list json)
| ObjectItem (members : list (string * json)).

Inductive list_item :=
| PathText (p : path)
| NoText (v : no_text).

(** [self.root_backup_dir]: [None] from [__init__], the empty string from
    [cleanup], and a [Path] once a directory is chosen or loaded, which
    is [Path('.')] when the settings loaded have the empty string for
    directory *)
Inductive location :=
| NoLocation
| EmptyText
| CurrentDirectory
| At (p : path).

(** the directory a location names in a filesystem call; [None]: the call
    raises [TypeError] *)
Definition directory (E : env) (l : location) : option path :=
  match l with
  | NoLocation => None
  | EmptyText | CurrentDirectory => Some (cwd E)
  | At p => Some p
  end.

Record BackupLogEntry := {
  total_count : Z;
  log_total_memory : Z;
  included_in_backup : list list_item;
  excluded_from_backup : list list_item * list string
}.

Record MainWindow := {
  (** every worker ever enqueued; a worker is referred to by its
      position in this list *)
  workers : list BackupSelection;
  (** the workers handed to the thread pool that have not run yet *)
  threadpool : list nat;
  progress : Z;
  total_memory : Z;
  root_backup_dir : location;
  included_paths_list : list list_item;
  excluded_paths_list : list list_item;
  excluded_extensions_list : list string;
  (** the rows of the two list views, each with its text *)
  files_to_include_model : list path;
  files_to_exclude_model : list path;
  input_exclude_by : string;
  label_root_backup_dir : string;
  progress_bar : QProgressBar;
  (** the backup logs written so far, each with the directory it is in *)
  backup_logs : list (path * BackupLogEntry)
}.

(** [MainWindow.__init__] *)
Definition init : MainWindow :=
  {| workers := []; threadpool := []; progress := 0; total_memory := 0;
     root_backup_dir := NoLocation;
     included_paths_list := []; excluded_paths_list := [];
     excluded_extensions_list := [];
     files_to_include_model := []; files_to_exclude_model := [];
     input_exclude_by := ""; label_root_backup_dir := "";
     progress_bar := {| value := 0; maximum := 100 |};
     backup_logs := [] |}.

(** how a slot ends: it returns, or an exception leaves it; either way
    the window is as the statements of the slot have left it *)
Inductive outcome :=
| Returned (mw : MainWindow)
| Raised (mw : MainWindow).

Definition window_after (o : outcome) : MainWindow :=
  match o with Returned mw | Raised mw => mw end.

(** the backup logs of [mw] with the other fields of [mw] *)
Definition with_backup_logs (logs : list (path * BackupLogEntry))
    (mw : MainWindow) : MainWindow :=
  {| workers := workers mw; threadpool := threadpool mw;
     progress := progress mw; total_memory := total_memory mw;
     root_backup_dir := root_backup_dir mw;
     included_paths_list := included_paths_list mw;
     excluded_paths_list := excluded_paths_list mw;
     excluded_extensions_list := excluded_extensions_list mw;
     files_to_include_model := files_to_include_model mw;
     files_to_exclude_model := files_to_exclude_model mw;
     input_exclude_by := input_exclude_by mw;
     label_root_backup_dir := label_root_backup_dir mw;
     progress_bar := progress_bar mw;
     backup_logs := logs |}.

(** [save_backup_log].  [os.path.join(self.root_backup_dir, file_name)]
    raises [TypeError] when no location was ever set; an [OSError] of
    [open] is logged and shown, and no log is saved; otherwise the log is
    written in the directory of the location.  The logs are kept in the
    window, not in the backup store: [open] fails when the oracle says so,
    whatever the reason (the directory is missing or is a file, the disk
    is full). *)
Definition save_backup_log (E : env) (mw : MainWindow) : outcome :=
  let backup_log :=
    {| total_count := maximum (progress_bar mw);
       log_total_memory := total_memory mw;
       included_in_backup := included_paths_list mw;
       excluded_from_backup :=
         (excluded_paths_list mw, excluded_extensions_list mw) |} in
  match directory E (root_backup_dir mw) with
  | None => Raised mw
  | Some save_dir =>
      if faults E (OpOpenLog save_dir) then Returned mw
      else Returned (with_backup_logs (backup_logs mw ++ [(save_dir, backup_log)]) mw)
  end.

Definition set_max_progress_value (max_value : Z) (mw : MainWindow) : MainWindow :=
  {| workers := workers mw; threadpool := threadpool mw;
     progress := progress mw; total_memory := total_memory mw;
     root_backup_dir := root_backup_dir mw;
     included_paths_list := included_paths_list mw;
     excluded_paths_list := excluded_paths_list mw;
     excluded_extensions_list := excluded_extensions_list mw;
     files_to_include_model := files_to_include_model mw;
     files_to_exclude_model := files_to_exclude_model mw;
     input_exclude_by := input_exclude_by mw;
     label_root_backup_dir := label_root_backup_dir mw;
     progress_bar := setMaximum max_value (progress_bar mw);
     backup_logs := backup_logs mw |}.

Definition cleanup (mw : MainWindow) : MainWindow :=
  {| workers := workers mw; threadpool := threadpool mw;
     progress := progress mw; total_memory := total_memory mw;
     root_backup_dir := EmptyText;
     included_paths_list := [];
     excluded_paths_list := [];
     excluded_extensions_list := [];
     files_to_include_model := [];
     files_to_exclude_model := [];
     input_exclude_by := "";
     label_root_backup_dir := "";
     progress_bar := setValue 0 (progress_bar mw);
     backup_logs := backup_logs mw |}.

(** [update_progress]: an exception of [save_backup_log] leaves the slot
    before the message and [cleanup] *)
Definition update_progress (E : env) (n : Z) (mw : MainWindow) : outcome :=
  let mw1 :=
    {| workers := workers mw; threadpool := threadpool mw;
       progress := progress mw + n; total_memory := total_memory mw;
       root_backup_dir := root_backup_dir mw;
       included_paths_list := included_paths_list mw;
       excluded_paths_list := excluded_paths_list mw;
       excluded_extensions_list := excluded_extensions_list mw;
       files_to_include_model := files_to_include_model mw;
       files_to_exclude_model := files_to_exclude_model mw;
       input_exclude_by := input_exclude_by mw;
       label_root_backup_dir := label_root_backup_dir mw;
       progress_bar := setValue (progress mw + n) (progress_bar mw);
       backup_logs := backup_logs mw |} in
  if progress mw1 =? maximum (progress_bar mw1)
  then match save_backup_log E mw1 with
       | Returned mw2 => Returned (cleanup mw2)
       | Raised mw2 => Raised mw2
       end
  else Returned mw1.

Definition update_memory_count (increase_by : Z) (mw : MainWindow) : MainWindow :=
  {| workers := workers mw; threadpool := threadpool mw;
     progress := progress mw; total_memory := total_memory mw + increase_by;
     root_backup_dir := root_backup_dir mw;
     included_paths_list := included_paths_list mw;
     excluded_paths_list := excluded_paths_list mw;
     excluded_extensions_list := excluded_extensions_list mw;
     files_to_include_model := files_to_include_model mw;
     files_to_exclude_model := files_to_exclude_model mw;
     input_exclude_by := input_exclude_by mw;
     label_root_backup_dir := label_root_backup_dir mw;
     progress_bar := progress_bar mw;
     backup_logs := backup_logs mw |}.

Definition update_status (status_message : string) (mw : MainWindow) : MainWindow :=
  {| workers := workers mw; threadpool := threadpool mw;
     progress := progress mw; total_memory := total_memory mw;
     root_backup_dir := root_backup_dir mw;
     included_paths_list := included_paths_list mw;
     excluded_paths_list := excluded_paths_list mw;
     excluded_extensions_list := excluded_extensions_list mw;
     files_to_include_model := files_to_include_model mw;
     files_to_exclude_model := files_to_exclude_model mw;
     input_exclude_by := input_exclude_by mw;
     label_root_backup_dir := status_message;
     progress_bar := progress_bar mw;
     backup_logs := backup_logs mw |}.

(** the worker list and the pool with the other fields of [mw] *)
Definition with_workers (ws : list BackupSelection) (pool : list nat)
    (mw : MainWindow) : MainWindow :=
  {| workers := ws; threadpool := pool;
     progress := progress mw; total_memory := total_memory mw;
     root_backup_dir := root_backup_dir mw;
     included_paths_list := included_paths_list mw;
     excluded_paths_list := excluded_paths_list mw;
     excluded_extensions_list := excluded_extensions_list mw;
     files_to_include_model := files_to_include_model mw;
     files_to_exclude_model := files_to_exclude_model mw;
     input_exclude_by := input_exclude_by mw;
     label_root_backup_dir := label_root_backup_dir mw;
     progress_bar := progress_bar mw;
     backup_logs := backup_logs mw |}.

(** [enqueue]: the worker joins [self.workers] and is started *)
Definition enqueue (worker : BackupSelection) (mw : MainWindow) : MainWindow :=
  with_workers (workers mw ++ [worker])
    (threadpool mw ++ [List.length (workers mw)]) mw.

(** [kill_all] *)
Definition kill_all (mw : MainWindow) : MainWindow :=
  with_workers (map kill (workers mw)) (threadpool mw) mw.

(** [cancel_backup] *)
Definition cancel_backup (mw : MainWindow) : MainWindow :=
  update_status "" (kill_all mw).

(** [process_error] *)
Definition process_error (mw : MainWindow) : MainWindow := cancel_backup mw.

(** [run_backup] once it has found a location: one root worker per
    included item, with the directory of the location for destination *)
Definition start_workers (E : env) (backup_dir : path) (mw : MainWindow)
    : MainWindow :=
  let files_to_include := files_to_include_model mw in
  let files_to_exclude := files_to_exclude_model mw in
  let mw1 :=
    set_max_progress_value (count_total_files (src_fs E) files_to_include) mw in
  let extensions :=
    if decide (input_exclude_by mw1 = "") then []
    else split "," (input_exclude_by mw1) in
  let mw2 :=
    {| workers := workers mw1; threadpool := threadpool mw1;
       progress := progress mw1; total_memory := total_memory mw1;
       root_backup_dir := root_backup_dir mw1;
       included_paths_list := included_paths_list mw1;
       excluded_paths_list := excluded_paths_list mw1;
       excluded_extensions_list := extensions;
       files_to_include_model := files_to_include_model mw1;
       files_to_exclude_model := files_to_exclude_model mw1;
       input_exclude_by := input_exclude_by mw1;
       label_root_backup_dir := label_root_backup_dir mw1;
       progress_bar := progress_bar mw1;
       backup_logs := backup_logs mw1 |} in
  fold_left
    (fun acc item =>
       enqueue {| src := item; dst := backup_dir;
                  ignore_files := files_to_exclude;
                  ignore_extensions := extensions;
                  root := true; is_killed := false |} acc)
    files_to_include mw2.

(** [run_backup]: without a location ([None] or the empty string) it
    shows a message and returns *)
Definition run_backup (E : env) (mw : MainWindow) : MainWindow :=
  match root_backup_dir mw with
  | NoLocation | EmptyText => mw
  | CurrentDirectory => start_workers E (cwd E) mw
  | At backup_dir => start_workers E backup_dir mw
  end.

(** ** The application: the window, the disk and the queued signals *)

Record system := {
  window : MainWindow;
  disk : world;
  (** signals emitted by workers and not yet handled, oldest first *)
  signals : list event;
  (** the signals handled so far, oldest first *)
  handled : list event
}.

(** the slot a signal is connected to in [enqueue]; [finished] has none *)
Definition deliver (E : env) (e : event) (mw : MainWindow) : outcome :=
  match e with
  | Error _ _ _ => Returned (process_error mw)
  | Progress count => update_progress E count mw
  | MemoryCount memory_value => Returned (update_memory_count memory_value mw)
  | Status message => Returned (update_status message mw)
  | NewThread worker => Returned (enqueue worker mw)
  | Finished => Returned mw
  end.

(** the pool runs the worker object [i] of [self.workers] *)
Definition work (E : env) (i : nat) (sys : system) : system :=
  match workers (window sys) !! i with
  | Some w =>
      match run w E (disk sys) with
      | (_, disk', evs) =>
          {| window := window sys; disk := disk'; signals := signals sys ++ evs;
             handled := handled sys |}
      end
  | None => sys
  end.

(** the main thread handles the oldest queued signal.  When the slot
    raises, the window stays as the slot left it; the source does not say
    what becomes of the exception, and the application is taken to go
    on, so that what holds of every schedule holds of those that would
    stop there. *)
Definition handle (E : env) (e : event) (rest : list event) (sys : system) : system :=
  {| window := window_after (deliver E e (window sys)); disk := disk sys;
     signals := rest; handled := handled sys ++ [e] |}.

(** the thread pool takes a worker out of its queue *)
Definition dequeue (pool : list nat) (sys : system) : system :=
  {| window := with_workers (workers (window sys)) pool (window sys);
     disk := disk sys; signals := signals sys; handled := handled sys |}.

(** the user asks for the cancellation *)
Definition cancel (sys : system) : system :=
  {| window := cancel_backup (window sys); disk := disk sys;
     signals := signals sys; handled := handled sys |}.

Inductive step (E : env) : system -> system -> Prop :=
| step_handle sys e rest :
    signals sys = e :: rest ->
    step E sys (handle E e rest sys)
| step_work sys i before after :
    threadpool (window sys) = before ++ i :: after ->
    step E sys (work E i (dequeue (before ++ after) sys))
| step_cancel sys :
    step E sys (cancel sys).

(** one schedule of the application: pending signals first, then the
    oldest waiting worker; [None] when the fuel runs out before the pool
    and the signal queue are empty *)
Fixpoint drive (fuel : nat) (E : env) (sys : system) : option system :=
  match signals sys, threadpool (window sys) with
  | [], [] => Some sys
  | e :: rest, _ =>
      match fuel with
      | O => None
      | S fuel' => drive fuel' E (handle E e rest sys)
      end
  | [], i :: pool =>
      match fuel with
      | O => None
      | S fuel' => drive fuel' E (work E i (dequeue pool sys))
      end
  end.

(** the application right after [run_backup] *)
Definition started (E : env) (mw : MainWindow) (d : world) : system :=
  {| window := run_backup E mw; disk := d; signals := []; handled := [] |}.

(** a backup from pressing "run" to quiescence *)
Definition backup (fuel : nat) (E : env) (mw : MainWindow) (d : world) : option system :=
  drive fuel E (started E mw d).

(** ** The other slots of the main window *)

(** the inputs of a session with the other fields of [mw] *)
Definition with_inputs (backup_dir : location)
    (included excluded : list list_item) (extensions : list string)
    (include_model exclude_model : list path) (exclude_by label : string)
    (mw : MainWindow) : MainWindow :=
  {| workers := workers mw; threadpool := threadpool mw;
     progress := progress mw; total_memory := total_memory mw;
     root_backup_dir := backup_dir;
     included_paths_list := included;
     excluded_paths_list := excluded;
     excluded_extensions_list := extensions;
     files_to_include_model := include_model;
     files_to_exclude_model := exclude_model;
     input_exclude_by := exclude_by;
     label_root_backup_dir := label;
     progress_bar := progress_bar mw;
     backup_logs := backup_logs mw |}.

(** [str(p)] *)
Definition path_str (p : path) : string :=
  "/" +:+ join_with "/" p.

(** [add_directory] and [add_files], given what the dialog returned *)
Definition add_paths (selected : list path) (mw : MainWindow) : MainWindow :=
  with_inputs (root_backup_dir mw)
    (included_paths_list mw ++ map PathText selected) (excluded_paths_list mw)
    (excluded_extensions_list mw)
    (files_to_include_model mw ++ selected) (files_to_exclude_model mw)
    (input_exclude_by mw) (label_root_backup_dir mw) mw.

(** [exclude_directory] and [exclude_files] *)
Definition exclude_paths (selected : list path) (mw : MainWindow) : MainWindow :=
  with_inputs (root_backup_dir mw)
    (included_paths_list mw) (excluded_paths_list mw ++ map PathText selected)
    (excluded_extensions_list mw)
    (files_to_include_model mw) (files_to_exclude_model mw ++ selected)
    (input_exclude_by mw) (label_root_backup_dir mw) mw.

(** [list.remove(x)]: the first occurrence goes; [None] is [ValueError] *)
Fixpoint list_remove {A} `{EqDecision A} (x : A) (l : list A) : option (list A) :=
  match l with
  | [] => None
  | y :: l' =>
      if decide (y = x) then Some l'
      else match list_remove x l' with
           | Some r => Some (y :: r)
           | None => None
           end
  end.

(** [x == data] for an item of a path list and the text of a row: a
    value that is no string equals no text *)
Definition is_text (data : path) (x : list_item) : bool :=
  match x with
  | PathText p => bool_decide (p = data)
  | NoText _ => false
  end.

(** [list.remove(data)] on a path list, for the text of a row *)
Fixpoint remove_text (data : path) (l : list list_item) : option (list list_item) :=
  match l with
  | [] => None
  | y :: l' =>
      if is_text data y then Some l'
      else match remove_text data l' with
           | Some r => Some (y :: r)
           | None => None
           end
  end.

(** [removeRow(i)] of a list model *)
Definition remove_row {A} (i : nat) (rows : list A) : list A :=
  take i rows ++ drop (S i) rows.

Fixpoint remove_rows (selected : list (nat * path)) (paths : list list_item)
    (model : list path) : option (list list_item * list path) :=
  match selected with
  | [] => Some (paths, model)
  | (row, data) :: rest =>
      match remove_text data paths with
      | Some paths' => remove_rows rest paths' (remove_row row model)
      | None => None
      end
  end.

(** [remove_selected], given the selected rows of the two views with
    their data; [None] when a [list.remove] raises *)
Definition remove_selected (in_include in_exclude : list (nat * path))
    (mw : MainWindow) : option MainWindow :=
  match remove_rows in_include (included_paths_list mw) (files_to_include_model mw) with
  | Some (included, include_model) =>
      match remove_rows in_exclude (excluded_paths_list mw) (files_to_exclude_model mw) with
      | Some (excluded, exclude_model) =>
          Some (with_inputs (root_backup_dir mw) included excluded
                  (excluded_extensions_list mw) include_model exclude_model
                  (input_exclude_by mw) (label_root_backup_dir mw) mw)
      | None =>
          (* the include list keeps what was removed before the exception *)
          None
      end
  | None => None
  end.

(** [set_backup_directory] *)
Definition set_backup_directory (E : env) (selected : path) (mw : MainWindow)
    : MainWindow :=
  with_inputs (At selected)
    (included_paths_list mw) (excluded_paths_list mw) (excluded_extensions_list mw)
    (files_to_include_model mw) (files_to_exclude_model mw)
    (input_exclude_by mw) ("backup location: " +:+ path_str (resolve E selected)) mw.

(** the assignment [save_settings] makes before it writes the file *)
Definition save_settings (mw : MainWindow) : MainWindow :=
  with_inputs (root_backup_dir mw)
    (included_paths_list mw) (excluded_paths_list mw)
    (if decide (input_exclude_by mw = "") then [] else split "," (input_exclude_by mw))
    (files_to_include_model mw) (files_to_exclude_model mw)
    (input_exclude_by mw) (label_root_backup_dir mw) mw.

(** the settings of a file that [load_settings] can go through: two
    lists of items for the paths, a list of strings for the extensions,
    and for the directory the empty string ([None]) or the text of a
    path *)
Record BackupSettings := {
  included_paths : list list_item;
  excluded_paths : list list_item;
  excluded_file_extensions : list string;
  root_backup_directory : option path
}.

(** [str.isdigit] of a character: the ten digits and the superscripts
    two, three and one *)
Definition isdigit (c : ascii) : bool :=
  let n := nat_of_ascii c in
  ((48 <=? n)%nat && (n <=? 57)%nat) ||
  (n =? 178)%nat || (n =? 179)%nat || (n =? 185)%nat.

(** [str.isalnum] of a character: the letters, with the accented ones,
    the two ordinal indicators and the micro sign, the digits, and the
    three vulgar fractions *)
Definition isalnum (c : ascii) : bool :=
  let n := nat_of_ascii c in
  isdigit c ||
  ((65 <=? n)%nat && (n <=? 90)%nat) || ((97 <=? n)%nat && (n <=? 122)%nat) ||
  (n =? 170)%nat || (n =? 181)%nat || (n =? 186)%nat ||
  ((188 <=? n)%nat && (n <=? 190)%nat) ||
  ((192 <=? n)%nat && (n <=? 214)%nat) || ((216 <=? n)%nat && (n <=? 246)%nat) ||
  ((248 <=? n)%nat && (n <=? 255)%nat).

Fixpoint any_char (f : ascii -> bool) (s : string) : bool :=
  match s with
  | EmptyString => false
  | String c s' => f c || any_char f s'
  end.

(** the extensions [load_settings] drops: empty, with a digit, or without
    any alphanumeric character *)
Definition bad_extension (item : string) : bool :=
  bool_decide (item = "") || any_char isdigit item || negb (any_char isalnum item).

(** the loop of [load_settings] over a copy of the list, removing from
    the list itself *)
Definition clean_extensions (extensions : list string) : list string :=
  fold_left
    (fun acc item =>
       if bad_extension item
       then match list_remove item acc with Some r => r | None => acc end
       else acc)
    extensions extensions.

(** the rows the loops of [load_settings] append: an item for which
    [QStandardItem] raises [TypeError] is logged and gets no row *)
Definition appended_rows (items : list list_item) : list path :=
  omap (fun x => match x with PathText p => Some p | NoText _ => None end) items.

(** [load_settings], given the decoded settings *)
Definition load_settings (loaded : BackupSettings) (mw : MainWindow) : MainWindow :=
  let extensions := clean_extensions (excluded_file_extensions loaded) in
  with_inputs
    (match root_backup_directory loaded with
     | Some p => At p
     | None => CurrentDirectory
     end)
    (included_paths loaded) (excluded_paths loaded) extensions
    (appended_rows (included_paths loaded)) (appended_rows (excluded_paths loaded))
    (match excluded_file_extensions loaded with
     | [] => ""
     | _ => join_with "," extensions
     end)
    ("backup location: " +:+
     match root_backup_directory loaded with
     | Some p => path_str p
     | None => "."
     end) mw.

(** everything that can happen to the window: a signal of a worker, or a
    slot triggered by the user *)
Inductive action :=
| ASignal (e : event)
| AAddPaths (selected : list path)
| AExcludePaths (selected : list path)
| ARemoveSelected (in_include in_exclude : list (nat * path))
| ASetBackupDirectory (selected : path)
| ASaveSettings
| ALoadSettings (loaded : BackupSettings)
| AReset                              (* the reset button: [cleanup] *)
| ARunBackup
| ACancelBackup
| ACloseEvent.                        (* [closeEvent]: [kill_all] *)

(** [None] when the slot raises *)
Definition perform (E : env) (a : action) (mw : MainWindow) : option MainWindow :=
  match a with
  | ASignal e =>
      match deliver E e mw with
      | Returned mw' => Some mw'
      | Raised _ => None
      end
  | AAddPaths selected => Some (add_paths selected mw)
  | AExcludePaths selected => Some (exclude_paths selected mw)
  | ARemoveSelected in_include in_exclude => remove_selected in_include in_exclude mw
  | ASetBackupDirectory selected => Some (set_backup_directory E selected mw)
  | ASaveSettings => Some (save_settings mw)
  | ALoadSettings loaded => Some (load_settings loaded mw)
  | AReset => Some (cleanup mw)
  | ARunBackup => Some (run_backup E mw)
  | ACancelBackup => Some (cancel_backup mw)
  | ACloseEvent => Some (kill_all mw)
  end.

(** a sequence of actions; [None] when one of them raises *)
Fixpoint perform_all (E : env) (acts : list action) (mw : MainWindow) : option MainWindow :=
  match acts with
  | [] => Some mw
  | a :: rest =>
      match perform E a mw with
      | Some mw' => perform_all E rest mw'
      | None => None
      end
  end.

(** the signals that add to the two counters *)
Definition counts (a : action) : bool :=
  match a with
  | ASignal (Progress _) | ASignal (MemoryCount _) => true
  | _ => false
  end.


(** ** Where [run] deals with a file *)

(** [run] handles a file in two places: as the entry [name] of the
    directory it lists ([Child], with the value [d] of [self.dst] and the
    number [i] of the turn of the loop), and as the selection itself
    ([Selected]). *)
Inductive site :=
| Child (d : path) (i : nat) (name : string)
| Selected.

Definition site_run (w : BackupSelection) (st : site) : M unit :=
  match st with
  | Child d i name => run_child w d i name
  | Selected => run_file w
  end.

(** the file read *)
Definition site_source (w : BackupSelection) (st : site) : path :=
  match st with
  | Child _ _ name => path_join (src w) name
  | Selected => src w
  end.

(** the name tested against the excluded extensions *)
Definition site_name (w : BackupSelection) (st : site) : string :=
  match st with
  | Child _ _ name => name
  | Selected => path_name (src w)
  end.

(** the file of the backup that is tested for existence and age *)
Definition site_dest (w : BackupSelection) (st : site) : path :=
  match st with
  | Child d _ name => path_join d name
  | Selected => path_join (dst w) (path_name (src w))
  end.

(** the second argument of [shutil.copy2] *)
Definition site_target (w : BackupSelection) (st : site) : path :=
  match st with
  | Child d _ name => path_join d name
  | Selected => dst w
  end.

(** the unit gets to the site and finds a regular file there: it is not
    killed when it starts on the entry *)
Definition reached (w : BackupSelection) (E : env) (st : site) (size mtime : Z) : Prop :=
  lookup_path (src_fs E) (site_source w st) = Some (File size mtime) /\
  match st with
  | Child _ i _ => killed_at w E i = false
  | Selected => True
  end.

(** the file at the site gets to the copy decision: it is reached, it is
    not an excluded path, its name has no excluded extension, and its
    size can be read *)
Definition decided (w : BackupSelection) (E : env) (st : site) (size mtime : Z) : Prop :=
  reached w E st size mtime /\
  match st with
  | Child _ _ _ => path_in (site_source w st) (ignore_files w) = false
  | Selected => True
  end /\
  existsb (endswith (site_name w st)) (ignore_extensions w) = false /\
  faults E (OpGetsize (site_source w st)) = false.

(** [run] on a directory up to the call of [os.listdir] (lines 147 to
    163): the value is [self.dst] as the loop will use it, or [None] when
    the handler of the root mapping returns *)
Definition loop_entry (w : BackupSelection) : M (option path) :=
  have_dst <- os_path_isdir_dst (dst w) ;;
  (if have_dst : bool then ret tt else os_makedirs (dst w)) ;;
  if root w then
    let parent_dir := path_name (src w) in
    try_except_OSError (os_makedirs (path_join (dst w) parent_dir))
      (fun os_error =>
         emit_error os_error
           (ErrorCreatingDirectory (path_join (dst w) parent_dir))
           window_message ;;
         ret None)
      (ret (Some (path_join (dst w) parent_dir)))
  else ret (Some (dst w)).

(** [run], started in the world [s], gets to the site [st] in the world
    [s_in] with the signals [before] emitted: a selected file is dealt
    with at once; the entry number [i] of a selected directory has its
    turn after the mapping of the destination, the listing, and the turns
    of the entries before it, none of which raised *)
Definition arrives (w : BackupSelection) (E : env) (s : world) (st : site)
    (s_in : world) (before : list event) : Prop :=
  match st with
  | Selected =>
      (exists size mtime, lookup_path (src_fs E) (src w) = Some (File size mtime)) /\
      s_in = s /\ before = []
  | Child d i name =>
      exists entries s0 ev0 ev1,
        lookup_path (src_fs E) (src w) = Some (Dir entries) /\
        loop_entry w E s = (Ok (Some d), s0, ev0) /\
        faults E (OpListdir (src w)) = false /\
        map fst entries !! i = Some name /\
        for_each (run_child w d) 0%nat (take i (map fst entries)) E s0 =
          (Ok tt, s_in, ev1) /\
        before = ev0 ++ ev1
  end.

(** the calls of [shutil.copy2] made between [s] and [s'] are of files
    whose names end with none of the excluded extensions of [w] *)
Definition copies_unexcluded (w : BackupSelection) (s s' : world)
    (evs : list event) : Prop :=
  exists calls,
    copies s' = copies s ++ calls /\
    Forall (fun call =>
              existsb (endswith (path_name call.1)) (ignore_extensions w) = false)
      calls.

(** how many error, progress and byte-count signals a trace holds *)
Definition tally (evs : list event) : nat * nat * nat :=
  (count_events is_error evs, count_events is_progress evs,
   count_events is_memory_count evs).

(** the signals of a file whose copy has the result [r]: when the backup
    had no such file, and when it had an older one *)
Definition new_file_signals (w : BackupSelection) (st : site) (size : Z)
    (r : result unit) : list event :=
  match r with
  | Ok _ =>
      [Status (path_name (site_source w st) +:+ "..."); Progress 1; MemoryCount size]
  | Raise e =>
      [Status (path_name (site_source w st) +:+ "...");
       Error e (ErrorCopyingNewFile (site_source w st)) window_message]
  end.

Definition overwrite_signals (w : BackupSelection) (st : site) (size : Z)
    (r : result unit) : list event :=
  match r with
  | Ok _ =>
      [Status (path_name (site_source w st) +:+ "..."); MemoryCount size; Progress 1]
  | Raise e =>
      [Status (path_name (site_source w st) +:+ "...");
       Error e (ErrorOverwritingFile (site_source w st)) window_message;
       Progress 1]
  end.


(** ** Invariants of a run *)

(** the action [m] keeps [R] between the world it starts in, the world it
    leaves and the signals it emits, whether it returns or raises *)
Definition respects (R : world -> world -> list event -> Prop) (E : env)
    {A} (m : M A) : Prop :=
  forall s r s' evs, m E s = (r, s', evs) -> R s s' evs.

(** the signals the [try] block of [w] emits: progress by units of 1, and
    workers for the directories below, which inherit the exclusions, are
    not root and are not killed *)
Definition emitted_by (w : BackupSelection) (e : event) : Prop :=
  match e with
  | Finished => False
  | Progress count => count = 1
  | NewThread w' =>
      ignore_files w' = ignore_files w /\
      ignore_extensions w' = ignore_extensions w /\
      root w' = false /\
      is_killed w' = false /\
      exists name, src w' = path_join (src w) name
  | _ => True
  end.

(** what the handlers of [run] add to the signals of the [try] block *)
Definition handler_signals (w : BackupSelection) (r : result unit) : list event :=
  match r with
  | Ok _ => []
  | Raise WorkerKilledException => [Status "worker killed"]
  | Raise error =>
      [Error error (ErrorRunningBackup (src w)) (window_message +:+ ".")]
  end.

(** a signal of the [try] block of [w] that is not a byte count *)
Definition quiet (w : BackupSelection) (e : event) : Prop :=
  emitted_by w e /\ is_memory_count e = false.

(** ** A cancellation that comes while a spawn is pending *)

(** one directory is selected; it holds a directory with one file *)
Definition pending_tree : node :=
  Dir [("home", Dir [("docs", Dir [("old", Dir [("a.txt", File 10 5)])])])].

Definition pending_env : env :=
  {| src_fs := pending_tree; faults := fun _ => false; kill_after := None;
     cwd := ["home"]; resolve := fun p => p |}.

Definition pending_window : MainWindow :=
  with_inputs (At ["backup"]) [PathText ["home"; "docs"]] [] []
    [["home"; "docs"]] [] "" "" init.

Definition pending_start : system :=
  started pending_env pending_window {| dst_fs := ∅; copies := [] |}.

(** the root worker runs and asks for a worker on "old" *)
Definition pending_spawned : system :=
  work pending_env 0 (dequeue [] pending_start).

(** the worker the root worker asked for *)
Definition pending_child : BackupSelection :=
  {| src := ["home"; "docs"; "old"]; dst := ["backup"; "docs"; "old"];
     ignore_files := []; ignore_extensions := [];
     root := false; is_killed := false |}.

(** the user cancels, then the main thread handles the two queued
    signals, then the pool runs the worker enqueued by the first *)
Definition pending_end : system :=
  work pending_env 1
    (dequeue []
       (handle pending_env Finished []
          (handle pending_env (NewThread pending_child) [Finished]
             (cancel pending_spawned)))).

(** no signal of a trace is a progress unit, a byte count or a spawn *)
Definition idle (evs : list event) : Prop :=
  Forall (fun e => is_progress e = false /\ is_memory_count e = false /\
                   is_new_thread e = false) evs.

(** ** Two selections *)

(** a selected directory whose only entry is an excluded directory with
    two files *)
Definition album_tree : node :=
  Dir [("home",
        Dir [("docs",
              Dir [("old", Dir [("a.txt", File 10 5); ("b.txt", File 20 6)])])])].

Definition album_env : env :=
  {| src_fs := album_tree; faults := fun _ => false; kill_after := None;
     cwd := ["home"]; resolve := fun p => p |}.

Definition album_window : MainWindow :=
  with_inputs (At ["backup"]) [PathText ["home"; "docs"]]
    [PathText ["home"; "docs"; "old"]] []
    [["home"; "docs"]] [["home"; "docs"; "old"]] "" "" init.

Definition empty_disk : world := {| dst_fs := ∅; copies := [] |}.

(** a selected file, and a backup location that does not exist yet *)
Definition note_tree : node :=
  Dir [("home", Dir [("a.txt", File 10 5)])].

(** the log of the backup cannot be written, as the backup location is
    no directory *)
Definition note_env : env :=
  {| src_fs := note_tree;
     faults := fun op => match op with OpOpenLog _ => true | _ => false end;
     kill_after := None;
     cwd := ["home"]; resolve := fun p => p |}.

Definition note_window : MainWindow :=
  with_inputs (At ["backup"]) [PathText ["home"; "a.txt"]] [] []
    [["home"; "a.txt"]] [] "" "" init.

(** ** A worker at work *)

(** a directory with a text file and a picture; pictures are excluded;
    the backup holds an older copy of the text file *)
Definition desk_tree : node :=
  Dir [("home", Dir [("docs", Dir [("a.txt", File 10 7); ("b.jpg", File 30 2)])])].

Definition desk_env : env :=
  {| src_fs := desk_tree; faults := fun _ => false; kill_after := None;
     cwd := ["home"]; resolve := fun p => p |}.

(** the same, on a disk that refuses every copy *)
Definition full_disk_env : env :=
  {| src_fs := desk_tree;
     faults := fun op => match op with OpCopy2 _ _ => true | _ => false end;
     kill_after := None;
     cwd := ["home"]; resolve := fun p => p |}.


Definition desk_worker : BackupSelection :=
  {| src := ["home"; "docs"]; dst := ["backup"; "docs"];
     ignore_files := []; ignore_extensions := ["jpg"];
     root := false; is_killed := false |}.

Definition desk_disk : world :=
  {| dst_fs := {[ ["backup"] := DDir; ["backup"; "docs"] := DDir;
                  ["backup"; "docs"; "a.txt"] := DFile 8 5 ]};
     copies := [] |}.

(** the disk once the text file has had its turn *)
Definition desk_text_copied : world :=
  {| dst_fs := <[ ["backup"; "docs"; "a.txt"] := DFile 10 7 ]> (dst_fs desk_disk);
     copies := [(["home"; "docs"; "a.txt"], ["backup"; "docs"; "a.txt"])] |}.

Definition desk_window : MainWindow :=
  with_inputs (At ["backup"]) [PathText ["home"; "docs"]] [] []
    [["home"; "docs"]] [] "" "" init.

(** the worker the window makes when the text of excluded extensions is
    "jpg,png," *)
Definition comma_worker : BackupSelection :=
  {| src := ["home"; "docs"]; dst := ["backup"];
     ignore_files := []; ignore_extensions := split "," "jpg,png,";
     root := true; is_killed := false |}.

(** ** What a run adds up to, by the tree *)

(** a tree as a filesystem has it: the names of a directory are distinct
    and none is empty *)
Fixpoint well_formed (t : node) : bool :=
  match t with
  | Dir entries =>
      bool_decide (NoDup (map fst entries)) &&
      (fix all (es : list (string * node)) : bool :=
         match es with
         | [] => true
         | (name, c) :: rest =>
             negb (bool_decide (name = "")) && well_formed c && all rest
         end) entries
  | _ => true
  end.

(** a tree of regular files and directories only *)
Fixpoint regular (t : node) : bool :=
  match t with
  | Dir entries =>
      (fix all (es : list (string * node)) : bool :=
         match es with
         | [] => true
         | (_, c) :: rest => regular c && all rest
         end) entries
  | File _ _ => true
  | Other => false
  end.

(** the progress units the workers of the directory [t] at [p] emit when
    nothing fails: 1 for an excluded entry, whatever it is; otherwise 1
    for a file, the units of its own worker for a directory, and none for
    anything else *)
Fixpoint expected_progress (excluded : list path) (p : path) (t : node) : Z :=
  match t with
  | Dir entries =>
      (fix over (es : list (string * node)) : Z :=
         match es with
         | [] => 0
         | (name, c) :: rest =>
             (if path_in (p ++ [name]) excluded then 1
              else match c with
                   | Dir _ => expected_progress excluded (p ++ [name]) c
                   | File _ _ => 1
                   | Other => 0
                   end) + over rest
         end) entries
  | _ => 0
  end.

(** the share of one entry *)
Definition entry_progress (excluded : list path) (p : path)
    (entry : string * node) : Z :=
  if path_in (p ++ [entry.1]) excluded then 1
  else match entry.2 with
       | Dir _ => expected_progress excluded (p ++ [entry.1]) entry.2
       | File _ _ => 1
       | Other => 0
       end.

Definition sum_list (l : list Z) : Z := foldr Z.add 0 l.

(** the units a worker and the workers below it emit *)
Definition expected_of (fs : node) (w : BackupSelection) : Z :=
  match lookup_path fs (src w) with
  | Some (Dir entries) => expected_progress (ignore_files w) (src w) (Dir entries)
  | Some (File _ _) => 1
  | _ => 0
  end.

(** the units of a whole selection *)
Definition expected_total (fs : node) (excluded : list path)
    (input_select : list path) : Z :=
  sum_list
    (map (fun item =>
            match lookup_path fs item with
            | Some (Dir entries) => expected_progress excluded item (Dir entries)
            | Some (File _ _) => 1
            | _ => 0
            end) input_select).

(** the workers a trace asks for *)
Definition spawned (evs : list event) : list BackupSelection :=
  omap (fun e => match e with NewThread w => Some w | _ => None end) evs.

(** the workers that wait in the pool, and those that are still to run:
    in the pool, or asked for by a signal not handled yet *)
Definition pool_workers (mw : MainWindow) : list BackupSelection :=
  omap (fun i => workers mw !! i) (threadpool mw).

Definition pending (sys : system) : list BackupSelection :=
  pool_workers (window sys) ++ spawned (signals sys).

(** the units emitted so far and those still to come *)
Definition potential (fs : node) (sys : system) : Z :=
  progress_total (handled sys) + progress_total (signals sys) +
  sum_list (map (expected_of fs) (pending sys)).

(** no error has been signalled and no worker has been killed *)
Definition undisturbed (sys : system) : Prop :=
  Forall (fun e => is_error e = false) (handled sys ++ signals sys) /\
  Forall (fun w => is_killed w = false) (workers (window sys)).

(** the application has nothing left to do *)
Definition quiescent (sys : system) : Prop :=
  signals sys = [] /\ threadpool (window sys) = [].

(** the pool refers to workers that exist, the potential of the
    application is [total], and no worker asked for by a queued signal is
    killed *)
Definition accounted (fs : node) (total : Z) (sys : system) : Prop :=
  Forall (fun i => (i < List.length (workers (window sys)))%nat)
    (threadpool (window sys)) /\
  potential fs sys = total /\
  Forall (fun w => is_killed w = false) (spawned (signals sys)).

(** ** How long a run can last *)

(** a bound on the signals the workers of a tree emit: 10 for the worker
    itself and 10 for each entry, besides the workers of the directories
    below *)
Fixpoint weight (t : node) : nat :=
  (match t with
   | Dir entries =>
       10 + (fix over (es : list (string * node)) : nat :=
               match es with
               | [] => 0
               | (_, c) :: rest => 10 + weight c + over rest
               end) entries
   | _ => 10
   end)%nat.

Definition worker_weight (fs : node) (w : BackupSelection) : nat :=
  match lookup_path fs (src w) with
  | Some t => weight t
  | None => 10%nat
  end.

(** the steps a signal stands for: its handling and, for a spawn, the
    steps of the worker *)
Definition cost (fs : node) (e : event) : nat :=
  match e with
  | NewThread w => S (worker_weight fs w)
  | _ => 1%nat
  end.

Definition sum_nat (l : list nat) : nat := foldr Nat.add 0%nat l.

(** a bound on the steps the application still takes *)
Definition load (fs : node) (sys : system) : nat :=
  (sum_nat (map (cost fs) (signals sys)) +
   sum_nat (map (worker_weight fs) (pool_workers (window sys))))%nat.

(** ** Running a Task Unit again *)

(** where the entries of the directory [w] lists go: [self.dst] after
    the root mapping *)
Definition mapped_dst (w : BackupSelection) : path :=
  if root w then path_join (dst w) (path_name (src w)) else dst w.

(** the backup holds the file entry, not older than the source, when the
    worker is to copy it *)
Definition entry_settled (w : BackupSelection) (d' : path) (s : world)
    (entry : string * node) : Prop :=
  match entry.2 with
  | File size mtime =>
      path_in (src w ++ [entry.1]) (ignore_files w) = false ->
      existsb (endswith entry.1) (ignore_extensions w) = false ->
      exists dsize dmtime,
        dst_fs s !! (d' ++ [entry.1]) = Some (DFile dsize dmtime) /\ mtime <= dmtime
  | _ => True
  end.

(** no file the worker lists has a directory in its place in the backup,
    and a selected file has its backup directory *)
Definition clear_of_directories (w : BackupSelection) (E : env) (s : world) : Prop :=
  match lookup_path (src_fs E) (src w) with
  | Some (Dir entries) =>
      Forall (fun entry =>
                is_file_node entry.2 = true ->
                dst_isdir (dst_fs s) (mapped_dst w ++ [entry.1]) = false)
        entries
  | Some (File _ _) =>
      dst_isdir (dst_fs s) (dst w) = true /\
      dst_isdir (dst_fs s) (path_join (dst w) (path_name (src w))) = false
  | _ => True
  end.

(** ** The path lists and the list views *)






(** ** Settings and logs as JSON *)

(** Python objects: the constructors of [BackupSettings] and of
    [BackupLogEntry] store their arguments as they come *)
Module Py.

Record BackupSettings := {
  included_paths : json;
  excluded_paths : json;
  excluded_file_extensions : json;
  root_backup_directory : json
}.

Record BackupLogEntry := {
  backup_date : json;
  backup_time : json;
  total_count : json;
  total_memory : json;
  included_in_backup : json;
  excluded_from_backup : json
}.

Inductive object :=
| Settings (o : BackupSettings)
| LogEntry (o : BackupLogEntry)
| Plain (v : json).

End Py.

(** a [dict] with string keys; a dict display with several keys, the
    last key outermost *)
Abbreviation dict := (gmap string json).

(** [encode_backup_settings]; [None] is its [TypeError] *)
Definition encode_backup_settings (o : Py.object) : option dict :=
  match o with
  | Py.Settings o =>
      Some (<["BackupSettings" := JBool true]>
            (<["backup_root_directory" := Py.root_backup_directory o]>
             (<["excluded_extensions" := Py.excluded_file_extensions o]>
              (<["excluded_paths" := Py.excluded_paths o]>
               (<["included_paths" := Py.included_paths o]> ∅)))))
  | _ => None
  end.

(** [encode_backup_log]; [None] is its [TypeError] *)
Definition encode_backup_log (o : Py.object) : option dict :=
  match o with
  | Py.LogEntry o =>
      Some (<["BackupLogEntry" := JBool true]>
            (<["excluded" := Py.excluded_from_backup o]>
             (<["included" := Py.included_in_backup o]>
              (<["total_memory" := Py.total_memory o]>
               (<["file_count" := Py.total_count o]>
                (<["time" := Py.backup_time o]>
                 (<["date" := Py.backup_date o]> ∅)))))))
  | _ => None
  end.

(** what [decode_backup_settings] gives: the settings, or 0 after a
    [KeyError] that is logged and shown, or 0 and nothing else *)
Inductive decoded :=
| Loaded (settings : Py.BackupSettings)
| KeyErrorLogged (key : string)
| NotSettings.

(** [decode_backup_settings], on the dict of a JSON object; the keyword
    arguments are evaluated in their order, so the [KeyError] names the
    first key that is missing *)
Definition decode_backup_settings (dct : dict) : decoded :=
  if bool_decide (is_Some (dct !! "BackupSettings")) then
    match dct !! "included_paths" with
    | None => KeyErrorLogged "included_paths"
    | Some included =>
        match dct !! "excluded_paths" with
        | None => KeyErrorLogged "excluded_paths"
        | Some excluded =>
            match dct !! "excluded_extensions" with
            | None => KeyErrorLogged "excluded_extensions"
            | Some extensions =>
                match dct !! "backup_root_directory" with
                | None => KeyErrorLogged "backup_root_directory"
                | Some directory =>
                    Loaded {| Py.included_paths := included;
                              Py.excluded_paths := excluded;
                              Py.excluded_file_extensions := extensions;
                              Py.root_backup_directory := directory |}
                end
            end
        end
    end
  else NotSettings.

(** the [BackupSettings] object [save_settings] makes and writes: its
    directory is the text of the resolved location, or the empty string
    without a location *)
Definition saved_settings (E : env) (mw : MainWindow) : BackupSettings :=
  {| included_paths := included_paths_list mw;
     excluded_paths := excluded_paths_list mw;
     excluded_file_extensions := excluded_extensions_list (save_settings mw);
     root_backup_directory :=
       match root_backup_dir mw with
       | NoLocation | EmptyText => None
       | CurrentDirectory => Some (resolve E (cwd E))
       | At p => Some (resolve E p)
       end |}.

(** ** The signals of a backup at the window *)

(** the window handles the signals [evs], oldest first *)
Definition deliver_all (E : env) (evs : list event) (mw : MainWindow) : MainWindow :=
  fold_left (fun acc e => window_after (deliver E e acc)) evs mw.

(** progress is signalled by units of 1, as [run] does *)
Definition by_units (evs : list event) : Prop :=
  Forall (fun e => match e with Progress count => count = 1 | _ => True end) evs.

(** the entry [save_backup_log] makes of the window *)
Definition log_entry (mw : MainWindow) : BackupLogEntry :=
  {| total_count := maximum (progress_bar mw);
     log_total_memory := total_memory mw;
     included_in_backup := included_paths_list mw;
     excluded_from_backup := (excluded_paths_list mw, excluded_extensions_list mw) |}.

(** ** What a run leaves of the backup *)

Definition same_kind (a b : dentry) : bool :=
  match a, b with
  | DDir, DDir => true
  | DFile _ _, DFile _ _ => true
  | _, _ => false
  end.

(** every entry of [d] is in [d'], a directory as a directory and a file
    as a file *)
Definition keeps_entries (d d' : gmap path dentry) : Prop :=
  forall p e, d !! p = Some e -> exists e', d' !! p = Some e' /\ same_kind e e' = true.

(** outside the directory [target], [d'] is [d] but for the directories
    that lead to [target] *)
Definition same_outside (target : path) (d d' : gmap path dentry) : Prop :=
  forall p,
    ~ target `prefix_of` p ->
    d' !! p = d !! p \/ (d' !! p = Some DDir /\ p `prefix_of` target).


(** the workers that wait in the pool and those that are asked for have
    the property [Q] *)
Definition pool_all (Q : BackupSelection -> Prop) (sys : system) : Prop :=
  (forall i w,
     i ∈ threadpool (window sys) -> workers (window sys) !! i = Some w -> Q w) /\
  (forall w, NewThread w ∈ signals sys -> Q w).

(** * Properties *)

(** ** Strings *)

Section Strings.

Lemma substring_none (n : nat) (s : string) : String.substring n 0 s = "".
Proof.
  revert n; induction s as [|c s IH]; intros [|n]; simpl; auto.
Qed.

Lemma substring_all (s : string) : String.substring 0 (String.length s) s = s.
Proof. induction s as [|c s IH]; simpl; [reflexivity | now rewrite IH]. Qed.

Lemma substring_suffix (p s : string) :
  String.substring (String.length p) (String.length s) (p +:+ s) = s.
Proof. induction p as [|c p IH]; simpl; [apply substring_all | exact IH]. Qed.

Lemma length_append (p s : string) :
  String.length (p +:+ s) = (String.length p + String.length s)%nat.
Proof. induction p as [|c p IH]; simpl; [reflexivity | now rewrite IH]. Qed.

Lemma substring_cut (s : string) (m : nat) :
  (m <= String.length s)%nat ->
  s = String.substring 0 m s +:+ String.substring m (String.length s - m) s.
Proof.
  revert m; induction s as [|c s IH]; intros [|m] Hm.
  - reflexivity.
  - simpl in Hm; lia.
  - rewrite substring_none, Nat.sub_0_r, substring_all. reflexivity.
  - simpl in Hm. cbn [String.length String.substring Nat.sub].
    change (String c s =
            String c (String.substring 0 m s +:+
                      String.substring m (String.length s - m) s)).
    f_equal. apply IH. lia.
Qed.

Lemma endswith_spec (s suffix : string) :
  endswith s suffix = true <-> exists p, s = p +:+ suffix.
Proof.
  unfold endswith; split.
  - intros H. apply andb_prop in H as [Hle Heq].
    apply Nat.leb_le in Hle. apply String.eqb_eq in Heq.
    exists (String.substring 0 (String.length s - String.length suffix) s).
    pose proof (substring_cut s (String.length s - String.length suffix)) as Hcut.
    replace (String.length s - (String.length s - String.length suffix))%nat
      with (String.length suffix) in Hcut by lia.
    rewrite Heq in Hcut. apply Hcut. lia.
  - intros [p ->]. rewrite length_append.
    apply andb_true_intro; split; [apply Nat.leb_le; lia|].
    replace (String.length p + String.length suffix - String.length suffix)%nat
      with (String.length p) by lia.
    rewrite substring_suffix. apply String.eqb_refl.
Qed.

(** every name ends with the empty suffix *)
Lemma endswith_empty (s : string) : endswith s "" = true.
Proof.
  apply endswith_spec. exists s.
  induction s as [|c s IH]; [reflexivity|].
  change (String c s = String c (s +:+ "")). now rewrite <- IH.
Qed.

Lemma split_nonempty (sep : ascii) (s : string) : split sep s <> [].
Proof.
  induction s as [|c s IH]; simpl; [discriminate|].
  destruct (Ascii.eqb c sep); [discriminate|].
  destruct (split sep s); discriminate.
Qed.

(** joining the fields back gives the text *)
Lemma join_split (sep : ascii) (s : string) : join_with sep (split sep s) = s.
Proof.
  induction s as [|c s IH]; [reflexivity|].
  cbn [split]. pose proof (split_nonempty sep s) as Hs.
  destruct (Ascii.eqb_spec c sep) as [->|Hne];
    destruct (split sep s) as [|f fs]; try contradiction.
  - rewrite <- IH. reflexivity.
  - destruct fs; rewrite <- IH; reflexivity.
Qed.

(** a text that ends with the separator has an empty last field *)
Lemma split_trailing (sep : ascii) (s : string) :
  exists field fields, split sep (s +:+ String sep "") = field :: fields ++ [""].
Proof.
  induction s as [|c s (f & fs & IH)].
  - exists "", []. change ("" +:+ String sep "") with (String sep "").
    cbn [split]. now rewrite Ascii.eqb_refl.
  - change (String c s +:+ String sep "") with (String c (s +:+ String sep "")).
    cbn [split]. rewrite IH. destruct (Ascii.eqb c sep).
    + now exists "", (f :: fs).
    + now exists (String c f), fs.
Qed.

Lemma split_trailing_empty (sep : ascii) (s : string) :
  "" ∈ split sep (s +:+ String sep "").
Proof.
  destruct (split_trailing sep s) as (f & fs & ->).
  right. apply elem_of_app. right. left.
Qed.

Lemma existsb_empty_suffix (name : string) (extensions : list string) :
  "" ∈ extensions -> existsb (endswith name) extensions = true.
Proof.
  intros H. apply existsb_exists. exists "". split.
  - now apply list_elem_of_In.
  - apply endswith_empty.
Qed.

End Strings.

(** ** One entry of a directory, one selected file *)

(** unfolds the actions of the monad and the calls of [run], but for the
    copy itself *)
Ltac mstep_to_copy :=
  cbv beta iota zeta delta
    [run_child run_file run_dir run_body bind ret raise emit fault
     try_except_OSError read_is_killed
     os_path_isdir os_path_isfile os_path_isdir_dst os_path_isfile_dst
     os_listdir os_path_getsize os_path_getmtime os_path_getmtime_dst
     os_makedirs check_existing_file
     emit_progress emit_memory_count emit_status emit_error
     is_dir_node is_file_node];
  cbn [app dst_fs copies].

Ltac unfold_site :=
  cbv beta iota delta [site_run site_source site_target site_dest site_name] in *.

Ltac mstep :=
  mstep_to_copy;
  cbv beta iota zeta delta [shutil_copy2 bind fault];
  cbn [app dst_fs copies].

Section Entries.

Variable E : env.
Variable w : BackupSelection.

(** what [shutil.copy2] can do: it is logged, it emits nothing, and it
    either succeeds or raises [OSError] and leaves the backup as it was *)
Lemma shutil_copy2_result (source target : path) (s s1 : world)
    (r : result unit) (evs : list event) :
  shutil_copy2 source target E s = (r, s1, evs) ->
  evs = [] /\
  copies s1 = copies s ++ [(source, target)] /\
  (r = Ok tt \/
   r = Raise (OSError (OpCopy2 source target)) /\ dst_fs s1 = dst_fs s).
Proof.
  mstep. destruct (faults E _); mstep.
  - intros [= <- <- <-]. auto.
  - destruct (lookup_path _ _) as [[| |]|]; try (intros [= <- <- <-]; auto).
    destruct (_ && _); intros [= <- <- <-]; auto.
Qed.

(** a successful copy puts the size and the time of the source in place *)
Lemma shutil_copy2_ok (source target : path) (s s1 : world) (size mtime : Z) :
  lookup_path (src_fs E) source = Some (File size mtime) ->
  shutil_copy2 source target E s = (Ok tt, s1, []) ->
  dst_fs s1 = <[copy_target (dst_fs s) source target := DFile size mtime]> (dst_fs s).
Proof.
  intros Hsrc. mstep. destruct (faults E _); mstep; [discriminate|].
  rewrite Hsrc. destruct (_ && _); [|discriminate].
  now intros [= <-].
Qed.

(** the turn of a file whose name ends with an excluded extension leaves
    the backup and the log of copies as they were, and emits one progress
    unit of 1 and no byte count *)
Lemma site_run_excluded (st : site) (size mtime : Z) (s : world) :
  reached w E st size mtime ->
  existsb (endswith (site_name w st)) (ignore_extensions w) = true ->
  exists evs,
    site_run w st E s = (Ok tt, s, evs) /\
    tally evs = (0, 1, 0)%nat /\
    progress_total evs = 1.
Proof.
  intros [Hfile Hk] Hext. destruct st as [d i name|]; unfold_site.
  - mstep. rewrite Hk. destruct (path_in _ _); mstep; [eauto|].
    repeat (progress (rewrite ?Hfile, ?Hext); mstep). eauto.
  - unfold run_file. rewrite Hext. mstep. eauto.
Qed.

Lemma dst_isfile_lookup (d : gmap path dentry) (p : path) :
  dst_isfile d p = true <-> p <> [] /\ exists size mtime, d !! p = Some (DFile size mtime).
Proof.
  unfold dst_isfile. destruct p as [|n p].
  - split; [discriminate | intros [[] _]; reflexivity].
  - destruct (d !! (n :: p)) as [[sz mt|]|]; split;
      try discriminate; try (intros [_ (? & ? & [=])]); eauto.
Qed.

(** the signals of the turn of a file that gets to the copy decision
    follow the result [r] of its copy *)
Lemma site_run_copy_signals (st : site) (size mtime : Z) (s s1 : world)
    (r : result unit) :
  decided w E st size mtime ->
  shutil_copy2 (site_source w st) (site_target w st) E s = (r, s1, []) ->
  (dst_isfile (dst_fs s) (site_dest w st) = false ->
   site_run w st E s = (Ok tt, s1, new_file_signals w st size r) /\
   tally (new_file_signals w st size r) =
     match r with Ok _ => (0, 1, 1) | Raise _ => (1, 0, 0) end%nat) /\
  (forall dsize dmtime,
     dst_isfile (dst_fs s) (site_dest w st) = true ->
     dst_fs s !! site_dest w st = Some (DFile dsize dmtime) ->
     faults E (OpGetmtimeSrc (site_source w st)) = false ->
     faults E (OpGetmtimeDst (site_dest w st)) = false ->
     mtime > dmtime ->
     site_run w st E s = (Ok tt, s1, overwrite_signals w st size r) /\
     tally (overwrite_signals w st size r) =
       match r with Ok _ => (0, 1, 1) | Raise _ => (1, 1, 0) end%nat).
Proof.
  intros ((Hfile & Hk) & Hin & Hext & Hsize) Hcopy.
  pose proof (shutil_copy2_result _ _ _ _ _ _ Hcopy) as (_ & _ & Hr).
  split.
  - intros Habs. split; [|destruct Hr as [->|[-> _]]; reflexivity].
    destruct st as [d i name|]; unfold_site.
    + mstep_to_copy. rewrite Hk, Hin. mstep_to_copy.
      repeat (progress (rewrite ?Hfile, ?Hext, ?Hsize, ?Habs, ?Hcopy); mstep_to_copy).
      destruct Hr as [->|[-> _]]; reflexivity.
    + unfold run_file. rewrite Hext. mstep_to_copy.
      repeat (progress (rewrite ?Hfile, ?Hext, ?Hsize, ?Habs, ?Hcopy); mstep_to_copy).
      destruct Hr as [->|[-> _]]; reflexivity.
  - intros dsize dmtime Hpres Hdst Hms Hmd Hnew.
    split; [|destruct Hr as [->|[-> _]]; reflexivity].
    apply dst_isfile_lookup in Hpres as Hne. destruct Hne as [Hne _].
    destruct st as [d i name|]; unfold_site.
    + mstep_to_copy. rewrite Hk, Hin. mstep_to_copy.
      destruct (path_join d name) as [|n0 p0] eqn:Hp; [done|].
      repeat (progress (rewrite ?Hfile, ?Hext, ?Hsize, ?Hpres, ?Hms, ?Hmd, ?Hdst, ?Hcopy);
              mstep_to_copy).
      rewrite bool_decide_true by done. mstep_to_copy. rewrite Hcopy.
      destruct Hr as [->|[-> _]]; reflexivity.
    + unfold run_file. rewrite Hext. mstep_to_copy.
      destruct (path_join (dst w) (path_name (src w))) as [|n0 p0] eqn:Hp; [done|].
      repeat (progress (rewrite ?Hfile, ?Hext, ?Hsize, ?Hpres, ?Hms, ?Hmd, ?Hdst, ?Hcopy);
              mstep_to_copy).
      rewrite bool_decide_true by done. mstep_to_copy. rewrite Hcopy.
      destruct Hr as [->|[-> _]]; reflexivity.
Qed.





End Entries.

(** ** Taking an action apart *)

Section Inversion.

Variable E : env.

Lemma bind_inv {A B} (m : M A) (f : A -> M B) (s s' : world) (r : result B)
    (evs : list event) :
  bind m f E s = (r, s', evs) ->
  (exists a s1 ev1 ev2,
     m E s = (Ok a, s1, ev1) /\ f a E s1 = (r, s', ev2) /\ evs = ev1 ++ ev2) \/
  (exists e, m E s = (Raise e, s', evs) /\ r = Raise e).
Proof.
  unfold bind. destruct (m E s) as [[[a|e] s1] ev1].
  - destruct (f a E s1) as [[r2 s2] ev2] eqn:H2. intros [= <- <- <-].
    left. exists a, s1, ev1, ev2. repeat split; assumption || reflexivity.
  - intros [= <- <- <-]. right. exists e. split; reflexivity.
Qed.

Lemma try_inv {A} (body : M unit) (handler : exn -> M A) (otherwise : M A)
    (s s' : world) (r : result A) (evs : list event) :
  try_except_OSError body handler otherwise E s = (r, s', evs) ->
  (exists s1 ev1 ev2,
     body E s = (Ok tt, s1, ev1) /\ otherwise E s1 = (r, s', ev2) /\
     evs = ev1 ++ ev2) \/
  (exists op s1 ev1 ev2,
     body E s = (Raise (OSError op), s1, ev1) /\
     handler (OSError op) E s1 = (r, s', ev2) /\ evs = ev1 ++ ev2) \/
  (body E s = (Raise WorkerKilledException, s', evs) /\
   r = Raise WorkerKilledException).
Proof.
  unfold try_except_OSError. destruct (body E s) as [[[[]|[|op]] s1] ev1].
  - destruct (otherwise E s1) as [[r2 s2] ev2] eqn:H2. intros [= <- <- <-].
    left. exists s1, ev1, ev2. repeat split; assumption || reflexivity.
  - intros [= <- <- <-]. right. right. split; reflexivity.
  - destruct (handler (OSError op) E s1) as [[r2 s2] ev2] eqn:H2. intros [= <- <- <-].
    right. left. exists op, s1, ev1, ev2. repeat split; assumption || reflexivity.
Qed.

End Inversion.

(** ** Actions that keep an invariant *)

Section Respects.

Variable R : world -> world -> list event -> Prop.
Variable E : env.
Hypothesis R_refl : forall s, R s s [].
Hypothesis R_trans : forall s1 s2 s3 ev1 ev2,
  R s1 s2 ev1 -> R s2 s3 ev2 -> R s1 s3 (ev1 ++ ev2).

Lemma respects_ret {A} (a : A) : respects R E (ret a).
Proof. intros s r s' evs [= <- <- <-]. apply R_refl. Qed.

Lemma respects_raise {A} (e : exn) : respects R E (@raise A e).
Proof. intros s r s' evs [= <- <- <-]. apply R_refl. Qed.

Lemma respects_bind {A B} (m : M A) (f : A -> M B) :
  respects R E m -> (forall a, respects R E (f a)) -> respects R E (bind m f).
Proof.
  intros Hm Hf s r s' evs. unfold bind.
  destruct (m E s) as [[[a|e] s1] ev1] eqn:H1.
  - destruct (f a E s1) as [[r2 s2] ev2] eqn:H2. intros [= <- <- <-].
    eapply R_trans; [eapply Hm | eapply Hf]; eassumption.
  - intros [= <- <- <-]. eapply Hm; eassumption.
Qed.

Lemma respects_try {A} (body : M unit) (handler : exn -> M A) (otherwise : M A) :
  respects R E body -> (forall e, respects R E (handler e)) ->
  respects R E otherwise ->
  respects R E (try_except_OSError body handler otherwise).
Proof.
  intros Hb Hh Ho s r s' evs. unfold try_except_OSError.
  destruct (body E s) as [[[a|[|op]] s1] ev1] eqn:H1.
  - destruct (otherwise E s1) as [[r2 s2] ev2] eqn:H2. intros [= <- <- <-].
    eapply R_trans; [eapply Hb | eapply Ho]; eassumption.
  - intros [= <- <- <-]. eapply Hb; eassumption.
  - destruct (handler (OSError op) E s1) as [[r2 s2] ev2] eqn:H2.
    intros [= <- <- <-].
    eapply R_trans; [eapply Hb | eapply Hh]; eassumption.
Qed.

Lemma respects_for_each {A} (body : nat -> A -> M unit) (l : list A) :
  (forall i x, x ∈ l -> respects R E (body i x)) ->
  forall i, respects R E (for_each body i l).
Proof.
  induction l as [|x l IH]; intros Hbody i; cbn [for_each].
  - apply respects_ret.
  - apply respects_bind.
    + apply Hbody. left.
    + intros _. apply IH. intros j y Hy. apply Hbody. now right.
Qed.

Lemma respects_if {A} (b : bool) (m1 m2 : M A) :
  respects R E m1 -> respects R E m2 -> respects R E (if b then m1 else m2).
Proof. now destruct b. Qed.

(** an action that only reads *)
Lemma respects_read {A} (m : M A) :
  (forall s, exists r, m E s = (r, s, [])) -> respects R E m.
Proof.
  intros Hm s r s' evs Hrun. destruct (Hm s) as [r0 H0].
  rewrite H0 in Hrun. injection Hrun as <- <- <-. apply R_refl.
Qed.

Lemma respects_fault (op : fsop) : respects R E (fault op).
Proof. apply respects_read. intros s. unfold fault. destruct (faults E op); eauto. Qed.

Lemma respects_isdir (p : path) : respects R E (os_path_isdir p).
Proof. apply respects_read. intros s. unfold os_path_isdir. eauto. Qed.

Lemma respects_isfile (p : path) : respects R E (os_path_isfile p).
Proof. apply respects_read. intros s. unfold os_path_isfile. eauto. Qed.

Lemma respects_isdir_dst (p : path) : respects R E (os_path_isdir_dst p).
Proof. apply respects_read. intros s. unfold os_path_isdir_dst. eauto. Qed.

Lemma respects_isfile_dst (p : path) : respects R E (os_path_isfile_dst p).
Proof. apply respects_read. intros s. unfold os_path_isfile_dst. eauto. Qed.

Lemma respects_read_is_killed (w : BackupSelection) (i : nat) :
  respects R E (read_is_killed w i).
Proof. apply respects_read. intros s. unfold read_is_killed. eauto. Qed.

Lemma respects_listdir (p : path) : respects R E (os_listdir p).
Proof.
  apply respects_bind; [apply respects_fault|]. intros _.
  apply respects_read. intros s. destruct (lookup_path _ _) as [[| |]|]; eauto.
Qed.

Lemma respects_getsize (p : path) : respects R E (os_path_getsize p).
Proof.
  apply respects_bind; [apply respects_fault|]. intros _.
  apply respects_read. intros s. destruct (lookup_path _ _) as [[| |]|]; eauto.
Qed.

Lemma respects_getmtime (p : path) : respects R E (os_path_getmtime p).
Proof.
  apply respects_bind; [apply respects_fault|]. intros _.
  apply respects_read. intros s. destruct (lookup_path _ _) as [[| |]|]; eauto.
Qed.

Lemma respects_getmtime_dst (p : path) : respects R E (os_path_getmtime_dst p).
Proof.
  apply respects_bind; [apply respects_fault|]. intros _.
  apply respects_read. intros s. destruct p; [eauto|].
  destruct (dst_fs s !! _) as [[|]|]; eauto.
Qed.

Lemma respects_check_existing_file (source dest : path) :
  respects R E (check_existing_file source dest).
Proof.
  apply respects_bind; [apply respects_getmtime|]. intros m_src.
  apply respects_bind; [apply respects_getmtime_dst|]. intros m_dst.
  apply respects_ret.
Qed.

(** the branch of a directory keeps what its turns of the loop,
    [os.makedirs] and the error of the root mapping keep *)
Lemma run_dir_respects (w : BackupSelection) :
  (forall d i name, respects R E (run_child w d i name)) ->
  (forall p, respects R E (os_makedirs p)) ->
  (forall e c, respects R E (emit_error e c window_message)) ->
  respects R E (run_dir w).
Proof.
  intros Hchild Hmk Herr. unfold run_dir.
  apply respects_bind; [apply respects_isdir_dst|]. intros have_dst.
  apply respects_bind; [apply respects_if; [apply respects_ret | apply Hmk]|].
  intros _. apply respects_bind.
  - apply respects_if; [|apply respects_ret].
    apply respects_try; [apply Hmk | | apply respects_ret].
    intros e. apply respects_bind; [apply Herr|]. intros _. apply respects_ret.
  - intros [d|]; [|apply respects_ret].
    apply respects_bind; [apply respects_listdir|]. intros names.
    apply respects_for_each. intros i name _. apply Hchild.
Qed.

(** the [try] block keeps what its sites, [os.makedirs] and the error of
    the root mapping keep *)
Lemma run_body_respects (w : BackupSelection) :
  (forall st, respects R E (site_run w st)) ->
  (forall p, respects R E (os_makedirs p)) ->
  (forall e c, respects R E (emit_error e c window_message)) ->
  respects R E (run_body w).
Proof.
  intros Hsite Hmk Herr. unfold run_body.
  apply respects_bind; [apply respects_isdir|]. intros is_dir.
  apply respects_if.
  - apply run_dir_respects; [|assumption..].
    intros d i name. apply (Hsite (Child d i name)).
  - apply respects_bind; [apply respects_isfile|]. intros is_file.
    apply respects_if; [apply (Hsite Selected) | apply respects_ret].
Qed.

(** a site keeps what the signals of [w] and the copy keep *)
Lemma site_run_respects (w : BackupSelection) :
  (forall e, emitted_by w e -> respects R E (emit e)) ->
  (forall source target, respects R E (shutil_copy2 source target)) ->
  forall st, respects R E (site_run w st).
Proof.
  intros Hemit Hcopy.
  assert (forall source target c size (counted : bool),
    respects R E
      (try_except_OSError (shutil_copy2 source target)
         (fun os_error => emit_error os_error c window_message)
         (if counted then emit_progress 1 ;; emit_memory_count size
          else emit_memory_count size))) as Htry.
  { intros. apply respects_try; [apply Hcopy | |].
    - intros e. now apply Hemit.
    - destruct counted.
      + apply respects_bind; [now apply Hemit|]. intros _. now apply Hemit.
      + now apply Hemit. }
  assert (forall source dest target c1 c2 size name,
    respects R E
      (exists_ <- os_path_isfile_dst dest ;;
       if exists_ : bool then
         newer <- check_existing_file source dest ;;
         (if newer : bool then
            emit_status name ;;
            try_except_OSError (shutil_copy2 source target)
              (fun os_error => emit_error os_error c1 window_message)
              (emit_memory_count size)
          else ret tt) ;;
         emit_progress 1
       else
         emit_status name ;;
         try_except_OSError (shutil_copy2 source target)
           (fun os_error => emit_error os_error c2 window_message)
           (emit_progress 1 ;; emit_memory_count size))) as Hdecide.
  { intros. apply respects_bind; [apply respects_isfile_dst|]. intros exists_.
    apply respects_if.
    - apply respects_bind; [apply respects_check_existing_file|]. intros newer.
      apply respects_bind; [|intros _; now apply Hemit].
      apply respects_if; [|apply respects_ret].
      apply respects_bind; [now apply Hemit|]. intros _.
      apply (Htry source target c1 size false).
    - apply respects_bind; [now apply Hemit|]. intros _.
      apply (Htry source target c2 size true). }
  intros [d i name|]; cbn [site_run].
  - unfold run_child.
    apply respects_bind; [apply respects_read_is_killed|]. intros killed.
    apply respects_if; [apply respects_raise|].
    apply respects_if.
    { apply respects_bind; [now apply Hemit|]. intros _. now apply Hemit. }
    apply respects_bind; [apply respects_isdir|]. intros is_dir.
    apply respects_if.
    { apply Hemit. cbn. eauto 10. }
    apply respects_bind; [apply respects_isfile|]. intros is_file.
    apply respects_if; [|apply respects_ret].
    apply respects_if.
    { apply respects_bind; [now apply Hemit|]. intros _. now apply Hemit. }
    apply respects_bind; [apply respects_getsize|]. intros file_size.
    apply Hdecide.
  - unfold run_file. apply respects_if.
    { apply respects_bind; [now apply Hemit|]. intros _. now apply Hemit. }
    apply respects_bind; [apply respects_getsize|]. intros file_size.
    apply Hdecide.
Qed.

(** [run] adds the signals of its handlers and [finished] to those of
    its [try] block, and returns *)
Lemma run_unfold (w : BackupSelection) (s : world) :
  exists r s' evs,
    run_body w E s = (r, s', evs) /\
    run w E s = (Ok tt, s', evs ++ handler_signals w r ++ [Finished]).
Proof.
  unfold run. destruct (run_body w E s) as [[[[]|[|op]] s1] ev1];
    do 3 eexists; (split; [reflexivity|]); cbn.
  - reflexivity.
  - now rewrite <- app_assoc.
  - now rewrite <- app_assoc.
Qed.

End Respects.

(** ** Invariants that depend on the site *)

Section RespectsAt.

Variable R : world -> world -> list event -> Prop.
Variable E : env.
Hypothesis R_refl : forall s, R s s [].
Hypothesis R_trans : forall s1 s2 s3 ev1 ev2,
  R s1 s2 ev1 -> R s2 s3 ev2 -> R s1 s3 (ev1 ++ ev2).

(** as [respects_bind], when the continuation gets values of [m] only *)
Lemma respects_bind_value {A B} (m : M A) (f : A -> M B) (P : A -> Prop) :
  respects R E m ->
  (forall s a s' evs, m E s = (Ok a, s', evs) -> P a) ->
  (forall a, P a -> respects R E (f a)) ->
  respects R E (bind m f).
Proof.
  intros Hm HP Hf s r s' evs Hrun.
  apply bind_inv in Hrun as [(a & s1 & ev1 & ev2 & H1 & H2 & ->)|(e & H1 & _)].
  - eapply R_trans; [eapply Hm; exact H1|]. eapply Hf; [|exact H2].
    eapply HP. exact H1.
  - eapply Hm. exact H1.
Qed.

(** a site keeps what its signals outside the copy and the two [try]
    statements of its copy keep *)
Lemma site_run_respects_try (w : BackupSelection) (st : site) :
  (forall e, quiet w e -> is_error e = false -> respects R E (emit e)) ->
  (forall size,
     respects R E
       (try_except_OSError (shutil_copy2 (site_source w st) (site_target w st))
          (fun os_error =>
             emit_error os_error (ErrorOverwritingFile (site_source w st)) window_message)
          (emit_memory_count size))) ->
  (forall size,
     respects R E
       (try_except_OSError (shutil_copy2 (site_source w st) (site_target w st))
          (fun os_error =>
             emit_error os_error (ErrorCopyingNewFile (site_source w st)) window_message)
          (emit_progress 1 ;; emit_memory_count size))) ->
  respects R E (site_run w st).
Proof.
  intros Hemit Hover Hnew.
  pose proof (@respects_bind R E R_trans) as Bind.
  pose proof (@respects_if R E) as If.
  assert (forall count, count = 1 -> respects R E (emit_progress count)) as Hprogress.
  { intros count ->. apply Hemit; [now split | reflexivity]. }
  assert (forall message, respects R E (emit_status message)) as Hstatus.
  { intros message. apply Hemit; [now split | reflexivity]. }
  assert (forall dest size name,
    respects R E
      (exists_ <- os_path_isfile_dst dest ;;
       if exists_ : bool then
         newer <- check_existing_file (site_source w st) dest ;;
         (if newer : bool then
            emit_status name ;;
            try_except_OSError (shutil_copy2 (site_source w st) (site_target w st))
              (fun os_error =>
                 emit_error os_error (ErrorOverwritingFile (site_source w st))
                   window_message)
              (emit_memory_count size)
          else ret tt) ;;
         emit_progress 1
       else
         emit_status name ;;
         try_except_OSError (shutil_copy2 (site_source w st) (site_target w st))
           (fun os_error =>
              emit_error os_error (ErrorCopyingNewFile (site_source w st))
                window_message)
           (emit_progress 1 ;; emit_memory_count size))) as Hdecide.
  { intros. apply Bind; [now apply respects_isfile_dst|]. intros exists_.
    apply If.
    - apply Bind; [now apply respects_check_existing_file|]. intros newer.
      apply Bind; [|intros _; now apply Hprogress].
      apply If; [|now apply respects_ret].
      apply Bind; [apply Hstatus|]. intros _. apply Hover.
    - apply Bind; [apply Hstatus|]. intros _. apply Hnew. }
  destruct st as [d i name|]; cbn [site_run site_source site_target] in *.
  - unfold run_child.
    apply Bind; [now apply respects_read_is_killed|]. intros killed.
    apply If; [now apply respects_raise|].
    apply If.
    { apply Bind; [now apply Hprogress|]. intros _. apply Hstatus. }
    apply Bind; [now apply respects_isdir|]. intros is_dir.
    apply If.
    { apply Hemit; [|reflexivity]. split; [|reflexivity]. cbn. eauto 10. }
    apply Bind; [now apply respects_isfile|]. intros is_file.
    apply If; [|now apply respects_ret].
    apply If.
    { apply Bind; [now apply Hprogress|]. intros _. apply Hstatus. }
    apply Bind; [now apply respects_getsize|]. intros file_size.
    apply Hdecide.
  - unfold run_file. apply If.
    { apply Bind; [apply Hstatus|]. intros _. now apply Hprogress. }
    apply Bind; [now apply respects_getsize|]. intros file_size.
    apply Hdecide.
Qed.

(** a site keeps what the signals of [w] and its own copy keep *)
Lemma site_run_respects_at (w : BackupSelection) (st : site) :
  (forall e, emitted_by w e -> respects R E (emit e)) ->
  respects R E (shutil_copy2 (site_source w st) (site_target w st)) ->
  respects R E (site_run w st).
Proof.
  intros Hemit Hcopy.
  pose proof (@respects_bind R E R_trans) as Bind.
  apply site_run_respects_try.
  - intros e [He _] _. now apply Hemit.
  - intros size. apply respects_try; [assumption.. | |now apply Hemit].
    intros e. now apply Hemit.
  - intros size. apply respects_try; [assumption.. | |].
    + intros e. now apply Hemit.
    + apply Bind; [now apply Hemit|]. intros _. now apply Hemit.
Qed.

(** the [try] block keeps what the turns of its loop on the mapped
    destination, its selected file, its two [os.makedirs] and the error
    of the root mapping keep *)
Lemma run_body_respects_at (w : BackupSelection) :
  (forall i name, respects R E (run_child w (mapped_dst w) i name)) ->
  respects R E (run_file w) ->
  respects R E (os_makedirs (dst w)) ->
  respects R E (os_makedirs (path_join (dst w) (path_name (src w)))) ->
  (forall e,
     respects R E
       (emit_error e (ErrorCreatingDirectory (path_join (dst w) (path_name (src w))))
          window_message)) ->
  respects R E (run_body w).
Proof.
  intros Hchild Hfile Hmk Hmk' Herr.
  pose proof (@respects_bind R E R_trans) as Bind.
  unfold run_body.
  apply Bind; [now apply respects_isdir|]. intros is_dir.
  apply respects_if.
  2:{ apply Bind; [now apply respects_isfile|]. intros is_file.
      apply respects_if; [assumption | now apply respects_ret]. }
  unfold run_dir.
  apply Bind; [now apply respects_isdir_dst|]. intros have_dst.
  apply Bind; [apply respects_if; [now apply respects_ret | assumption]|].
  intros _.
  apply (respects_bind_value _ _
           (fun mapped => mapped = None \/ mapped = Some (mapped_dst w))).
  - apply respects_if; [|now apply respects_ret].
    apply respects_try; [assumption.. | |now apply respects_ret].
    intros e. apply Bind; [apply Herr|]. intros _. now apply respects_ret.
  - intros s mapped s' evs. unfold mapped_dst. destruct (root w).
    + intros Hrun. apply try_inv in Hrun
        as [(s1 & e1 & e2 & _ & Hret & _)|[(op & s1 & e1 & e2 & _ & Hh & _)|[_ [=]]]].
      * injection Hret as <- _ _. now right.
      * apply bind_inv in Hh as [(u & s2 & e3 & e4 & _ & Hret & _)|(e & _ & [=])].
        injection Hret as <- _ _. now left.
    + intros [= <- _ _]. now right.
  - intros mapped [->| ->]; [now apply respects_ret|].
    apply Bind; [now apply respects_listdir|]. intros names.
    apply respects_for_each; [assumption..|]. intros i name _. apply Hchild.
Qed.

(** [run] keeps what its [try] block keeps, when the signals of the
    handlers and [finished] do not count *)
Lemma run_respects_at (w : BackupSelection) :
  respects R E (run_body w) ->
  (forall s s' evs r, R s s' evs -> R s s' (evs ++ handler_signals w r ++ [Finished])) ->
  respects R E (run w).
Proof.
  intros Hbody Hend s r s' evs Hrun.
  destruct (run_unfold E w s) as (r0 & s0 & evs0 & Hbody0 & Hrun0).
  rewrite Hrun0 in Hrun. injection Hrun as <- <- <-.
  apply Hend. eapply Hbody. exact Hbody0.
Qed.

End RespectsAt.

(** ** A Task Unit from start to finish *)

Section TaskUnit.

Variable E : env.
Variable w : BackupSelection.

Lemma os_makedirs_result (p : path) (s s' : world) (r : result unit)
    (evs : list event) :
  os_makedirs p E s = (r, s', evs) -> evs = [] /\ copies s' = copies s.
Proof.
  mstep. destruct (faults E _); mstep; [now intros [= <- <- <-]|].
  destruct (blocked_by_file _ _); now intros [= <- <- <-].
Qed.

(** the signals of the [try] block *)
Lemma run_body_signals (s s' : world) (r : result unit) (evs : list event) :
  run_body w E s = (r, s', evs) -> Forall (emitted_by w) evs.
Proof.
  apply (run_body_respects (fun _ _ evs => Forall (emitted_by w) evs) E).
  - constructor.
  - intros; now apply Forall_app.
  - apply site_run_respects.
    + constructor.
    + intros; now apply Forall_app.
    + intros e He s0 r0 s0' evs0 [= <- <- <-]. now constructor.
    + intros source target s0 r0 s0' evs0 H.
      apply shutil_copy2_result in H as [-> _]. constructor.
  - intros p s0 r0 s0' evs0 H. apply os_makedirs_result in H as [-> _]. constructor.
  - intros e c s0 r0 s0' evs0 [= <- <- <-]. now repeat constructor.
Qed.

Lemma count_events_app (kind : event -> bool) (l1 l2 : list event) :
  count_events kind (l1 ++ l2) = (count_events kind l1 + count_events kind l2)%nat.
Proof. unfold count_events. now rewrite filter_app, length_app. Qed.

Lemma count_events_none (kind : event -> bool) (l : list event) :
  Forall (fun e => kind e = false) l -> count_events kind l = 0%nat.
Proof.
  unfold count_events. induction 1 as [|e l He _ IH]; [reflexivity|].
  rewrite filter_cons, decide_False by congruence. exact IH.
Qed.

Lemma handler_signals_not_finished (r : result unit) :
  Forall (fun e => is_finished e = false) (handler_signals w r).
Proof. destruct r as [|[|]]; repeat constructor. Qed.

(** C3: whatever path a Task Unit takes (copies, skips, exclusions,
    errors, cancellation), [run] returns with a trace that ends with
    [finished] and holds no other [finished] signal. *)
Theorem finished_exactly_once (s : world) :
  exists s' before,
    run w E s = (Ok tt, s', before ++ [Finished]) /\
    Forall (fun e => is_finished e = false) before /\
    count_events is_finished (before ++ [Finished]) = 1%nat.
Proof.
  destruct (run_unfold E w s) as (r & s' & evs & Hbody & Hrun).
  exists s', (evs ++ handler_signals w r).
  rewrite <- app_assoc. split; [exact Hrun|].
  assert (Forall (fun e => is_finished e = false) (evs ++ handler_signals w r)) as Hnone.
  { apply Forall_app. split; [|apply handler_signals_not_finished].
    eapply Forall_impl; [eapply run_body_signals; eassumption|].
    now intros []. }
  split; [exact Hnone|].
  rewrite app_assoc, count_events_app, (count_events_none _ _ Hnone). reflexivity.
Qed.

End TaskUnit.

(** ** The empty extension *)

Section EmptyExtension.

Variable E : env.
Variable w : BackupSelection.
Hypothesis empty_listed : "" ∈ ignore_extensions w.

(** with the empty extension listed, a site does not touch the world and
    emits no byte count *)
Lemma site_run_empty_extension (st : site) :
  respects (fun s s' evs => s' = s /\ Forall (quiet w) evs) E (site_run w st).
Proof.
  set (R := fun (s s' : world) (evs : list event) => s' = s /\ Forall (quiet w) evs).
  assert (forall s, R s s []) as R_refl by (intros; now split).
  assert (forall s1 s2 s3 ev1 ev2, R s1 s2 ev1 -> R s2 s3 ev2 -> R s1 s3 (ev1 ++ ev2))
    as R_trans.
  { intros s1 s2 s3 ev1 ev2 [-> H1] [-> H2]. split; [reflexivity | now apply Forall_app]. }
  assert (forall e, quiet w e -> respects R E (emit e)) as Hemit.
  { intros e He s r s' evs [= <- <- <-]. split; [reflexivity | now constructor]. }
  pose proof (@respects_bind R E R_trans) as Bind.
  pose proof (@respects_ret R E R_refl) as Ret.
  pose proof (@respects_raise R E R_refl) as Rai.
  pose proof (@respects_if R E) as If.
  destruct st as [d i name|]; cbn [site_run].
  - unfold run_child. rewrite (existsb_empty_suffix name _ empty_listed).
    apply Bind; [now apply respects_read_is_killed|]. intros killed.
    apply If; [apply Rai|].
    apply If.
    { apply Bind; [now apply Hemit|]. intros _. now apply Hemit. }
    apply Bind; [now apply respects_isdir|]. intros is_dir.
    apply If.
    { apply Hemit. split; [|reflexivity]. cbn. eauto 10. }
    apply Bind; [now apply respects_isfile|]. intros is_file.
    apply If; [|apply Ret].
    apply Bind; [now apply Hemit|]. intros _. now apply Hemit.
  - unfold run_file. rewrite (existsb_empty_suffix _ _ empty_listed).
    apply Bind; [now apply Hemit|]. intros _. now apply Hemit.
Qed.

Lemma run_body_empty_extension :
  respects (fun s s' evs => copies s' = copies s /\ Forall (quiet w) evs) E (run_body w).
Proof.
  apply run_body_respects.
  - intros; now split.
  - intros s1 s2 s3 ev1 ev2 [H1 F1] [H2 F2].
    split; [congruence | now apply Forall_app].
  - intros st s r s' evs H.
    apply site_run_empty_extension in H as [-> HF]. now split.
  - intros p s r s' evs H. apply os_makedirs_result in H as [-> H]. now split.
  - intros e c s r s' evs [= <- <- <-]. split; [reflexivity|]. now repeat constructor.
Qed.

End EmptyExtension.

(** ** Cancellation *)

(** the ways [update_progress] ends: short of the maximum; at the
    maximum, where the log is saved, is not saved after an [OSError], or
    [save_backup_log] raises *)
Ltac progress_cases :=
  unfold update_progress, save_backup_log;
  cbn [progress progress_bar root_backup_dir];
  destruct (_ =? _);
    [destruct (directory _ _); [destruct (faults _ _)|]|];
  cbn [window_after].

Section Cancellation.

Lemma workers_deliver (E : env) (e : event) (mw : MainWindow) (i : nat)
    (w : BackupSelection) :
  workers mw !! i = Some w ->
  exists w', workers (window_after (deliver E e mw)) !! i = Some w' /\
             (is_killed w = true -> is_killed w' = true).
Proof.
  intros Hi.
  assert (exists w', map kill (workers mw) !! i = Some w' /\
                     (is_killed w = true -> is_killed w' = true)) as Hkill.
  { exists (kill w). split; [|reflexivity].
    change (map kill (workers mw)) with (kill <$> workers mw).
    now rewrite list_lookup_fmap, Hi. }
  destruct e; cbn [deliver window_after]; eauto.
  - progress_cases; cbn; eauto.
  - cbn. exists w. split; [|auto]. now apply lookup_app_l_Some.
Qed.

(** a step of the application keeps the flag of a killed worker set *)
Lemma step_keeps_killed (E : env) (sys sys' : system) (i : nat) (w : BackupSelection) :
  step E sys sys' ->
  workers (window sys) !! i = Some w -> is_killed w = true ->
  exists w', workers (window sys') !! i = Some w' /\ is_killed w' = true.
Proof.
  intros Hstep Hi Hk. destruct Hstep as [sys e rest _|sys j before after _|sys].
  - destruct (workers_deliver E e _ _ _ Hi) as (w' & Hw' & Hk'). eauto.
  - unfold work. cbn. destruct (workers (window sys) !! j); [|cbn; eauto].
    destruct (run _ _ _) as [[r d] evs]. cbn. eauto.
  - cbn. exists (kill w). split; [|reflexivity].
    change (map kill (workers (window sys))) with (kill <$> workers (window sys)).
    now rewrite list_lookup_fmap, Hi.
Qed.

Lemma killed_at_mono (w : BackupSelection) (E : env) (i j : nat) :
  killed_at w E i = true -> (i <= j)%nat -> killed_at w E j = true.
Proof.
  unfold killed_at. destruct (is_killed w); [reflexivity|].
  destruct (kill_after E) as [k|]; [|discriminate]. cbn.
  rewrite !Nat.leb_le. lia.
Qed.

(** once the flag reads as set, the loop stops before the next entry *)
Lemma for_each_killed (w : BackupSelection) (E : env) (d : path) (i : nat)
    (names : list string) (s : world) :
  killed_at w E i = true -> names <> [] ->
  for_each (run_child w d) i names E s = (Raise WorkerKilledException, s, []).
Proof.
  intros Hk Hne. destruct names as [|name names]; [done|].
  cbn [for_each]. mstep. now rewrite Hk.
Qed.

(** a directory worker whose flag is set from the start does nothing but
    report *)
Lemma run_dir_killed (w : BackupSelection) (E : env) :
  is_killed w = true ->
  respects (fun s s' evs => copies s' = copies s /\ idle evs) E (run_dir w).
Proof.
  intros Hk.
  set (R := fun (s s' : world) (evs : list event) => copies s' = copies s /\ idle evs).
  assert (forall s, R s s []) as R_refl by (intros; split; [reflexivity | constructor]).
  assert (forall s1 s2 s3 ev1 ev2, R s1 s2 ev1 -> R s2 s3 ev2 -> R s1 s3 (ev1 ++ ev2))
    as R_trans.
  { intros s1 s2 s3 ev1 ev2 [H1 F1] [H2 F2]. split; [congruence | now apply Forall_app]. }
  apply run_dir_respects; try assumption.
  - intros d i name s r s' evs. mstep.
    unfold killed_at. rewrite Hk. cbn. intros [= <- <- <-]. apply R_refl.
  - intros p s r s' evs H. apply os_makedirs_result in H as [-> H].
    split; [assumption | constructor].
  - intros e c s r s' evs [= <- <- <-]. split; [reflexivity | now repeat constructor].
Qed.

Lemma rtc_keeps_killed (E : env) (sys sys' : system) :
  rtc (step E) sys sys' ->
  forall i w, workers (window sys) !! i = Some w -> is_killed w = true ->
  exists w', workers (window sys') !! i = Some w' /\ is_killed w' = true.
Proof.
  induction 1 as [sys|sys sys1 sys2 Hstep _ IH]; intros i w Hi Hk; [eauto|].
  destruct (step_keeps_killed _ _ _ _ _ Hstep Hi Hk) as (w1 & Hi1 & Hk1). eauto.
Qed.

(** C6, as amended: a cancellation request sets the flag of every worker
    enqueued before it, whether it has run, is running or waits in the
    pool; the flag of such a worker stays set whatever the application
    does next; from the check at which the flag reads as set, the loop of
    a worker stops before the next entry; and a directory worker whose
    flag is set before it starts issues no copy and emits no progress
    unit, byte count or spawn. *)
Theorem cancellation_reaches_enqueued_workers :
  (forall mw w, w ∈ workers (cancel_backup mw) -> is_killed w = true) /\
  (forall E sys sys' i w,
     rtc (step E) (cancel sys) sys' ->
     workers (window sys) !! i = Some w ->
     exists w', workers (window sys') !! i = Some w' /\ is_killed w' = true) /\
  (forall w E d i j names s,
     killed_at w E i = true -> (i <= j)%nat -> names <> [] ->
     for_each (run_child w d) j names E s = (Raise WorkerKilledException, s, [])) /\
  (forall w E entries s,
     is_killed w = true ->
     lookup_path (src_fs E) (src w) = Some (Dir entries) ->
     exists s' evs,
       run w E s = (Ok tt, s', evs) /\ copies s' = copies s /\ idle evs).
Proof.
  repeat split.
  - intros mw w. cbn. rewrite list_elem_of_In, in_map_iff.
    now intros (w0 & <- & _).
  - intros E sys sys' i w Hsteps Hi.
    apply (rtc_keeps_killed _ _ _ Hsteps i (kill w)); [|reflexivity]. cbn.
    change (map kill (workers (window sys))) with (kill <$> workers (window sys)).
    now rewrite list_lookup_fmap, Hi.
  - intros w E d i j names s Hk Hij Hne.
    apply for_each_killed; [|assumption]. eapply killed_at_mono; eassumption.
  - intros w E entries s Hk Hdir.
    destruct (run_unfold E w s) as (r & s' & evs & Hbody & Hrun).
    assert (run_body w E s = run_dir w E s) as Hbranch.
    { unfold run_body, bind, os_path_isdir. rewrite Hdir.
      cbv beta iota delta [is_dir_node].
      now destruct (run_dir w E s) as [[r0 s0] ev0]. }
    rewrite Hbranch in Hbody. apply (run_dir_killed w E Hk) in Hbody as [Hc Hidle].
    exists s', (evs ++ handler_signals w r ++ [Finished]). repeat split; try assumption.
    apply Forall_app. split; [assumption|].
    destruct r as [|[|]]; now repeat constructor.
Qed.

(** C6 fails as stated: the root worker has asked for a worker on the
    directory "old" when the user cancels; the request sets the flag of
    the root worker only, the worker for "old" is enqueued afterwards with
    its flag clear, and it copies the file of "old". *)
Lemma cancellation_misses_pending_child :
  rtc (step pending_env) pending_start pending_spawned /\
  signals pending_spawned = [NewThread pending_child; Finished] /\
  rtc (step pending_env) (cancel pending_spawned) pending_end /\
  workers (window pending_end) !! 1%nat = Some pending_child /\
  is_killed pending_child = false /\
  copies (disk (cancel pending_spawned)) = [] /\
  copies (disk pending_end) =
    [(["home"; "docs"; "old"; "a.txt"], ["backup"; "docs"; "old"; "a.txt"])] /\
  progress_total (signals pending_end) = 1.
Proof.
  split.
  { eapply rtc_l; [|apply rtc_refl].
    apply (step_work pending_env pending_start 0 [] []). reflexivity. }
  split; [vm_compute; reflexivity|].
  split.
  { eapply rtc_l; [apply (step_handle _ _ (NewThread pending_child) [Finished]);
                   vm_compute; reflexivity|].
    eapply rtc_l; [apply (step_handle _ _ Finished []); vm_compute; reflexivity|].
    eapply rtc_l; [|apply rtc_refl].
    apply (step_work pending_env _ 1 [] []). vm_compute. reflexivity. }
  repeat split; vm_compute; reflexivity.
Qed.

End Cancellation.

(** ** The counters of the main window *)

Section Counters.

Lemma setValue_maximum (v : Z) (b : QProgressBar) :
  maximum (setValue v b) = maximum b.
Proof. unfold setValue. now destruct (_ || _). Qed.

(** [setValue(0)] shows 0 on a bar whose range starts at 0 *)
Lemma setValue_zero (b : QProgressBar) :
  0 <= maximum b -> value (setValue 0 b) = 0.
Proof.
  intros Hmax. unfold setValue.
  destruct (0 =? value b) eqn:Hv; cbn.
  - apply Z.eqb_eq in Hv. now rewrite <- Hv.
  - replace (maximum b <? 0) with false by (symmetry; apply Z.ltb_ge; lia).
    reflexivity.
Qed.

Lemma run_backup_enqueue_counters (backup_dir : path) (excluded : list path)
    (extensions : list string) (items : list path) (mw : MainWindow) :
  let mw' :=
    fold_left
      (fun acc item =>
         enqueue {| src := item; dst := backup_dir; ignore_files := excluded;
                    ignore_extensions := extensions;
                    root := true; is_killed := false |} acc)
      items mw in
  progress mw' = progress mw /\ total_memory mw' = total_memory mw.
Proof.
  revert mw. induction items as [|item items IH]; intros mw; cbn; [auto|].
  destruct (IH (enqueue {| src := item; dst := backup_dir; ignore_files := excluded;
                           ignore_extensions := extensions;
                           root := true; is_killed := false |} mw)) as [Hp Hm].
  cbn in Hp, Hm. now rewrite Hp, Hm.
Qed.

Lemma start_workers_counters (E : env) (backup_dir : path) (mw : MainWindow) :
  progress (start_workers E backup_dir mw) = progress mw /\
  total_memory (start_workers E backup_dir mw) = total_memory mw.
Proof.
  unfold start_workers. cbv zeta.
  match goal with
  | |- context [fold_left _ ?items ?m] =>
      destruct (run_backup_enqueue_counters backup_dir (files_to_exclude_model mw)
                  (if decide (input_exclude_by mw = "") then []
                   else split "," (input_exclude_by mw)) items m) as [Hp Hm]
  end.
  cbn in Hp, Hm. cbn. now rewrite Hp, Hm.
Qed.

Lemma run_backup_counters (E : env) (mw : MainWindow) :
  progress (run_backup E mw) = progress mw /\
  total_memory (run_backup E mw) = total_memory mw.
Proof.
  unfold run_backup.
  destruct (root_backup_dir mw) as [| | |backup_dir]; auto using start_workers_counters.
Qed.

(** only the two counting signals change the counters *)
Lemma perform_counters (E : env) (a : action) (mw mw' : MainWindow) :
  perform E a mw = Some mw' -> counts a = false ->
  progress mw' = progress mw /\ total_memory mw' = total_memory mw.
Proof.
  destruct a as [e| | |inc exc| | | | | | |]; cbn [perform];
    try (intros [= <-] _; now cbn).
  - destruct e; cbn; try discriminate; intros [= <-] _; now cbn.
  - unfold remove_selected.
    destruct (remove_rows inc _ _) as [[i1 m1]|]; [|discriminate].
    destruct (remove_rows exc _ _) as [[i2 m2]|]; [|discriminate].
    intros [= <-] _. now cbn.
  - intros [= <-] _. apply run_backup_counters.
Qed.

Lemma perform_all_counters (E : env) (acts : list action) (mw mw' : MainWindow) :
  perform_all E acts mw = Some mw' ->
  Forall (fun a => counts a = false) acts ->
  progress mw' = progress mw /\ total_memory mw' = total_memory mw.
Proof.
  revert mw. induction acts as [|a acts IH]; intros mw; cbn [perform_all].
  - now intros [= <-].
  - destruct (perform E a mw) as [mw1|] eqn:Ha; [|discriminate].
    intros Hrest Hall. apply Forall_cons in Hall as [Hc Hall].
    destruct (perform_counters _ _ _ _ Ha Hc) as [<- <-]. now apply IH.
Qed.

Lemma update_progress_counters (E : env) (n : Z) (mw : MainWindow) :
  progress (window_after (update_progress E n mw)) = progress mw + n /\
  total_memory (window_after (update_progress E n mw)) = total_memory mw.
Proof. progress_cases; now cbn. Qed.

(** C10: [cleanup] empties the selection lists, the two list models, the
    input of excluded extensions, forgets the backup location, and puts the
    progress bar back to 0; it leaves [progress] and [total_memory] as
    they were.  No action on the window other than the progress and
    byte-count signals changes the two counters, which these signals only
    add to; so the next run, after any sequence of other actions, starts
    from the counts the previous one reached. *)
Theorem cleanup_keeps_counters :
  (forall mw,
     included_paths_list (cleanup mw) = [] /\
     excluded_paths_list (cleanup mw) = [] /\
     excluded_extensions_list (cleanup mw) = [] /\
     files_to_include_model (cleanup mw) = [] /\
     files_to_exclude_model (cleanup mw) = [] /\
     input_exclude_by (cleanup mw) = "" /\
     (0 <= maximum (progress_bar mw) -> value (progress_bar (cleanup mw)) = 0) /\
     progress (cleanup mw) = progress mw /\
     total_memory (cleanup mw) = total_memory mw) /\
  (forall E n mw,
     progress (window_after (update_progress E n mw)) = progress mw + n /\
     total_memory (window_after (update_progress E n mw)) = total_memory mw) /\
  (forall n mw,
     progress (update_memory_count n mw) = progress mw /\
     total_memory (update_memory_count n mw) = total_memory mw + n) /\
  (forall E acts mw mw',
     perform_all E acts mw = Some mw' ->
     Forall (fun a => counts a = false) acts ->
     progress mw' = progress mw /\ total_memory mw' = total_memory mw) /\
  (forall E acts n mw mw',
     perform_all E (acts ++ [ARunBackup]) (window_after (update_progress E n mw)) =
       Some mw' ->
     Forall (fun a => counts a = false) acts ->
     progress mw' = progress mw + n).
Proof.
  split; [|split; [|split; [|split]]].
  - intros mw. repeat split; try reflexivity. apply setValue_zero.
  - apply update_progress_counters.
  - intros n mw. now cbn.
  - apply perform_all_counters.
  - intros E acts n mw mw' Hrun Hall.
    apply perform_all_counters in Hrun as [-> _].
    + apply update_progress_counters.
    + apply Forall_app. split; [assumption|]. now repeat constructor.
Qed.

End Counters.

(** ** Two runs that do not end as the specification says *)

Section Runs.

(** C1, at a failing input: the selection is a directory whose entry
    "old" is an excluded directory with two files.  [count_total_files]
    counts the two files, the run emits one progress unit for "old", with
    no error and no cancellation; when the application has nothing left to
    do, [progress] is 1, the maximum of the bar is 2, and no backup log
    has been written. *)
Lemma excluded_directory_stalls_completion :
  count_total_files album_tree [["home"; "docs"]] = 2 /\
  exists sys,
    backup 10 album_env album_window empty_disk = Some sys /\
    signals sys = [] /\ threadpool (window sys) = [] /\
    count_events is_error (handled sys) = 0%nat /\
    Forall (fun w => is_killed w = false) (workers (window sys)) /\
    progress_total (handled sys) = 1 /\
    progress (window sys) = 1 /\
    maximum (progress_bar (window sys)) = 2 /\
    backup_logs (window sys) = [].
Proof.
  split; [reflexivity|].
  eexists. split; [vm_compute; reflexivity|].
  repeat split; try (vm_compute; reflexivity).
  vm_compute. repeat constructor.
Qed.

(** C8, at a failing input: the selection is one file and the backup
    location does not exist.  The first run writes the file at the path
    of the backup location itself; the second run, on the same selection
    and the disk the first one left, finds no file of that name in the
    backup, copies again and emits a byte count.  Neither run has an
    error, and each emits one progress unit. *)
Lemma missing_backup_directory_recopies :
  exists first second,
    backup 10 note_env note_window empty_disk = Some first /\
    backup 10 note_env note_window (disk first) = Some second /\
    count_events is_error (handled first) = 0%nat /\
    count_events is_error (handled second) = 0%nat /\
    progress_total (handled first) = 1 /\
    progress_total (handled second) = 1 /\
    dst_fs (disk first) = {[ ["backup"] := DFile 10 5 ]} /\
    copies (disk first) = [(["home"; "a.txt"], ["backup"])] /\
    copies (disk second) = [(["home"; "a.txt"], ["backup"]); (["home"; "a.txt"], ["backup"])] /\
    count_events is_memory_count (handled second) = 1%nat /\
    memory_total (handled second) = 10.
Proof.
  do 2 eexists. split; [vm_compute; reflexivity|].
  split; [vm_compute; reflexivity|].
  repeat split; vm_compute; reflexivity.
Qed.

End Runs.

(** ** A file in the run of its Task Unit *)

Section AtSite.

Variable E : env.
Variable w : BackupSelection.

(** a loop over two lists in a row *)
Lemma for_each_app {A} (body : nat -> A -> M unit) (l1 l2 : list A) (i : nat)
    (s : world) :
  for_each body i (l1 ++ l2) E s =
  (for_each body i l1 ;; for_each body (i + List.length l1) l2) E s.
Proof.
  revert i s. induction l1 as [|x l1 IH]; intros i s.
  - cbn [app for_each List.length]. rewrite Nat.add_0_r. unfold bind, ret.
    now destruct (for_each body i l2 E s) as [[r s'] evs].
  - cbn [app for_each List.length]. unfold bind.
    destruct (body i x E s) as [[[[]|e] s1] ev1]; [|reflexivity].
    rewrite IH. unfold bind. rewrite Nat.add_succ_r.
    destruct (for_each body (S i) l1 E s1) as [[[[]|e] s2] ev2]; [|reflexivity].
    destruct (for_each body _ l2 E s2) as [[r s3] ev3].
    now rewrite app_assoc.
Qed.

(** the loop, cut at the turn of the entry number [i] *)
Lemma for_each_at {A} (body : nat -> A -> M unit) (l : list A) (i : nat) (x : A)
    (s0 s_in s_out : world) (ev1 evs : list event) (r1 : result unit) :
  l !! i = Some x ->
  for_each body 0 (take i l) E s0 = (Ok tt, s_in, ev1) ->
  body i x E s_in = (r1, s_out, evs) ->
  exists r s' after,
    for_each body 0 l E s0 = (r, s', ev1 ++ evs ++ after) /\
    (forall e, r1 = Raise e -> r = Raise e /\ s' = s_out /\ after = []) /\
    (r1 = Ok tt -> for_each body (S i) (drop (S i) l) E s_out = (r, s', after)).
Proof.
  intros Hx Hbefore Hturn.
  assert (for_each body 0 l E s0 =
          for_each body 0 (take i l ++ x :: drop (S i) l) E s0) as ->
    by now rewrite take_drop_middle.
  rewrite for_each_app. unfold bind at 1. rewrite Hbefore.
  rewrite length_take_le by (apply lookup_lt_Some in Hx; lia).
  cbn [for_each Nat.add]. unfold bind at 1. rewrite Hturn.
  destruct r1 as [[]|e].
  - destruct (for_each body (S i) (drop (S i) l) E s_out) as [[r s'] after] eqn:Hrest.
    exists r, s', after. split; [reflexivity|]. split; [discriminate | reflexivity].
  - exists (Raise e), s_out, []. rewrite app_nil_r.
    split; [reflexivity|]. split; [|discriminate].
    intros e' [= <-]. auto.
Qed.

Lemma bind_assoc {A B C} (m : M A) (f : A -> M B) (g : B -> M C) (E' : env)
    (s : world) :
  bind (bind m f) g E' s = bind m (fun x => bind (f x) g) E' s.
Proof.
  unfold bind. destruct (m E' s) as [[[a|e] s1] ev1]; [|reflexivity].
  destruct (f a E' s1) as [[[b|e] s2] ev2]; [|reflexivity].
  destruct (g b E' s2) as [[r s3] ev3]. now rewrite app_assoc.
Qed.

Lemma bind_ext {A B} (m : M A) (f g : A -> M B) (E' : env) (s : world) :
  (forall a s', f a E' s' = g a E' s') -> bind m f E' s = bind m g E' s.
Proof.
  intros Hfg. unfold bind. destruct (m E' s) as [[[a|e] s1] ev1]; [|reflexivity].
  now rewrite Hfg.
Qed.

(** the branch of a directory is its mapping of the destination, then
    its loop *)
Lemma run_dir_loop_entry (s : world) :
  run_dir w E s =
  (mapped <- loop_entry w ;;
   match mapped with
   | None => ret tt
   | Some d =>
       names <- os_listdir (src w) ;;
       for_each (run_child w d) 0%nat names
   end) E s.
Proof.
  unfold run_dir, loop_entry. rewrite bind_assoc.
  apply bind_ext. intros have_dst s'. now rewrite bind_assoc.
Qed.

(** the [try] block of a unit that gets to a site *)
Lemma run_body_at_site (st : site) (s s_in s_out : world)
    (before evs : list event) (r1 : result unit) :
  arrives w E s st s_in before ->
  site_run w st E s_in = (r1, s_out, evs) ->
  exists r s' after,
    run_body w E s = (r, s', before ++ evs ++ after) /\
    (forall e, r1 = Raise e -> r = Raise e /\ s' = s_out /\ after = []).
Proof.
  destruct st as [d i name|]; cbn [arrives site_run].
  - intros (entries & s0 & ev0 & ev1 & Hdir & Hentry & Hlist & Hname & Hbefore & ->) Hturn.
    destruct (for_each_at (run_child w d) _ _ _ _ _ _ _ _ _ Hname Hbefore Hturn)
      as (r & s' & after & Hloop & Hraise & _).
    exists r, s', after. split; [|exact Hraise].
    unfold run_body. unfold bind at 1. unfold os_path_isdir at 1. rewrite Hdir. cbn [is_dir_node].
    rewrite run_dir_loop_entry. unfold bind at 1. rewrite Hentry.
    unfold os_listdir, bind, fault. rewrite Hlist, Hdir, Hloop.
    cbn [app]. now rewrite <- app_assoc.
  - intros ((size & mtime & Hfile) & -> & ->) Hturn.
    exists r1, s_out, []. split.
    + unfold run_body, bind, os_path_isdir, os_path_isfile. cbn beta.
      rewrite Hfile. cbn [is_dir_node]. rewrite Hfile. cbn [is_file_node]. rewrite Hturn.
      cbn [app]. now rewrite app_nil_r.
    + auto.
Qed.

(** the signals of a site are in the trace of its unit, after those of
    the turns before; an exception that leaves the site goes to the
    handlers of [run] *)
Lemma run_at_site (st : site) (s s_in s_out : world)
    (before evs : list event) (r1 : result unit) :
  arrives w E s st s_in before ->
  site_run w st E s_in = (r1, s_out, evs) ->
  (exists after s', run w E s = (Ok tt, s', before ++ evs ++ after)) /\
  (forall e, r1 = Raise e ->
     run w E s =
       (Ok tt, s_out, before ++ evs ++ handler_signals w (Raise e) ++ [Finished])).
Proof.
  intros Harr Hturn.
  destruct (run_body_at_site _ _ _ _ _ _ _ Harr Hturn) as (r & s' & after & Hbody & Hraise).
  destruct (run_unfold E w s) as (r0 & s0 & evs0 & Hbody0 & Hrun).
  rewrite Hbody in Hbody0. injection Hbody0 as <- <- <-.
  split.
  - exists (after ++ handler_signals w r ++ [Finished]), s'.
    rewrite Hrun. now rewrite <- !app_assoc.
  - intros e ->. destruct (Hraise e eq_refl) as (-> & -> & ->).
    rewrite Hrun. now rewrite app_nil_r, <- !app_assoc.
Qed.

(** a selected file is the whole [try] block *)
Lemma run_body_file (size mtime : Z) (s : world) :
  lookup_path (src_fs E) (src w) = Some (File size mtime) ->
  run_body w E s = run_file w E s.
Proof.
  intros Hfile. unfold run_body, bind, os_path_isdir, os_path_isfile. cbn beta.
  rewrite Hfile. cbn [is_dir_node]. rewrite Hfile. cbn [is_file_node].
  destruct (run_file w E s) as [[r s'] evs]. reflexivity.
Qed.

(** a selection that is neither a directory nor a file is left alone *)
Lemma run_body_other (s : world) :
  (forall entries, lookup_path (src_fs E) (src w) <> Some (Dir entries)) ->
  (forall size mtime, lookup_path (src_fs E) (src w) <> Some (File size mtime)) ->
  run_body w E s = (Ok tt, s, []).
Proof.
  intros Hdir Hfile. unfold run_body, bind, os_path_isdir, os_path_isfile. cbn beta.
  destruct (lookup_path (src_fs E) (src w)) as [[size mtime| |entries]|] eqn:Hsrc.
  - now destruct (Hfile size mtime).
  - cbn [is_dir_node]. now rewrite Hsrc.
  - now destruct (Hdir entries).
  - now rewrite Hsrc.
Qed.

(** the turn of a name with an excluded extension does not touch the
    world and emits no byte count *)
Lemma site_run_excluded_quiet (st : site) :
  existsb (endswith (site_name w st)) (ignore_extensions w) = true ->
  respects (fun s s' evs => s' = s /\ Forall (quiet w) evs) E (site_run w st).
Proof.
  intros Hext.
  set (R := fun (s s' : world) (evs : list event) => s' = s /\ Forall (quiet w) evs).
  assert (forall s, R s s []) as R_refl by (intros; now split).
  assert (forall s1 s2 s3 ev1 ev2, R s1 s2 ev1 -> R s2 s3 ev2 -> R s1 s3 (ev1 ++ ev2))
    as R_trans.
  { intros s1 s2 s3 ev1 ev2 [-> H1] [-> H2]. split; [reflexivity | now apply Forall_app]. }
  assert (forall e, quiet w e -> respects R E (emit e)) as Hemit.
  { intros e He s r s' evs [= <- <- <-]. split; [reflexivity | now constructor]. }
  pose proof (@respects_bind R E R_trans) as Bind.
  pose proof (@respects_ret R E R_refl) as Ret.
  pose proof (@respects_raise R E R_refl) as Rai.
  pose proof (@respects_if R E) as If.
  destruct st as [d i name|]; cbn [site_run site_name] in *.
  - unfold run_child. rewrite Hext.
    apply Bind; [now apply respects_read_is_killed|]. intros killed.
    apply If; [apply Rai|].
    apply If.
    { apply Bind; [now apply Hemit|]. intros _. now apply Hemit. }
    apply Bind; [now apply respects_isdir|]. intros is_dir.
    apply If.
    { apply Hemit. split; [|reflexivity]. cbn. eauto 10. }
    apply Bind; [now apply respects_isfile|]. intros is_file.
    apply If; [|apply Ret].
    apply Bind; [now apply Hemit|]. intros _. now apply Hemit.
  - unfold run_file. rewrite Hext.
    apply Bind; [now apply Hemit|]. intros _. now apply Hemit.
Qed.

(** the calls of [shutil.copy2] between two worlds are of files whose
    names have none of the excluded extensions of [w] *)
Lemma calls_refl (s : world) : copies_unexcluded w s s [].
Proof. exists []. now rewrite app_nil_r. Qed.

Lemma calls_trans (s1 s2 s3 : world) (ev1 ev2 : list event) :
  copies_unexcluded w s1 s2 ev1 -> copies_unexcluded w s2 s3 ev2 ->
  copies_unexcluded w s1 s3 (ev1 ++ ev2).
Proof.
  intros (l1 & H1 & F1) (l2 & H2 & F2). exists (l1 ++ l2).
  rewrite H2, H1, <- app_assoc. split; [reflexivity | now apply Forall_app].
Qed.

Lemma calls_same (s s' : world) (evs : list event) :
  copies s' = copies s -> copies_unexcluded w s s' evs.
Proof. intros H. exists []. now rewrite app_nil_r. Qed.

Lemma path_name_join (p : path) (name : string) :
  name <> "" -> path_name (path_join p name) = name.
Proof.
  intros Hne. unfold path_join, path_name. rewrite decide_False by exact Hne.
  apply last_last.
Qed.

(** a site copies a file only when its name has no excluded extension *)
Lemma site_run_calls (st : site) :
  match st with
  | Child _ _ _ => exists entries, lookup_path (src_fs E) (src w) = Some (Dir entries)
  | Selected => True
  end ->
  respects (copies_unexcluded w) E (site_run w st).
Proof.
  intros Hst.
  assert (forall e, respects (copies_unexcluded w) E (emit e)) as Hemit.
  { intros e s r s' evs [= <- <- <-]. apply calls_refl. }
  destruct (existsb (endswith (site_name w st)) (ignore_extensions w)) eqn:Hext.
  { intros s r s' evs Hrun.
    apply (site_run_excluded_quiet st Hext) in Hrun as [-> _]. apply calls_refl. }
  destruct st as [d i name|]; cbn [site_name] in Hext.
  - destruct Hst as [entries Hdir].
    destruct (decide (name = "")) as [->|Hne].
    + (* the directory itself: a worker is asked for *)
      intros s r s' evs. cbn [site_run]. mstep_to_copy.
      unfold path_join at 1 2 3 4 5. rewrite !decide_True by reflexivity.
      destruct (killed_at w E i); mstep_to_copy;
        [intros [= <- <- <-]; apply calls_refl|].
      destruct (path_in _ _); mstep_to_copy;
        [intros [= <- <- <-]; apply calls_refl|].
      rewrite Hdir. mstep_to_copy. intros [= <- <- <-]. apply calls_refl.
    + apply (site_run_respects_at _ E (calls_refl) (calls_trans)).
      * intros e _. apply Hemit.
      * intros s r s' evs Hrun. apply shutil_copy2_result in Hrun as (_ & Hlog & _).
        exists [(site_source w (Child d i name), site_target w (Child d i name))].
        split; [exact Hlog|]. constructor; [|constructor].
        cbn [fst site_source]. now rewrite path_name_join.
  - apply (site_run_respects_at _ E (calls_refl) (calls_trans)).
    + intros e _. apply Hemit.
    + intros s r s' evs Hrun. apply shutil_copy2_result in Hrun as (_ & Hlog & _).
      exists [(site_source w Selected, site_target w Selected)].
      split; [exact Hlog|]. now repeat constructor.
Qed.

(** a Task Unit copies no file whose name has an excluded extension *)
Lemma run_calls : respects (copies_unexcluded w) E (run w).
Proof.
  apply (run_respects_at _ E); [|intros s s' evs r H; exact H].
  destruct (lookup_path (src_fs E) (src w)) as [[size mtime| |entries]|] eqn:Hsrc.
  - intros s r s' evs. rewrite (run_body_file size mtime s Hsrc).
    apply (site_run_calls Selected I).
  - intros s r s' evs. rewrite run_body_other by (intros; congruence).
    intros [= <- <- <-]. apply calls_refl.
  - apply (run_body_respects_at _ E calls_refl calls_trans).
    + intros i name. apply (site_run_calls (Child (mapped_dst w) i name)). eauto.
    + apply (site_run_calls Selected I).
    + intros s r s' evs Hrun. apply os_makedirs_result in Hrun as [_ Hc].
      now apply calls_same.
    + intros s r s' evs Hrun. apply os_makedirs_result in Hrun as [_ Hc].
      now apply calls_same.
    + intros e s r s' evs [= <- <- <-]. apply calls_refl.
  - intros s r s' evs. rewrite run_body_other by (intros; congruence).
    intros [= <- <- <-]. apply calls_refl.
Qed.

End AtSite.

(** ** The files of a Task Unit *)

Section Files.

Variable E : env.
Variable w : BackupSelection.

(** the name tested at a site that holds a file is the name of the file *)
Lemma site_name_source (st : site) (s s_in : world) (before : list event)
    (size mtime : Z) :
  arrives w E s st s_in before ->
  lookup_path (src_fs E) (site_source w st) = Some (File size mtime) ->
  path_name (site_source w st) = site_name w st.
Proof.
  destruct st as [d i name|]; cbn [arrives site_source site_name]; [|reflexivity].
  intros (entries & s0 & ev0 & ev1 & Hdir & _) Hfile.
  apply path_name_join. intros ->.
  unfold path_join in Hfile. rewrite decide_True in Hfile by reflexivity. congruence.
Qed.

(** C5: a file whose name ends with an excluded extension is never
    copied, and exactly one progress unit is emitted for it, as an entry
    met during the traversal of a directory and as the selected file.
    When [run] gets to the file, the signals of the file, which come in
    the trace of [run] after the signals emitted before, hold one
    progress unit of 1, no byte count and no error, and the turn leaves
    the backup and the log of copies as they were; and among all the
    calls of [shutil.copy2] that [run] makes, none is a copy of the
    file. *)
Theorem excluded_extension_never_copied (st : site) (size mtime : Z)
    (s s_in : world) (before : list event) :
  arrives w E s st s_in before ->
  reached w E st size mtime ->
  existsb (endswith (site_name w st)) (ignore_extensions w) = true ->
  exists evs after s' calls,
    run w E s = (Ok tt, s', before ++ evs ++ after) /\
    site_run w st E s_in = (Ok tt, s_in, evs) /\
    tally evs = (0, 1, 0)%nat /\
    progress_total evs = 1 /\
    copies s' = copies s ++ calls /\
    forall target, (site_source w st, target) ∉ calls.
Proof.
  intros Harr Hreached Hext.
  destruct (site_run_excluded E w st size mtime s_in Hreached Hext)
    as (evs & Hturn & Htally & Htotal).
  destruct (run_at_site E w _ _ _ _ _ _ _ Harr Hturn) as [(after & s' & Hrun) _].
  destruct (run_calls E w _ _ _ _ Hrun) as (calls & Hcalls & Hall).
  exists evs, after, s', calls. repeat (split; [assumption|]).
  intros target Hin. rewrite Forall_forall in Hall. apply Hall in Hin.
  cbn [fst] in Hin. destruct Hreached as [Hfile _].
  rewrite (site_name_source _ _ _ _ _ _ Harr Hfile) in Hin. congruence.
Qed.

(** C4: when [run] gets to a file that goes to its copy, the signals of
    the file in the trace of [run] follow the result [r] of the copy.
    When the backup has no such file, a failed copy gives a structured
    error and no progress unit; when it has an older one, a failed
    overwrite gives a structured error and still the progress unit; in
    both branches a byte count is emitted only when the copy
    succeeded. *)
Theorem copy_failure_signals (st : site) (size mtime : Z) (s s_in s1 : world)
    (before : list event) (r : result unit) :
  arrives w E s st s_in before ->
  decided w E st size mtime ->
  shutil_copy2 (site_source w st) (site_target w st) E s_in = (r, s1, []) ->
  (dst_isfile (dst_fs s_in) (site_dest w st) = false ->
   (exists after s',
      run w E s = (Ok tt, s', before ++ new_file_signals w st size r ++ after)) /\
   tally (new_file_signals w st size r) =
     match r with Ok _ => (0, 1, 1) | Raise _ => (1, 0, 0) end%nat) /\
  (forall dsize dmtime,
     dst_isfile (dst_fs s_in) (site_dest w st) = true ->
     dst_fs s_in !! site_dest w st = Some (DFile dsize dmtime) ->
     faults E (OpGetmtimeSrc (site_source w st)) = false ->
     faults E (OpGetmtimeDst (site_dest w st)) = false ->
     mtime > dmtime ->
     (exists after s',
        run w E s = (Ok tt, s', before ++ overwrite_signals w st size r ++ after)) /\
     tally (overwrite_signals w st size r) =
       match r with Ok _ => (0, 1, 1) | Raise _ => (1, 1, 0) end%nat).
Proof.
  intros Harr Hdecided Hcopy.
  destruct (site_run_copy_signals E w st size mtime s_in s1 r Hdecided Hcopy)
    as [Hnew Hover].
  split.
  - intros Habsent. destruct (Hnew Habsent) as [Hturn Htally].
    split; [|exact Htally].
    now destruct (run_at_site E w _ _ _ _ _ _ _ Harr Hturn) as [Hrun _].
  - intros dsize dmtime Hpresent Hdst Hms Hmd Hnewer.
    destruct (Hover dsize dmtime Hpresent Hdst Hms Hmd Hnewer) as [Hturn Htally].
    split; [|exact Htally].
    now destruct (run_at_site E w _ _ _ _ _ _ _ Harr Hturn) as [Hrun _].
Qed.


End Files.


Section TaskUnitFaults.

Variable E : env.
Variable w : BackupSelection.




End TaskUnitFaults.

Section EveryFile.

Variable E : env.
Variable w : BackupSelection.
Hypothesis empty_listed : "" ∈ ignore_extensions w.

(** C9: a list of excluded extensions that holds the empty string, as
    splitting a text that ends with a comma gives, excludes every file.
    Each file [run] gets to contributes to the trace of [run] exactly one
    progress unit and one status, and no byte count, and leaves the
    backup as it was; the whole unit issues no copy and emits no byte
    count; and the units it spawns have the same list. *)
Theorem empty_extension_ignores_every_file :
  (forall text, "" ∈ split "," (text +:+ ",")) /\
  (forall st size mtime s s_in before,
     arrives w E s st s_in before ->
     reached w E st size mtime ->
     exists evs after s',
       run w E s = (Ok tt, s', before ++ evs ++ after) /\
       site_run w st E s_in = (Ok tt, s_in, evs) /\
       tally evs = (0, 1, 0)%nat /\
       progress_total evs = 1 /\
       count_events is_status evs = 1%nat) /\
  (forall s,
     exists s' evs,
       run w E s = (Ok tt, s', evs) /\
       copies s' = copies s /\
       count_events is_memory_count evs = 0%nat /\
       forall w', NewThread w' ∈ evs -> "" ∈ ignore_extensions w').
Proof.
  split; [apply split_trailing_empty|]. split.
  - intros st size mtime s s_in before Harr [Hfile Hk].
    pose proof (existsb_empty_suffix (site_name w st) _ empty_listed) as Hext.
    assert (exists evs,
              site_run w st E s_in = (Ok tt, s_in, evs) /\
              tally evs = (0, 1, 0)%nat /\
              progress_total evs = 1 /\
              count_events is_status evs = 1%nat)
      as (evs & Hturn & Htally & Htotal & Hstatus).
    { clear Harr. destruct st as [d i name|]; unfold_site.
      - mstep. rewrite Hk. destruct (path_in _ _); mstep; [eauto 10|].
        repeat (progress (rewrite ?Hfile, ?Hext); mstep). eauto 10.
      - unfold run_file. rewrite Hext. mstep. eauto 10. }
    destruct (run_at_site E w _ _ _ _ _ _ _ Harr Hturn) as [(after & s' & Hrun) _].
    exists evs, after, s'. auto 10.
  - intros s. destruct (run_unfold E w s) as (r & s' & evs & Hbody & Hrun).
    apply (run_body_empty_extension E w empty_listed) in Hbody as [Hcopies Hquiet].
    exists s', (evs ++ handler_signals w r ++ [Finished]).
    split; [exact Hrun|]. split; [exact Hcopies|]. split.
    + rewrite !count_events_app. rewrite (count_events_none _ evs).
      * destruct r as [|[|]]; reflexivity.
      * eapply Forall_impl; [exact Hquiet|]. now intros e [_ He].
    + intros w' Hin. apply elem_of_app in Hin as [Hin|Hin].
      * rewrite Forall_forall in Hquiet. apply Hquiet in Hin as [Hem _].
        cbn in Hem. destruct Hem as (_ & -> & _). exact empty_listed.
      * exfalso. destruct r as [|[|]]; cbn in Hin;
          repeat (apply elem_of_cons in Hin as [Hin|Hin]; [discriminate|]);
          now apply elem_of_nil in Hin.
Qed.

End EveryFile.

(** ** Trees *)

Section Trees.

(** induction on a tree, with the property for the entries of a
    directory *)
Lemma node_induction (P : node -> Prop) :
  (forall size mtime, P (File size mtime)) ->
  P Other ->
  (forall entries, Forall (fun entry => P entry.2) entries -> P (Dir entries)) ->
  forall t, P t.
Proof.
  intros Hfile Hother Hdir. fix IH 1. intros [size mtime| |entries].
  - apply Hfile.
  - apply Hother.
  - apply Hdir. induction entries as [|[name c] entries IHentries];
      constructor; [apply IH | exact IHentries].
Qed.

Lemma well_formed_dir (entries : list (string * node)) :
  well_formed (Dir entries) = true <->
  NoDup (map fst entries) /\
  Forall (fun entry => entry.1 <> "" /\ well_formed entry.2 = true) entries.
Proof.
  cbn [well_formed]. rewrite andb_true_iff, bool_decide_eq_true.
  apply and_iff_compat_l.
  induction entries as [|[name c] entries IH].
  - split; [constructor | reflexivity].
  - rewrite !andb_true_iff, negb_true_iff, bool_decide_eq_false, IH, Forall_cons.
    cbn. tauto.
Qed.

Lemma regular_dir (entries : list (string * node)) :
  regular (Dir entries) = true <->
  Forall (fun entry => regular entry.2 = true) entries.
Proof.
  cbn [regular]. induction entries as [|[name c] entries IH].
  - split; [constructor | reflexivity].
  - rewrite andb_true_iff, IH, Forall_cons. cbn. tauto.
Qed.

Lemma expected_progress_dir (excluded : list path) (p : path)
    (entries : list (string * node)) :
  expected_progress excluded p (Dir entries) =
  sum_list (map (entry_progress excluded p) entries).
Proof.
  cbn [expected_progress]. induction entries as [|[name c] entries IH];
    [reflexivity|].
  cbn [map sum_list foldr]. unfold sum_list in IH. rewrite <- IH. reflexivity.
Qed.

Lemma walk_count_dir (entries : list (string * node)) :
  walk_count (Dir entries) =
  sum_list (map (fun entry => if is_dir_node entry.2 then walk_count entry.2 else 1)
              entries).
Proof.
  cbn [walk_count]. induction entries as [|[name c] entries IH]; [reflexivity|].
  cbn [map sum_list foldr]. unfold sum_list in IH. rewrite <- IH. reflexivity.
Qed.

Lemma assoc_elem_of (name : string) (c : node) (entries : list (string * node)) :
  NoDup (map fst entries) -> (name, c) ∈ entries -> assoc name entries = Some c.
Proof.
  induction entries as [|[n c0] entries IH]; intros Hnd Hin.
  - now apply elem_of_nil in Hin.
  - cbn [map fst] in Hnd. apply NoDup_cons in Hnd as [Hfresh Hnd].
    cbn [assoc]. apply elem_of_cons in Hin as [[= -> ->]|Hin].
    + now rewrite decide_True.
    + rewrite decide_False; [now apply IH|].
      intros ->. apply Hfresh. apply list_elem_of_fmap. now exists (name, c).
Qed.

Lemma lookup_path_app (t : node) (p q : path) :
  lookup_path t (p ++ q) =
  match lookup_path t p with
  | Some t' => lookup_path t' q
  | None => None
  end.
Proof.
  revert t. induction p as [|name p IH]; intros t; [reflexivity|].
  cbn [app lookup_path]. destruct t as [| |entries]; try reflexivity.
  destruct (assoc name entries); [apply IH | reflexivity].
Qed.

(** an entry of a directory is what the lookup of its path finds *)
Lemma lookup_path_entry (fs : node) (p : path) (entries : list (string * node))
    (name : string) (c : node) :
  lookup_path fs p = Some (Dir entries) ->
  NoDup (map fst entries) -> (name, c) ∈ entries ->
  lookup_path fs (p ++ [name]) = Some c.
Proof.
  intros Hp Hnd Hin. rewrite lookup_path_app, Hp. cbn [lookup_path].
  now rewrite (assoc_elem_of _ _ _ Hnd Hin).
Qed.

Lemma assoc_Some (name : string) (c : node) (entries : list (string * node)) :
  assoc name entries = Some c -> (name, c) ∈ entries.
Proof.
  induction entries as [|[n c0] entries IH]; [discriminate|].
  cbn [assoc]. destruct (decide (n = name)) as [->|].
  - intros [= ->]. left.
  - intros H. right. now apply IH.
Qed.

(** the trees below a well-formed tree are well formed *)
Lemma well_formed_lookup (fs : node) (p : path) (t : node) :
  well_formed fs = true -> lookup_path fs p = Some t -> well_formed t = true.
Proof.
  revert fs. induction p as [|name p IH]; intros fs Hwf; cbn [lookup_path].
  - now intros [= <-].
  - destruct fs as [| |entries]; try discriminate.
    destruct (assoc name entries) as [c|] eqn:Hc; [|discriminate].
    apply IH. apply well_formed_dir in Hwf as [_ Hall].
    rewrite Forall_forall in Hall. apply assoc_Some in Hc.
    now destruct (Hall _ Hc).
Qed.

Lemma path_join_app (p : path) (name : string) :
  name <> "" -> path_join p name = p ++ [name].
Proof. intros Hne. unfold path_join. now rewrite decide_False. Qed.

Lemma sum_list_cons (x : Z) (l : list Z) : sum_list (x :: l) = x + sum_list l.
Proof. reflexivity. Qed.

Lemma sum_list_app (l1 l2 : list Z) :
  sum_list (l1 ++ l2) = sum_list l1 + sum_list l2.
Proof.
  unfold sum_list. induction l1 as [|x l1 IH]; cbn; [reflexivity | rewrite IH; lia].
Qed.

Lemma progress_total_app (l1 l2 : list event) :
  progress_total (l1 ++ l2) = progress_total l1 + progress_total l2.
Proof.
  unfold progress_total. induction l1 as [|x l1 IH]; cbn; [reflexivity | rewrite IH; lia].
Qed.

Lemma spawned_app (l1 l2 : list event) :
  spawned (l1 ++ l2) = spawned l1 ++ spawned l2.
Proof. apply omap_app. Qed.

End Trees.

(** ** The progress units of a Task Unit *)

Arguments expected_progress : simpl never.

Section UnitProgress.

Variable E : env.
Variable w : BackupSelection.

(** the share of an entry: when the turn of the loop returns without an
    error signal, its progress units and those expected of the worker it
    asks for add up to the share of the entry; and an unkilled turn never
    raises the cancellation *)
Lemma run_child_progress (d : path) (i : nat) (name : string) (c : node)
    (s s' : world) (r : result unit) (evs : list event) :
  killed_at w E i = false ->
  name <> "" ->
  lookup_path (src_fs E) (src w ++ [name]) = Some c ->
  run_child w d i name E s = (r, s', evs) ->
  Forall (fun e => is_error e = false) evs ->
  match r with
  | Ok _ =>
      progress_total evs + sum_list (map (expected_of (src_fs E)) (spawned evs)) =
        entry_progress (ignore_files w) (src w) (name, c) /\
      Forall (fun w' => ignore_files w' = ignore_files w /\ is_killed w' = false)
        (spawned evs)
  | Raise e => e <> WorkerKilledException
  end.
Proof.
  intros Hk Hne Hc. unfold entry_progress. cbn [fst snd].
  mstep_to_copy. rewrite Hk. rewrite !(path_join_app _ _ Hne).
  destruct (path_in (src w ++ [name]) (ignore_files w)); mstep_to_copy.
  { intros Hrun _; simplify_eq. split; [reflexivity | constructor]. }
  destruct c as [size mtime| |entries];
    repeat (progress (rewrite ?Hc); mstep_to_copy).
  - (* a file *)
    destruct (existsb _ _); mstep_to_copy.
    { intros Hrun _; simplify_eq. split; [reflexivity | constructor]. }
    destruct (faults E (OpGetsize _)); mstep_to_copy;
      [intros Hrun _; now simplify_eq|].
    rewrite Hc. mstep_to_copy.
    destruct (dst_isfile _ _) eqn:Hex; mstep_to_copy.
    + destruct (faults E (OpGetmtimeSrc _)); mstep_to_copy;
        [intros Hrun _; now simplify_eq|].
      rewrite Hc. mstep_to_copy.
      destruct (faults E (OpGetmtimeDst _)); mstep_to_copy;
        [intros Hrun _; now simplify_eq|].
      destruct (d ++ [name]) as [|n0 p0] eqn:Hd; [discriminate|].
      destruct (dst_fs s !! (n0 :: p0)) as [[dsize dmtime|]|]; mstep_to_copy;
        try (intros Hrun _; now simplify_eq).
      case_bool_decide; mstep_to_copy.
      * destruct (shutil_copy2 _ _ E s) as [[rc sc] ec] eqn:Hcopy.
        apply shutil_copy2_result in Hcopy as (-> & _ & [->|[-> _]]);
          intros Hrun _; simplify_eq; (split; [reflexivity | constructor]).
      * intros Hrun _; simplify_eq. split; [reflexivity | constructor].
    + destruct (shutil_copy2 _ _ E s) as [[rc sc] ec] eqn:Hcopy.
      apply shutil_copy2_result in Hcopy as (-> & _ & [->|[-> _]]);
        intros Hrun Herr; simplify_eq.
      * split; [reflexivity | constructor].
      * exfalso. apply Forall_cons in Herr as [_ Herr].
        apply Forall_cons in Herr as [Herr _]. discriminate.
  - (* neither a file nor a directory *)
    intros Hrun _; simplify_eq. split; [reflexivity | constructor].
  - (* a directory *)
    intros Hrun _; simplify_eq. cbn. unfold expected_of. cbn [src ignore_files].
    rewrite Hc. split; [lia|]. repeat constructor.
Qed.

(** the same for the whole loop *)
Lemma for_each_progress (d : path) (entries : list (string * node)) :
  (forall j, killed_at w E j = false) ->
  Forall (fun entry =>
            entry.1 <> "" /\
            lookup_path (src_fs E) (src w ++ [entry.1]) = Some entry.2) entries ->
  forall i s s' r evs,
    for_each (run_child w d) i (map fst entries) E s = (r, s', evs) ->
    Forall (fun e => is_error e = false) evs ->
    match r with
    | Ok _ =>
        progress_total evs + sum_list (map (expected_of (src_fs E)) (spawned evs)) =
          sum_list (map (entry_progress (ignore_files w) (src w)) entries) /\
        Forall (fun w' => ignore_files w' = ignore_files w /\ is_killed w' = false)
          (spawned evs)
    | Raise e => e <> WorkerKilledException
    end.
Proof.
  intros Hk. induction 1 as [|[name c] entries [Hne Hc] _ IH];
    intros i s s' r evs; cbn [map fst for_each].
  - intros Hrun _. unfold ret in Hrun. simplify_eq. split; [reflexivity | constructor].
  - unfold bind.
    destruct (run_child w d i name E s) as [[r1 s1] ev1] eqn:H1.
    pose proof (run_child_progress d i name c s s1 r1 ev1 (Hk i) Hne Hc H1) as Hentry.
    destruct r1 as [[]|e1].
    + destruct (for_each _ _ _ E s1) as [[r2 s2] ev2] eqn:H2.
      intros Hrun Herr. simplify_eq. apply Forall_app in Herr as [Herr1 Herr2].
      specialize (Hentry Herr1). specialize (IH _ _ _ _ _ H2 Herr2).
      destruct r; [|exact IH].
      destruct Hentry as [Hsum1 Hgood1], IH as [Hsum2 Hgood2].
      rewrite progress_total_app, spawned_app, map_app, sum_list_app.
      cbn [map sum_list foldr]. unfold sum_list in *.
      split; [lia | now apply Forall_app].
    + intros Hrun Herr. simplify_eq. now apply Hentry.
Qed.

Lemma os_makedirs_cases (p : path) (s : world) :
  (exists s1, os_makedirs p E s = (Ok tt, s1, [])) \/
  os_makedirs p E s = (Raise (OSError (OpMakedirs p)), s, []).
Proof.
  mstep. destruct (faults E _); mstep; [now right|].
  destruct (blocked_by_file _ _); eauto.
Qed.

(** the branch of a directory *)
Lemma run_dir_progress (entries : list (string * node)) (s s' : world)
    (r : result unit) (evs : list event) :
  (forall j, killed_at w E j = false) ->
  lookup_path (src_fs E) (src w) = Some (Dir entries) ->
  well_formed (Dir entries) = true ->
  run_dir w E s = (r, s', evs) ->
  Forall (fun e => is_error e = false) evs ->
  match r with
  | Ok _ =>
      progress_total evs + sum_list (map (expected_of (src_fs E)) (spawned evs)) =
        expected_progress (ignore_files w) (src w) (Dir entries) /\
      Forall (fun w' => ignore_files w' = ignore_files w /\ is_killed w' = false)
        (spawned evs)
  | Raise e => e <> WorkerKilledException
  end.
Proof.
  intros Hk Hdir Hwf. apply well_formed_dir in Hwf as [Hnd Hall].
  assert (Forall (fun entry =>
                    entry.1 <> "" /\
                    lookup_path (src_fs E) (src w ++ [entry.1]) = Some entry.2) entries)
    as Hentries.
  { rewrite Forall_forall in Hall |- *. intros [name c] Hin.
    split; [now apply (Hall _ Hin)|]. now apply (lookup_path_entry _ _ entries). }
  assert (forall d s0 r0 s0' evs0,
            (names <- os_listdir (src w) ;; for_each (run_child w d) 0%nat names) E s0 =
              (r0, s0', evs0) ->
            Forall (fun e => is_error e = false) evs0 ->
            match r0 with
            | Ok _ =>
                progress_total evs0 +
                sum_list (map (expected_of (src_fs E)) (spawned evs0)) =
                  expected_progress (ignore_files w) (src w) (Dir entries) /\
                Forall (fun w' => ignore_files w' = ignore_files w /\ is_killed w' = false)
                  (spawned evs0)
            | Raise e => e <> WorkerKilledException
            end) as Hloop.
  { intros d s0 r0 s0' evs0. unfold os_listdir, bind, fault.
    destruct (faults E _); [intros Hrun _; now simplify_eq|].
    rewrite Hdir.
    destruct (for_each _ _ _ E s0) as [[r1 s1] ev1] eqn:Hfor.
    intros Hrun Herr. simplify_eq. cbn [app] in Herr.
    rewrite expected_progress_dir.
    apply (for_each_progress d entries Hk Hentries _ _ _ _ _ Hfor Herr). }
  intros Hrun Herr. unfold run_dir in Hrun.
  apply bind_inv in Hrun as [(have_dst & s0 & ev0 & evs1 & H0 & Hrun & ->)|(e & H0 & _)];
    [|discriminate].
  unfold os_path_isdir_dst in H0. injection H0 as <- <- <-. cbn [app] in Herr |- *.
  apply bind_inv in Hrun as [([] & s1 & ev1 & evs2 & H1 & Hrun & ->)|(e & H1 & ->)].
  2:{ destruct (dst_isdir _ _); [discriminate|].
      destruct (os_makedirs_cases (dst w) s) as [[s1 Hmk]|Hmk];
        rewrite Hmk in H1; now simplify_eq. }
  assert (ev1 = []) as ->.
  { destruct (dst_isdir _ _); [now injection H1|].
    now apply os_makedirs_result in H1 as [-> _]. }
  cbn [app] in Herr |- *.
  apply bind_inv in Hrun as [(mapped & s2 & ev2 & evs3 & H2 & Hrun & ->)|(e & H2 & ->)].
  - apply Forall_app in Herr as [Herr2 Herr3].
    assert (exists d, mapped = Some d /\ ev2 = []) as (d & -> & ->).
    { destruct (root w); [|injection H2 as <- <- <-; eauto].
      apply try_inv in H2
        as [(s3 & e1 & e2 & Hmk & Hret & ->)|[(op & s3 & e1 & e2 & Hmk & Hh & ->)|[Hmk _]]].
      - apply os_makedirs_result in Hmk as [-> _].
        injection Hret as <- <- <-. eauto.
      - exfalso. apply os_makedirs_result in Hmk as [-> _].
        apply bind_inv in Hh as [(u & s4 & e3 & e4 & Hem & _ & ->)|(e & Hem & _)];
          [|discriminate].
        injection Hem as <- <- <-. cbn [app] in Herr2.
        apply Forall_cons in Herr2 as [Herr2 _]. discriminate.
      - exfalso.
        destruct (os_makedirs_cases (path_join (dst w) (path_name (src w))) s1)
          as [[s3 Hmk']|Hmk']; rewrite Hmk' in Hmk; discriminate. }
    cbn [app]. apply (Hloop _ _ _ _ _ Hrun Herr3).
  - destruct (root w); [|discriminate].
    apply try_inv in H2
      as [(s3 & e1 & e2 & Hmk & Hret & ->)|[(op & s3 & e1 & e2 & Hmk & Hh & ->)|[Hmk _]]].
    + discriminate.
    + apply bind_inv in Hh as [(u & s4 & e3 & e4 & Hem & Hret & ->)|(e0 & Hem & _)];
        discriminate.
    + destruct (os_makedirs_cases (path_join (dst w) (path_name (src w))) s1)
        as [[s3 Hmk']|Hmk']; rewrite Hmk' in Hmk; discriminate.
Qed.

(** the branch of a selected file *)
Lemma run_file_progress (size mtime : Z) (s s' : world) (r : result unit)
    (evs : list event) :
  lookup_path (src_fs E) (src w) = Some (File size mtime) ->
  run_file w E s = (r, s', evs) ->
  Forall (fun e => is_error e = false) evs ->
  match r with
  | Ok _ => progress_total evs = 1 /\ spawned evs = []
  | Raise e => e <> WorkerKilledException
  end.
Proof.
  intros Hc. unfold run_file.
  destruct (existsb _ _); mstep_to_copy.
  { intros Hrun _; simplify_eq. split; reflexivity. }
  destruct (faults E (OpGetsize _)); mstep_to_copy;
    [intros Hrun _; now simplify_eq|].
  rewrite Hc. mstep_to_copy.
  destruct (dst_isfile _ _) eqn:Hex; mstep_to_copy.
  - destruct (faults E (OpGetmtimeSrc _)); mstep_to_copy;
      [intros Hrun _; now simplify_eq|].
    rewrite Hc. mstep_to_copy.
    destruct (faults E (OpGetmtimeDst _)); mstep_to_copy;
      [intros Hrun _; now simplify_eq|].
    destruct (path_join (dst w) (path_name (src w))) as [|n0 p0] eqn:Hd;
      [discriminate|].
    destruct (dst_fs s !! (n0 :: p0)) as [[dsize dmtime|]|]; mstep_to_copy;
      try (intros Hrun _; now simplify_eq).
    case_bool_decide; mstep_to_copy.
    + destruct (shutil_copy2 _ _ E s) as [[rc sc] ec] eqn:Hcopy.
      apply shutil_copy2_result in Hcopy as (-> & _ & [->|[-> _]]);
        intros Hrun _; simplify_eq; split; reflexivity.
    + intros Hrun _; simplify_eq. split; reflexivity.
  - destruct (shutil_copy2 _ _ E s) as [[rc sc] ec] eqn:Hcopy.
    apply shutil_copy2_result in Hcopy as (-> & _ & [->|[-> _]]);
      intros Hrun Herr; simplify_eq.
    + split; reflexivity.
    + exfalso. apply Forall_cons in Herr as [_ Herr].
      apply Forall_cons in Herr as [Herr _]. discriminate.
Qed.

(** a Task Unit that is not killed and signals no error emits, with the
    workers it asks for, the units expected of it *)
Lemma run_progress (s s' : world) (r : result unit) (evs : list event) :
  well_formed (src_fs E) = true ->
  (forall j, killed_at w E j = false) ->
  run w E s = (r, s', evs) ->
  Forall (fun e => is_error e = false) evs ->
  progress_total evs + sum_list (map (expected_of (src_fs E)) (spawned evs)) =
    expected_of (src_fs E) w /\
  Forall (fun w' => ignore_files w' = ignore_files w /\ is_killed w' = false)
    (spawned evs).
Proof.
  intros Hwf Hk Hrun Herr.
  destruct (run_unfold E w s) as (r0 & s0 & evs0 & Hbody & Hrun0).
  rewrite Hrun0 in Hrun. injection Hrun as <- <- <-.
  apply Forall_app in Herr as [Herr0 Herr1].
  apply Forall_app in Herr1 as [Herr1 _].
  assert (match r0 with
          | Ok _ =>
              progress_total evs0 +
              sum_list (map (expected_of (src_fs E)) (spawned evs0)) =
                expected_of (src_fs E) w /\
              Forall (fun w' => ignore_files w' = ignore_files w /\ is_killed w' = false)
                (spawned evs0)
          | Raise e => e <> WorkerKilledException
          end) as Hr0.
  { unfold run_body in Hbody.
    apply bind_inv in Hbody as [(is_dir & s1 & e1 & e2 & H1 & Hbody & ->)|(e & H1 & _)];
      [|discriminate].
    unfold os_path_isdir in H1. injection H1 as <- <- <-. cbn [app] in Herr0 |- *.
    unfold expected_of.
    destruct (lookup_path (src_fs E) (src w)) as [[size mtime| |entries]|] eqn:Hsrc;
      cbn [is_dir_node] in Hbody.
    - apply bind_inv in Hbody as [(is_file & s2 & e3 & e4 & H2 & Hbody & ->)|(e & H2 & _)];
        [|discriminate].
      unfold os_path_isfile in H2. rewrite Hsrc in H2. injection H2 as <- <- <-.
      cbn [is_file_node app] in Hbody, Herr0 |- *.
      pose proof (run_file_progress _ _ _ _ _ _ Hsrc Hbody Herr0) as Hfile.
      destruct r0; [|exact Hfile]. destruct Hfile as [-> ->]. cbn. split; [lia | constructor].
    - apply bind_inv in Hbody as [(is_file & s2 & e3 & e4 & H2 & Hbody & ->)|(e & H2 & _)];
        [|discriminate].
      unfold os_path_isfile in H2. rewrite Hsrc in H2. injection H2 as <- <- <-.
      cbn [is_file_node] in Hbody. injection Hbody as <- <- <-.
      split; [reflexivity | constructor].
    - apply (run_dir_progress entries s s0 r0 e2 Hk Hsrc); try assumption.
      eapply well_formed_lookup; eassumption.
    - apply bind_inv in Hbody as [(is_file & s2 & e3 & e4 & H2 & Hbody & ->)|(e & H2 & _)];
        [|discriminate].
      unfold os_path_isfile in H2. rewrite Hsrc in H2. injection H2 as <- <- <-.
      injection Hbody as <- <- <-. split; [reflexivity | constructor]. }
  destruct r0 as [[]|[|op]].
  - destruct Hr0 as [Hsum Hgood].
    rewrite !progress_total_app, !spawned_app, !map_app, !sum_list_app.
    cbn. rewrite app_nil_r. split; [lia | assumption].
  - now contradiction Hr0.
  - apply Forall_cons in Herr1 as [Herr1 _]. discriminate.
Qed.

End UnitProgress.

(** ** The progress units of a whole run *)

Section RunProgress.

Variable E : env.
Hypothesis tree_well_formed : well_formed (src_fs E) = true.
Hypothesis no_kill_lands : kill_after E = None.

Lemma killed_at_never (w : BackupSelection) (j : nat) :
  is_killed w = false -> killed_at w E j = false.
Proof. intros Hk. unfold killed_at. now rewrite Hk, no_kill_lands. Qed.

(** what handling a signal that is not an error does to the workers and
    to the pool *)
Lemma deliver_pool (e : event) (mw : MainWindow) :
  is_error e = false ->
  workers (window_after (deliver E e mw)) =
    workers mw ++ (match e with NewThread w => [w] | _ => [] end) /\
  threadpool (window_after (deliver E e mw)) =
    threadpool mw ++
    (match e with NewThread _ => [List.length (workers mw)] | _ => [] end).
Proof.
  destruct e as [| n | | | | w]; cbn [deliver is_error window_after];
    try discriminate; intros _.
  - progress_cases; cbn; now rewrite !app_nil_r.
  - cbn. now rewrite !app_nil_r.
  - cbn. now rewrite !app_nil_r.
  - now rewrite !app_nil_r.
  - split; reflexivity.
Qed.

Lemma pool_extend (ws : list BackupSelection) (w : BackupSelection) (pool : list nat) :
  Forall (fun i => (i < List.length ws)%nat) pool ->
  omap (fun i => (ws ++ [w]) !! i) pool = omap (fun i => ws !! i) pool.
Proof.
  induction 1 as [|i pool Hi _ IH]; [reflexivity|].
  csimpl. rewrite IH. now rewrite lookup_app_l.
Qed.

Lemma Forall_unkilled_kill (ws : list BackupSelection) :
  Forall (fun w => is_killed w = false) (map kill ws) -> ws = [].
Proof. destruct ws; [reflexivity|]. intros H. apply Forall_cons in H as [H _]. discriminate. Qed.

(** a step of an undisturbed application starts from an undisturbed
    application and keeps the account *)
Lemma step_accounted (total : Z) (sys sys' : system) :
  step E sys sys' -> undisturbed sys' ->
  undisturbed sys /\
  (accounted (src_fs E) total sys -> accounted (src_fs E) total sys').
Proof.
  intros Hstep [Herr Hlive].
  destruct Hstep as [sys e rest Hsig|sys i before after Hpool|sys].
  - (* a signal is handled *)
    cbn [handle handled signals window] in Herr, Hlive.
    rewrite <- app_assoc in Herr. cbn [app] in Herr.
    assert (is_error e = false) as He.
    { apply Forall_app in Herr as [_ Herr]. now apply Forall_cons in Herr as [He _]. }
    destruct (deliver_pool e (window sys) He) as [Hws Hpl].
    rewrite Hws in Hlive. apply Forall_app in Hlive as [Hlive _].
    split.
    { split; [now rewrite Hsig | assumption]. }
    intros (Hvalid & Hpot & Hfresh).
    rewrite Hsig in Hfresh.
    unfold accounted, potential, pending, pool_workers in *.
    cbn [handle handled signals window]. rewrite Hws, Hpl.
    rewrite Hsig in Hpot.
    split; [|split].
    + apply Forall_app. split.
      * eapply Forall_impl; [exact Hvalid|]. intros j Hj. cbn beta in Hj |- *.
        rewrite length_app. lia.
      * destruct e; constructor; try constructor. rewrite length_app. cbn. lia.
    + rewrite <- Hpot. rewrite progress_total_app, omap_app, !map_app, !sum_list_app.
      
      assert (forall x, progress_total (x :: rest) = progress_of x + progress_total rest)
        as Hcons by reflexivity.
      rewrite Hcons. change (progress_total [e]) with (progress_of e + 0).
      destruct e as [| n | m | msg | | w']; try discriminate He;
        rewrite ?app_nil_r; csimpl; try (unfold sum_list; cbn; lia).
      rewrite (pool_extend _ _ _ Hvalid).
      rewrite lookup_app_r by lia. rewrite Nat.sub_diag. csimpl.
      unfold sum_list. cbn. lia.
    + destruct e; cbn in Hfresh |- *; try assumption.
      now apply Forall_cons in Hfresh as [_ Hfresh].
  - (* a worker runs *)
    unfold work in *.
    cbn [dequeue window disk signals handled workers with_workers] in *.
    destruct (workers (window sys) !! i) as [w|] eqn:Hw.
    + destruct (run w E (disk sys)) as [[r d'] evs] eqn:Hrun.
      cbn [window signals handled] in *.
      rewrite app_assoc in Herr. apply Forall_app in Herr as [Herr Hevs].
      split; [now split|].
      intros (Hvalid & Hpot & Hfresh).
      assert (is_killed w = false) as Hk.
      { rewrite Forall_forall in Hlive. apply Hlive.
        eapply list_elem_of_lookup_2; eassumption. }
      destruct (run_progress E w _ _ _ _ tree_well_formed
                  (fun j => killed_at_never w j Hk) Hrun Hevs) as [Hsum Hgood].
      unfold accounted, potential, pending, pool_workers in *.
      cbn [window signals handled workers threadpool with_workers].
      rewrite Hpool in Hvalid, Hpot.
      split; [|split].
      * apply Forall_app in Hvalid as [Hb Ha]. apply Forall_cons in Ha as [_ Ha].
        now apply Forall_app.
      * rewrite <- Hpot.
        rewrite !omap_app, !progress_total_app, !spawned_app, !map_app, !sum_list_app.
        csimpl. rewrite Hw. csimpl. rewrite <- Hsum. unfold sum_list. cbn. lia.
      * rewrite spawned_app. apply Forall_app. split; [assumption|].
        eapply Forall_impl; [exact Hgood|]. now intros w' [_ Hw'].
    + cbn [window signals handled] in *. split; [now split|].
      intros (Hvalid & Hpot & Hfresh).
      unfold accounted, potential, pending, pool_workers in *.
      cbn [window signals handled workers threadpool with_workers].
      rewrite Hpool in Hvalid, Hpot.
      split; [|split; [|assumption]].
      * apply Forall_app in Hvalid as [Hb Ha]. apply Forall_cons in Ha as [_ Ha].
        now apply Forall_app.
      * rewrite <- Hpot. rewrite !omap_app. csimpl. rewrite Hw. now rewrite omap_app.
  - (* the user cancels *)
    cbn [cancel window signals handled disk] in *.
    cbn in Hlive. apply Forall_unkilled_kill in Hlive as Hnone.
    split.
    { split; [assumption|]. rewrite Hnone. constructor. }
    intros (Hvalid & Hpot & Hfresh).
    unfold accounted, potential, pending, pool_workers in *.
    cbn. rewrite Hnone in *. cbn. auto.
Qed.

Lemma rtc_accounted (total : Z) (sys sys' : system) :
  rtc (step E) sys sys' -> undisturbed sys' ->
  undisturbed sys /\
  (accounted (src_fs E) total sys -> accounted (src_fs E) total sys').
Proof.
  induction 1 as [sys|sys sys1 sys2 Hstep _ IH]; intros Hend; [tauto|].
  destruct (IH Hend) as [Hmid Hacc].
  destruct (step_accounted total _ _ Hstep Hmid) as [Hstart Hacc']. tauto.
Qed.

(** the workers [run_backup] puts in the pool *)
Lemma run_backup_pool (backup_dir : path) (excluded : list path)
    (extensions : list string) (items : list path) (mw : MainWindow) :
  let root_worker item :=
    {| src := item; dst := backup_dir; ignore_files := excluded;
       ignore_extensions := extensions; root := true; is_killed := false |} in
  let mw' := fold_left (fun acc item => enqueue (root_worker item) acc) items mw in
  Forall (fun i => (i < List.length (workers mw))%nat) (threadpool mw) ->
  Forall (fun i => (i < List.length (workers mw'))%nat) (threadpool mw') /\
  pool_workers mw' = pool_workers mw ++ map root_worker items.
Proof.
  intros root_worker. revert mw.
  induction items as [|item items IH]; intros mw mw' Hvalid.
  - subst mw'. cbn. now rewrite app_nil_r.
  - subst mw'. cbn [fold_left map].
    destruct (IH (enqueue (root_worker item) mw)) as [Hv Hp].
    + cbn. apply Forall_app. split.
      * eapply Forall_impl; [exact Hvalid|]. intros j Hj. cbn beta in Hj |- *.
        rewrite length_app. lia.
      * repeat constructor. rewrite length_app. cbn. lia.
    + split; [exact Hv|]. rewrite Hp. unfold pool_workers. cbn.
      rewrite omap_app, (pool_extend _ _ _ Hvalid). csimpl.
      rewrite lookup_app_r by lia. rewrite Nat.sub_diag. csimpl.
      now rewrite <- app_assoc.
Qed.

Lemma started_accounted (mw : MainWindow) (backup_dir : path) (d : world) :
  threadpool mw = [] -> root_backup_dir mw = At backup_dir ->
  accounted (src_fs E)
    (expected_total (src_fs E) (files_to_exclude_model mw) (files_to_include_model mw))
    (started E mw d).
Proof.
  intros Hpool Hdir. unfold accounted, potential, pending, started.
  cbn [window signals handled]. unfold run_backup. rewrite Hdir.
  unfold start_workers. cbv zeta.
  match goal with
  | |- context [fold_left _ ?items ?m] =>
      destruct (run_backup_pool backup_dir (files_to_exclude_model mw)
                  (if decide (input_exclude_by mw = "") then []
                   else split "," (input_exclude_by mw)) items m) as [Hv Hp]
  end.
  { cbn. rewrite Hpool. constructor. }
  cbn in Hv, Hp. split; [exact Hv|]. split; [|constructor].
  cbn. rewrite Hp. unfold pool_workers. cbn. rewrite Hpool. csimpl.
  rewrite app_nil_r, map_map. unfold expected_total, expected_of. cbn [src ignore_files].
  lia.
Qed.

(** what [drive] does is a sequence of steps that ends at rest *)
Lemma drive_steps (fuel : nat) (sys sys' : system) :
  drive fuel E sys = Some sys' -> rtc (step E) sys sys' /\ quiescent sys'.
Proof.
  revert sys. induction fuel as [|fuel IH]; intros sys; cbn [drive].
  - destruct (signals sys) as [|e rest] eqn:Hs; [|discriminate].
    destruct (threadpool (window sys)) as [|i pool] eqn:Hp; [|discriminate].
    intros [= <-]. split; [apply rtc_refl | now split].
  - destruct (signals sys) as [|e rest] eqn:Hs.
    + destruct (threadpool (window sys)) as [|i pool] eqn:Hp.
      * intros [= <-]. split; [apply rtc_refl | now split].
      * intros Hrun. apply IH in Hrun as [Hsteps Hq]. split; [|exact Hq].
        eapply rtc_l; [|exact Hsteps]. now apply (step_work E sys i [] pool).
    + intros Hrun. apply IH in Hrun as [Hsteps Hq]. split; [|exact Hq].
      eapply rtc_l; [|exact Hsteps]. now apply step_handle.
Qed.

(** every schedule of the application that ends at rest, without an
    error signal and without a killed worker, has emitted the progress
    units expected of the selection *)
Lemma undisturbed_progress (mw : MainWindow) (backup_dir : path) (d : world)
    (sys : system) :
  threadpool mw = [] -> root_backup_dir mw = At backup_dir ->
  rtc (step E) (started E mw d) sys ->
  quiescent sys -> undisturbed sys ->
  progress_total (handled sys) =
    expected_total (src_fs E) (files_to_exclude_model mw) (files_to_include_model mw).
Proof.
  intros Hpool Hdir Hsteps [Hsig Hrest] Hend.
  destruct (rtc_accounted
              (expected_total (src_fs E) (files_to_exclude_model mw)
                 (files_to_include_model mw)) _ _ Hsteps Hend) as [_ Hacc].
  destruct (Hacc (started_accounted mw backup_dir d Hpool Hdir)) as (_ & Hpot & _).
  rewrite <- Hpot. unfold potential, pending, pool_workers.
  rewrite Hsig, Hrest. cbn. lia.
Qed.

End RunProgress.

(** ** The expected units and [count_total_files] *)

Section ExpectedCount.

Variable fs : node.
Variable excluded : list path.
Hypothesis tree_well_formed : well_formed fs = true.
Hypothesis tree_regular : regular fs = true.
Hypothesis no_excluded_directory :
  forall q entries, q ∈ excluded -> lookup_path fs q <> Some (Dir entries).

Lemma regular_lookup (t0 : node) (p : path) (t : node) :
  regular t0 = true -> lookup_path t0 p = Some t -> regular t = true.
Proof.
  revert t0. induction p as [|name p IH]; intros t0 Hreg; cbn [lookup_path].
  - now intros [= <-].
  - destruct t0 as [| |entries]; try discriminate.
    destruct (assoc name entries) as [c|] eqn:Hc; [|discriminate].
    apply IH. apply regular_dir in Hreg.
    rewrite Forall_forall in Hreg. apply assoc_Some in Hc.
    exact (Hreg _ Hc).
Qed.

Lemma sum_list_ext {A} (f g : A -> Z) (l : list A) :
  Forall (fun x => f x = g x) l -> sum_list (map f l) = sum_list (map g l).
Proof.
  induction 1 as [|x l Hx _ IH]; [reflexivity|].
  cbn [map]. rewrite !sum_list_cons. congruence.
Qed.

(** below a directory of the tree, the workers emit as many units as
    [os.walk] reports files *)
Lemma expected_progress_walk (t : node) :
  forall p, lookup_path fs p = Some t ->
  expected_progress excluded p t = walk_count t.
Proof.
  induction t as [size mtime| |entries IH] using node_induction; intros p Hp;
    try reflexivity.
  rewrite expected_progress_dir, walk_count_dir. apply sum_list_ext.
  pose proof (well_formed_lookup _ _ _ tree_well_formed Hp) as Hwf.
  apply well_formed_dir in Hwf as [Hnd _].
  pose proof (regular_lookup _ _ _ tree_regular Hp) as Hreg.
  apply regular_dir in Hreg.
  rewrite Forall_forall in IH, Hreg |- *. intros [name c] Hin.
  pose proof (lookup_path_entry _ _ _ _ _ Hp Hnd Hin) as Hc.
  specialize (Hreg _ Hin). specialize (IH _ Hin (p ++ [name]) Hc). cbn [snd] in *.
  unfold entry_progress. cbn [fst snd].
  unfold path_in. case_bool_decide as Hex.
  - destruct c as [| |sub]; [reflexivity | discriminate |].
    now destruct (no_excluded_directory _ sub Hex).
  - destruct c as [| |sub]; [reflexivity | discriminate | exact IH].
Qed.

Lemma count_total_files_sum (input_select : list path) (count : Z) :
  fold_left
    (fun count item =>
       match lookup_path fs item with
       | Some (File _ _) => count + 1
       | Some (Dir entries) => count + walk_count (Dir entries)
       | _ => count
       end) input_select count =
  count +
  sum_list
    (map (fun item =>
            match lookup_path fs item with
            | Some (File _ _) => 1
            | Some (Dir entries) => walk_count (Dir entries)
            | _ => 0
            end) input_select).
Proof.
  revert count. induction input_select as [|item items IH]; intros count.
  - cbn. lia.
  - cbn [fold_left map]. rewrite IH, sum_list_cons.
    destruct (lookup_path fs item) as [[| |]|]; lia.
Qed.

(** with regular files and directories only, and no excluded directory,
    the units expected of a selection are the files [count_total_files]
    counts *)
Lemma expected_total_count (input_select : list path) :
  expected_total fs excluded input_select = count_total_files fs input_select.
Proof.
  unfold count_total_files. rewrite count_total_files_sum, Z.add_0_l.
  unfold expected_total. apply sum_list_ext. apply Forall_forall. intros item _.
  destruct (lookup_path fs item) as [[| |entries]|] eqn:Hitem; try reflexivity.
  now apply expected_progress_walk.
Qed.

End ExpectedCount.

(** ** Every run comes to rest *)

Section Termination.

Variable E : env.
Hypothesis tree_well_formed : well_formed (src_fs E) = true.

Lemma sum_nat_app (l1 l2 : list nat) :
  sum_nat (l1 ++ l2) = (sum_nat l1 + sum_nat l2)%nat.
Proof.
  unfold sum_nat. induction l1 as [|x l1 IH]; cbn; [reflexivity | rewrite IH; lia].
Qed.

Lemma sum_nat_cons (x : nat) (l : list nat) : sum_nat (x :: l) = (x + sum_nat l)%nat.
Proof. reflexivity. Qed.

Lemma weight_dir (entries : list (string * node)) :
  weight (Dir entries) =
  (10 + sum_nat (map (fun entry => 10 + weight entry.2) entries))%nat.
Proof.
  cbn [weight]. f_equal. induction entries as [|[name c] entries IH]; [reflexivity|].
  cbn [map sum_nat foldr snd]. unfold sum_nat in IH. rewrite <- IH. lia.
Qed.

Variable w : BackupSelection.

(** the signals of one turn of the loop *)
Lemma run_child_cost (d : path) (i : nat) (name : string) (c : node)
    (s s' : world) (r : result unit) (evs : list event) :
  name <> "" ->
  lookup_path (src_fs E) (src w ++ [name]) = Some c ->
  run_child w d i name E s = (r, s', evs) ->
  (sum_nat (map (cost (src_fs E)) evs) <= 3 + weight c)%nat.
Proof.
  intros Hne Hc. mstep_to_copy. rewrite !(path_join_app _ _ Hne).
  destruct (killed_at w E i); mstep_to_copy;
    [intros Hrun; simplify_eq; cbn; lia|].
  destruct (path_in (src w ++ [name]) (ignore_files w)); mstep_to_copy;
    [intros Hrun; simplify_eq; cbn; lia|].
  destruct c as [size mtime| |entries];
    repeat (progress (rewrite ?Hc); mstep_to_copy);
    try (intros Hrun; simplify_eq; cbn; lia).
  - destruct (existsb _ _); mstep_to_copy;
      [intros Hrun; simplify_eq; cbn; lia|].
    destruct (faults E (OpGetsize _)); mstep_to_copy;
      [intros Hrun; simplify_eq; cbn; lia|].
    rewrite Hc. mstep_to_copy.
    destruct (dst_isfile _ _) eqn:Hex; mstep_to_copy.
    + destruct (faults E (OpGetmtimeSrc _)); mstep_to_copy;
        [intros Hrun; simplify_eq; cbn; lia|].
      rewrite Hc. mstep_to_copy.
      destruct (faults E (OpGetmtimeDst _)); mstep_to_copy;
        [intros Hrun; simplify_eq; cbn; lia|].
      destruct (d ++ [name]) as [|n0 p0] eqn:Hd; [discriminate|].
      destruct (dst_fs s !! (n0 :: p0)) as [[dsize dmtime|]|]; mstep_to_copy;
        try (intros Hrun; simplify_eq; cbn; lia).
      case_bool_decide; mstep_to_copy; [|intros Hrun; simplify_eq; cbn; lia].
      destruct (shutil_copy2 _ _ E s) as [[rc sc] ec] eqn:Hcopy.
      apply shutil_copy2_result in Hcopy as (-> & _ & [->|[-> _]]);
        intros Hrun; simplify_eq; cbn; lia.
    + destruct (shutil_copy2 _ _ E s) as [[rc sc] ec] eqn:Hcopy.
      apply shutil_copy2_result in Hcopy as (-> & _ & [->|[-> _]]);
        intros Hrun; simplify_eq; cbn; lia.
  - intros Hrun; simplify_eq. cbn [map sum_nat foldr cost].
    unfold worker_weight. cbn [src]. rewrite Hc. lia.
Qed.

Lemma for_each_cost (d : path) (entries : list (string * node)) :
  Forall (fun entry =>
            entry.1 <> "" /\
            lookup_path (src_fs E) (src w ++ [entry.1]) = Some entry.2) entries ->
  forall i s s' r evs,
    for_each (run_child w d) i (map fst entries) E s = (r, s', evs) ->
    (sum_nat (map (cost (src_fs E)) evs) <=
     sum_nat (map (fun entry => 3 + weight entry.2) entries))%nat.
Proof.
  induction 1 as [|[name c] entries [Hne Hc] _ IH];
    intros i s s' r evs; cbn [map fst for_each].
  - intros Hrun. unfold ret in Hrun. simplify_eq. cbn. lia.
  - intros Hrun.
    apply bind_inv in Hrun as [([] & s1 & ev1 & ev2 & H1 & H2 & ->)|(e & H1 & _)].
    + apply (run_child_cost d i name c _ _ _ _ Hne Hc) in H1.
      apply IH in H2. rewrite map_app, sum_nat_app, sum_nat_cons. cbn [snd]. lia.
    + apply (run_child_cost d i name c _ _ _ _ Hne Hc) in H1.
      rewrite sum_nat_cons. cbn [snd]. lia.
Qed.

Lemma handler_signals_cost (r : result unit) :
  (sum_nat (map (cost (src_fs E)) (handler_signals w r)) <= 1)%nat.
Proof. destruct r as [|[|]]; cbn; lia. Qed.

Lemma handler_signals_ok (r : result unit) :
  (exists u, r = Ok u) -> handler_signals w r = [].
Proof. now intros [u ->]. Qed.

(** the signals of the branch of a directory, with those of the handler
    its result calls for *)
Lemma run_dir_cost (entries : list (string * node)) (s s' : world)
    (r : result unit) (evs : list event) :
  lookup_path (src_fs E) (src w) = Some (Dir entries) ->
  run_dir w E s = (r, s', evs) ->
  (sum_nat (map (cost (src_fs E)) (evs ++ handler_signals w r)) <=
   1 + sum_nat (map (fun entry => 3 + weight entry.2) entries))%nat.
Proof.
  intros Hdir Hrun.
  pose proof (well_formed_lookup _ _ _ tree_well_formed Hdir) as Hwf.
  apply well_formed_dir in Hwf as [Hnd Hall].
  assert (Forall (fun entry =>
                    entry.1 <> "" /\
                    lookup_path (src_fs E) (src w ++ [entry.1]) = Some entry.2) entries)
    as Hentries.
  { rewrite Forall_forall in Hall |- *. intros [name c] Hin.
    split; [now apply (Hall _ Hin)|]. now apply (lookup_path_entry _ _ entries). }
  pose proof (handler_signals_cost r) as Hhandler.
  rewrite map_app, sum_nat_app.
  unfold run_dir in Hrun.
  apply bind_inv in Hrun as [(have_dst & s0 & ev0 & evs1 & H0 & Hrun & ->)|(e & H0 & _)];
    [|discriminate].
  unfold os_path_isdir_dst in H0. injection H0 as <- <- <-. cbn [app].
  apply bind_inv in Hrun as [([] & s1 & ev1 & evs2 & H1 & Hrun & ->)|(e & H1 & ->)].
  2:{ destruct (dst_isdir _ _); [discriminate|].
      apply os_makedirs_result in H1 as [-> _]. cbn [map sum_nat foldr] in *. lia. }
  assert (ev1 = []) as ->.
  { destruct (dst_isdir _ _); [now injection H1|].
    now apply os_makedirs_result in H1 as [-> _]. }
  cbn [app].
  apply bind_inv in Hrun as [(mapped & s2 & ev2 & evs3 & H2 & Hrun & ->)|(e & H2 & ->)].
  - assert ((exists d, mapped = Some d /\ ev2 = []) \/
            (mapped = None /\ exists err c m, ev2 = [Error err c m])) as Hmapped.
    { destruct (root w); [|injection H2 as <- <- <-; eauto].
      apply try_inv in H2
        as [(s3 & e1 & e2 & Hmk & Hret & ->)|[(op & s3 & e1 & e2 & Hmk & Hh & ->)|[Hmk _]]].
      - apply os_makedirs_result in Hmk as [-> _].
        injection Hret as <- <- <-. eauto.
      - apply os_makedirs_result in Hmk as [-> _].
        apply bind_inv in Hh as [(u & s4 & e3 & e4 & Hem & Hret & ->)|(e & Hem & _)];
          [|discriminate].
        injection Hem as <- <- <-. injection Hret as <- <- <-. right. eauto 6.
      - exfalso.
        destruct (os_makedirs_cases E (path_join (dst w) (path_name (src w))) s1)
          as [[s3 Hmk']|Hmk']; rewrite Hmk' in Hmk; discriminate. }
    destruct Hmapped as [(d & -> & ->)|(-> & err & c & m & ->)].
    + cbn [app].
      apply bind_inv in Hrun as [(names & s3 & e3 & e4 & H3 & Hrun & ->)|(e & H3 & ->)].
      * assert (names = map fst entries /\ e3 = []) as [-> ->].
        { unfold os_listdir in H3.
          apply bind_inv in H3 as [(u & s4 & e5 & e6 & Hf & H3 & ->)|(e & _ & [=])].
          unfold fault in Hf. destruct (faults E _); [discriminate|].
          injection Hf as <- <- <-. rewrite Hdir in H3. now injection H3 as <- <- <-. }
        cbn [app]. apply (for_each_cost d entries Hentries) in Hrun. lia.
      * assert (evs3 = []) as ->.
        { unfold os_listdir in H3.
          apply bind_inv in H3 as [(u & s4 & e5 & e6 & Hf & H3 & ->)|(e0 & Hf & _)].
          - unfold fault in Hf. destruct (faults E _); [discriminate|].
            injection Hf as <- <- <-. rewrite Hdir in H3. discriminate.
          - unfold fault in Hf. destruct (faults E _); [|discriminate].
            now injection Hf as <- <- <-. }
        cbn [map sum_nat foldr]. lia.
    + injection Hrun as <- <- <-. cbn [handler_signals app map sum_nat foldr cost] in *. lia.
  - exfalso. destruct (root w); [|discriminate].
    apply try_inv in H2
      as [(s3 & e1 & e2 & Hmk & Hret & ->)|[(op & s3 & e1 & e2 & Hmk & Hh & ->)|[Hmk _]]].
    + discriminate.
    + apply bind_inv in Hh as [(u & s4 & e3 & e4 & Hem & Hret & ->)|(e0 & Hem & _)];
        discriminate.
    + destruct (os_makedirs_cases E (path_join (dst w) (path_name (src w))) s1)
        as [[s3 Hmk']|Hmk']; rewrite Hmk' in Hmk; discriminate.
Qed.

(** the signals of the branch of a selected file, with those of the
    handler *)
Lemma run_file_cost (size mtime : Z) (s s' : world) (r : result unit)
    (evs : list event) :
  lookup_path (src_fs E) (src w) = Some (File size mtime) ->
  run_file w E s = (r, s', evs) ->
  (sum_nat (map (cost (src_fs E)) (evs ++ handler_signals w r)) <= 3)%nat.
Proof.
  intros Hc. unfold run_file.
  destruct (existsb _ _); mstep_to_copy;
    [intros Hrun; simplify_eq; cbn; lia|].
  destruct (faults E (OpGetsize _)); mstep_to_copy;
    [intros Hrun; simplify_eq; cbn; lia|].
  rewrite Hc. mstep_to_copy.
  destruct (dst_isfile _ _) eqn:Hex; mstep_to_copy.
  - destruct (faults E (OpGetmtimeSrc _)); mstep_to_copy;
      [intros Hrun; simplify_eq; cbn; lia|].
    rewrite Hc. mstep_to_copy.
    destruct (faults E (OpGetmtimeDst _)); mstep_to_copy;
      [intros Hrun; simplify_eq; cbn; lia|].
    destruct (path_join (dst w) (path_name (src w))) as [|n0 p0] eqn:Hd;
      [discriminate|].
    destruct (dst_fs s !! (n0 :: p0)) as [[dsize dmtime|]|]; mstep_to_copy;
      try (intros Hrun; simplify_eq; cbn; lia).
    case_bool_decide; mstep_to_copy; [|intros Hrun; simplify_eq; cbn; lia].
    destruct (shutil_copy2 _ _ E s) as [[rc sc] ec] eqn:Hcopy.
    apply shutil_copy2_result in Hcopy as (-> & _ & [->|[-> _]]);
      intros Hrun; simplify_eq; cbn; lia.
  - destruct (shutil_copy2 _ _ E s) as [[rc sc] ec] eqn:Hcopy.
    apply shutil_copy2_result in Hcopy as (-> & _ & [->|[-> _]]);
      intros Hrun; simplify_eq; cbn; lia.
Qed.

(** a worker emits fewer signals, those of the workers it asks for
    included, than its weight *)
Lemma run_cost (s s' : world) (r : result unit) (evs : list event) :
  run w E s = (r, s', evs) ->
  (sum_nat (map (cost (src_fs E)) evs) < worker_weight (src_fs E) w)%nat.
Proof.
  intros Hrun.
  destruct (run_unfold E w s) as (r0 & s0 & evs0 & Hbody & Hrun0).
  rewrite Hrun0 in Hrun. injection Hrun as <- <- <-.
  rewrite app_assoc, map_app, sum_nat_app. cbn [map sum_nat foldr cost].
  unfold worker_weight. unfold run_body in Hbody.
  apply bind_inv in Hbody as [(is_dir & s1 & e1 & e2 & H1 & Hbody & ->)|(e & H1 & _)];
    [|discriminate].
  unfold os_path_isdir in H1. injection H1 as <- <- <-. cbn [app].
  destruct (lookup_path (src_fs E) (src w)) as [[size mtime| |entries]|] eqn:Hsrc;
    cbn [is_dir_node] in Hbody.
  - apply bind_inv in Hbody as [(is_file & s2 & e3 & e4 & H2 & Hbody & ->)|(e & H2 & _)];
      [|discriminate].
    unfold os_path_isfile in H2. rewrite Hsrc in H2. injection H2 as <- <- <-.
    cbn [is_file_node app] in Hbody |- *.
    apply (run_file_cost size mtime) in Hbody; [|assumption]. cbn [weight]. lia.
  - apply bind_inv in Hbody as [(is_file & s2 & e3 & e4 & H2 & Hbody & ->)|(e & H2 & _)];
      [|discriminate].
    unfold os_path_isfile in H2. rewrite Hsrc in H2. injection H2 as <- <- <-.
    cbn [is_file_node] in Hbody. injection Hbody as <- <- <-. cbn. lia.
  - apply (run_dir_cost entries) in Hbody; [|assumption].
    rewrite weight_dir.
    assert (sum_nat (map (fun entry => 3 + weight entry.2) entries) <=
            sum_nat (map (fun entry => 10 + weight entry.2) entries))%nat.
    { clear. induction entries as [|entry entries IH]; [reflexivity|].
      cbn [map]. rewrite !sum_nat_cons. lia. }
    lia.
  - apply bind_inv in Hbody as [(is_file & s2 & e3 & e4 & H2 & Hbody & ->)|(e & H2 & _)];
      [|discriminate].
    unfold os_path_isfile in H2. rewrite Hsrc in H2. injection H2 as <- <- <-.
    injection Hbody as <- <- <-. cbn. lia.
Qed.

End Termination.

Section ComesToRest.

Variable E : env.
Hypothesis tree_well_formed : well_formed (src_fs E) = true.

Lemma worker_weight_kill (w : BackupSelection) :
  worker_weight (src_fs E) (kill w) = worker_weight (src_fs E) w.
Proof. reflexivity. Qed.

Lemma pool_kill (ws : list BackupSelection) (pool : list nat) :
  omap (fun i => map kill ws !! i) pool = map kill (omap (fun i => ws !! i) pool).
Proof.
  induction pool as [|i pool IH]; [reflexivity|]. csimpl. rewrite IH.
  change (map kill ws) with (kill <$> ws). rewrite list_lookup_fmap.
  now destruct (ws !! i).
Qed.

Lemma omap_cons_Some {A B} (f : A -> option B) (x : A) (l : list A) (y : B) :
  f x = Some y -> omap f (x :: l) = y :: omap f l.
Proof. intros H. csimpl. now rewrite H. Qed.

(** handling a signal: the pool stays sound and takes the weight of the
    worker a spawn asks for *)
Lemma deliver_load (e : event) (mw : MainWindow) :
  Forall (fun i => (i < List.length (workers mw))%nat) (threadpool mw) ->
  Forall (fun i => (i < List.length (workers (window_after (deliver E e mw))))%nat)
    (threadpool (window_after (deliver E e mw))) /\
  (sum_nat (map (worker_weight (src_fs E))
              (pool_workers (window_after (deliver E e mw)))) +
   1 =
   sum_nat (map (worker_weight (src_fs E)) (pool_workers mw)) + cost (src_fs E) e)%nat.
Proof.
  intros Hvalid. destruct (is_error e) eqn:He.
  - destruct e; try discriminate. cbn [deliver cost window_after].
    unfold pool_workers. cbn.
    rewrite length_map. split; [assumption|]. rewrite pool_kill, map_map.
    f_equal.
  - destruct (deliver_pool E e mw He) as [Hws Hpl]. unfold pool_workers.
    rewrite Hws, Hpl. split.
    + apply Forall_app. split.
      * eapply Forall_impl; [exact Hvalid|]. intros j Hj. cbn beta in Hj |- *.
        rewrite length_app. lia.
      * destruct e; constructor; try constructor. rewrite length_app. cbn. lia.
    + rewrite omap_app, map_app, sum_nat_app.
      destruct e as [| n | m | msg | | w']; try discriminate He;
        rewrite ?app_nil_r; csimpl; try (cbn; lia).
      rewrite (pool_extend _ _ _ Hvalid).
      rewrite lookup_app_r by lia. rewrite Nat.sub_diag. csimpl. cbn. lia.
Qed.

(** with fuel above its load, the application comes to rest *)
Lemma drive_comes_to_rest (fuel : nat) :
  forall sys,
    Forall (fun i => (i < List.length (workers (window sys)))%nat)
      (threadpool (window sys)) ->
    (load (src_fs E) sys < fuel)%nat ->
    exists sys', drive fuel E sys = Some sys'.
Proof.
  induction fuel as [|fuel IH]; intros sys Hvalid Hload; [lia|].
  cbn [drive]. unfold load in Hload.
  destruct (signals sys) as [|e rest] eqn:Hs.
  - destruct (threadpool (window sys)) as [|i pool] eqn:Hp; [eauto|].
    apply IH.
    + unfold work. cbn [dequeue window workers with_workers].
      apply Forall_cons in Hvalid as [_ Hvalid].
      destruct (workers (window sys) !! i); [|exact Hvalid].
      now destruct (run _ _ _) as [[r d'] evs].
    + unfold load, work, pool_workers in *.
      cbn [dequeue window workers with_workers threadpool signals disk handled] in *.
      rewrite Hp in Hload.
      destruct (workers (window sys) !! i) as [w|] eqn:Hw.
      * rewrite (omap_cons_Some (fun j => workers (window sys) !! j) i pool w Hw)
          in Hload.
        destruct (run w E (disk sys)) as [[r d'] evs] eqn:Hrun.
        cbn [window signals workers threadpool with_workers].
        apply (run_cost E tree_well_formed) in Hrun.
        rewrite Hs. cbn [app map] in Hload |- *.
        rewrite sum_nat_cons in Hload.
        change (sum_nat []) with 0%nat in Hload. lia.
      * apply Forall_cons in Hvalid as [Hi _].
        apply lookup_ge_None in Hw. lia.
  - apply IH.
    + cbn [handle window]. now apply deliver_load.
    + unfold load in *. cbn [handle window signals].
      destruct (deliver_load e (window sys) Hvalid) as [_ Hsum].
      cbn [map] in Hload. rewrite sum_nat_cons in Hload. lia.
Qed.

(** a backup comes to rest *)
Lemma backup_comes_to_rest (mw : MainWindow) (d : world) :
  threadpool mw = [] ->
  exists fuel sys, backup fuel E mw d = Some sys.
Proof.
  intros Hpool. exists (S (load (src_fs E) (started E mw d))).
  apply drive_comes_to_rest; [|lia].
  unfold started. cbn [window]. unfold run_backup.
  assert (forall backup_dir,
            Forall (fun i =>
                      (i < List.length (workers (start_workers E backup_dir mw)))%nat)
              (threadpool (start_workers E backup_dir mw))) as Hstart.
  { intros backup_dir. unfold start_workers. cbv zeta.
    match goal with
    | |- context [fold_left _ ?items ?m] =>
        destruct (run_backup_pool backup_dir (files_to_exclude_model mw)
                    (if decide (input_exclude_by mw = "") then []
                     else split "," (input_exclude_by mw)) items m) as [Hv _]
    end.
    - cbn. rewrite Hpool. constructor.
    - exact Hv. }
  destruct (root_backup_dir mw) as [| | |backup_dir];
    try apply Hstart; rewrite Hpool; constructor.
Qed.

End ComesToRest.

(** ** What a backup adds up to *)

Lemma enqueue_all_progress_bar {A} (make : A -> BackupSelection) (items : list A)
    (m : MainWindow) :
  progress_bar (fold_left (fun acc item => enqueue (make item) acc) items m) =
  progress_bar m.
Proof.
  revert m. induction items as [|item items IH]; intros m; [reflexivity|].
  cbn [fold_left]. now rewrite IH.
Qed.

Section Backup.

Variable E : env.
Variable mw : MainWindow.
Variable backup_dir : path.
Variable d : world.
Hypothesis tree_well_formed : well_formed (src_fs E) = true.
Hypothesis no_kill_lands : kill_after E = None.
Hypothesis pool_at_rest : threadpool mw = [].
Hypothesis location_set : root_backup_dir mw = At backup_dir.

(** A backup comes to rest; and when it does so without an error signal
    and without a killed worker, the progress units it has emitted are
    those expected of the selection: one for each file that is not below
    an excluded directory, one for each excluded directory, none for what
    is neither a file nor a directory. *)
Theorem backup_progress :
  (exists fuel sys, backup fuel E mw d = Some sys) /\
  (forall fuel sys,
     backup fuel E mw d = Some sys -> undisturbed sys ->
     quiescent sys /\
     progress_total (handled sys) =
       expected_total (src_fs E) (files_to_exclude_model mw)
         (files_to_include_model mw)).
Proof.
  split; [now apply backup_comes_to_rest|].
  intros fuel sys Hrun Hcalm. apply drive_steps in Hrun as [Hsteps Hrest].
  split; [exact Hrest|].
  now apply (undisturbed_progress E tree_well_formed no_kill_lands mw backup_dir d).
Qed.

Hypothesis tree_regular : regular (src_fs E) = true.
Hypothesis no_excluded_directory :
  forall q entries,
    q ∈ files_to_exclude_model mw -> lookup_path (src_fs E) q <> Some (Dir entries).

(** When the tree holds regular files and directories only and no
    excluded path is a directory, an undisturbed backup emits as many
    progress units as [count_total_files] counts files, which is the
    maximum [run_backup] gives the progress bar. *)
Theorem backup_progress_is_file_count (fuel : nat) (sys : system) :
  backup fuel E mw d = Some sys -> undisturbed sys ->
  progress_total (handled sys) =
    count_total_files (src_fs E) (files_to_include_model mw) /\
  maximum (progress_bar (run_backup E mw)) =
    Z.max 0 (count_total_files (src_fs E) (files_to_include_model mw)).
Proof.
  intros Hrun Hcalm. split.
  - destruct backup_progress as [_ Htotal].
    destruct (Htotal fuel sys Hrun Hcalm) as [_ ->].
    now apply expected_total_count.
  - unfold run_backup. rewrite location_set. unfold start_workers. cbv zeta.
    rewrite enqueue_all_progress_bar. reflexivity.
Qed.

End Backup.

(** ** Running a Task Unit again *)

Section Rerun.

Variable E : env.
Variable w : BackupSelection.
Variable d' : path.

(** an entry that is settled is not copied again *)
Lemma run_child_settled (i : nat) (name : string) (c : node)
    (s s' : world) (r : result unit) (evs : list event) :
  name <> "" ->
  lookup_path (src_fs E) (src w ++ [name]) = Some c ->
  entry_settled w d' s (name, c) ->
  run_child w d' i name E s = (r, s', evs) ->
  s' = s /\ Forall (fun e => is_memory_count e = false) evs.
Proof.
  intros Hne Hc Hset. unfold entry_settled in Hset. cbn [fst snd] in Hset.
  mstep_to_copy. rewrite !(path_join_app _ _ Hne).
  destruct (killed_at w E i); mstep_to_copy;
    [intros Hrun; simplify_eq; auto|].
  destruct (path_in (src w ++ [name]) (ignore_files w)); mstep_to_copy;
    [intros Hrun; simplify_eq; split; [reflexivity | now repeat constructor]|].
  destruct c as [size mtime| |entries];
    repeat (progress (rewrite ?Hc); mstep_to_copy);
    try (intros Hrun; simplify_eq; split; [reflexivity | now repeat constructor]).
  destruct (existsb _ _); mstep_to_copy;
    [intros Hrun; simplify_eq; split; [reflexivity | now repeat constructor]|].
  destruct (Hset eq_refl eq_refl) as (dsize & dmtime & Hdst & Hle).
  destruct (faults E (OpGetsize _)); mstep_to_copy;
    [intros Hrun; simplify_eq; auto|].
  rewrite Hc. mstep_to_copy.
  assert (dst_isfile (dst_fs s) (d' ++ [name]) = true) as Hex.
  { apply dst_isfile_lookup. split; [now destruct d'|eauto]. }
  rewrite Hex. mstep_to_copy.
  destruct (faults E (OpGetmtimeSrc _)); mstep_to_copy;
    [intros Hrun; simplify_eq; auto|].
  rewrite Hc. mstep_to_copy.
  destruct (faults E (OpGetmtimeDst _)); mstep_to_copy;
    [intros Hrun; simplify_eq; auto|].
  destruct (d' ++ [name]) as [|n0 p0] eqn:Hd; [now destruct d'|].
  rewrite Hdst. mstep_to_copy.
  rewrite bool_decide_false by lia. mstep_to_copy.
  intros Hrun; simplify_eq. split; [reflexivity | now repeat constructor].
Qed.

Lemma for_each_settled (entries : list (string * node)) (s : world) :
  Forall (fun entry =>
            entry.1 <> "" /\
            lookup_path (src_fs E) (src w ++ [entry.1]) = Some entry.2) entries ->
  Forall (entry_settled w d' s) entries ->
  forall i s' r evs,
    for_each (run_child w d') i (map fst entries) E s = (r, s', evs) ->
    s' = s /\ Forall (fun e => is_memory_count e = false) evs.
Proof.
  induction 1 as [|[name c] entries [Hne Hc] _ IH]; intros Hset i s' r evs;
    cbn [map fst for_each].
  - intros Hrun. unfold ret in Hrun. simplify_eq. auto.
  - apply Forall_cons in Hset as [Hhead Htail]. intros Hrun.
    apply bind_inv in Hrun as [([] & s1 & ev1 & ev2 & H1 & H2 & ->)|(e & H1 & _)].
    + apply (run_child_settled i name c _ _ _ _ Hne Hc Hhead) in H1 as [-> Hev1].
      apply (IH Htail) in H2 as [-> Hev2]. split; [reflexivity | now apply Forall_app].
    + now apply (run_child_settled i name c _ _ _ _ Hne Hc Hhead) in H1.
Qed.

Lemma shutil_copy2_settles (file target : path) (size mtime : Z) (s sc : world) :
  lookup_path (src_fs E) file = Some (File size mtime) ->
  dst_isdir (dst_fs s) target = false ->
  shutil_copy2 file target E s = (Ok tt, sc, []) ->
  (exists dsize dmtime,
     dst_fs sc !! target = Some (DFile dsize dmtime) /\ mtime <= dmtime) /\
  (forall q, q <> target -> dst_fs sc !! q = dst_fs s !! q).
Proof.
  intros Hc Hclear Hcopy.
  apply (shutil_copy2_ok E _ _ _ _ size mtime Hc) in Hcopy.
  unfold copy_target in Hcopy. rewrite Hclear in Hcopy. rewrite Hcopy. split.
  - exists size, mtime. rewrite lookup_insert_eq. split; [reflexivity | lia].
  - intros q Hq. now rewrite lookup_insert_ne.
Qed.

(** a turn of the loop that signals no error settles its entry, and
    touches nothing else in the backup *)
Lemma run_child_settles (i : nat) (name : string) (c : node)
    (s s' : world) (evs : list event) :
  name <> "" ->
  lookup_path (src_fs E) (src w ++ [name]) = Some c ->
  (is_file_node c = true -> dst_isdir (dst_fs s) (d' ++ [name]) = false) ->
  run_child w d' i name E s = (Ok tt, s', evs) ->
  Forall (fun e => is_error e = false) evs ->
  entry_settled w d' s' (name, c) /\
  (forall q, q <> d' ++ [name] -> dst_fs s' !! q = dst_fs s !! q).
Proof.
  intros Hne Hc Hclear. unfold entry_settled. cbn [fst snd].
  mstep_to_copy. rewrite !(path_join_app _ _ Hne).
  destruct (killed_at w E i); mstep_to_copy; [discriminate|].
  destruct (path_in (src w ++ [name]) (ignore_files w)); mstep_to_copy.
  { intros Hrun _; simplify_eq. split; [|reflexivity]. now destruct c. }
  destruct c as [size mtime| |entries];
    repeat (progress (rewrite ?Hc); mstep_to_copy);
    try (intros Hrun _; simplify_eq; split; [exact I | reflexivity]).
  destruct (existsb _ _); mstep_to_copy.
  { intros Hrun _; simplify_eq. split; [discriminate | reflexivity]. }
  specialize (Hclear eq_refl).
  destruct (faults E (OpGetsize _)); mstep_to_copy; [discriminate|].
  rewrite Hc. mstep_to_copy.
  destruct (dst_isfile _ _) eqn:Hex; mstep_to_copy.
  - destruct (faults E (OpGetmtimeSrc _)); mstep_to_copy; [discriminate|].
    rewrite Hc. mstep_to_copy.
    destruct (faults E (OpGetmtimeDst _)); mstep_to_copy; [discriminate|].
    assert (exists n0 p0, d' ++ [name] = n0 :: p0) as (n0 & p0 & Hd)
      by (destruct d'; cbn; eauto).
    rewrite Hd. rewrite Hd in Hex, Hclear.
    destruct (dst_fs s !! (n0 :: p0)) as [[dsize dmtime|]|] eqn:Hdst; mstep_to_copy;
      try discriminate.
    case_bool_decide as Hnew; mstep_to_copy.
    + destruct (shutil_copy2 _ _ E s) as [[rc sc] ec] eqn:Hcopy.
      apply shutil_copy2_result in Hcopy as Hshape.
      destruct Hshape as (-> & _ & [->|[-> _]]); intros Hrun Herr; simplify_eq.
      * destruct (shutil_copy2_settles _ _ size mtime s _ Hc Hclear Hcopy) as [Hfile Hframe].
        split; [now intros _ _ | exact Hframe].
      * exfalso. apply Forall_cons in Herr as [_ Herr].
        apply Forall_cons in Herr as [Herr _]. discriminate.
    + intros Hrun _; simplify_eq. split; [|reflexivity].
      intros _ _. exists dsize, dmtime. split; [assumption | lia].
  - destruct (shutil_copy2 _ _ E s) as [[rc sc] ec] eqn:Hcopy.
    apply shutil_copy2_result in Hcopy as Hshape.
    destruct Hshape as (-> & _ & [->|[-> _]]); intros Hrun Herr; simplify_eq.
    + destruct (shutil_copy2_settles _ _ size mtime s _ Hc Hclear Hcopy) as [Hfile Hframe].
      split; [now intros _ _ | exact Hframe].
    + exfalso. apply Forall_cons in Herr as [_ Herr].
      apply Forall_cons in Herr as [Herr _]. discriminate.
Qed.

Lemma for_each_settles (entries : list (string * node)) :
  NoDup (map fst entries) ->
  Forall (fun entry =>
            entry.1 <> "" /\
            lookup_path (src_fs E) (src w ++ [entry.1]) = Some entry.2) entries ->
  forall i s s' evs,
    Forall (fun entry =>
              is_file_node entry.2 = true ->
              dst_isdir (dst_fs s) (d' ++ [entry.1]) = false) entries ->
    for_each (run_child w d') i (map fst entries) E s = (Ok tt, s', evs) ->
    Forall (fun e => is_error e = false) evs ->
    Forall (entry_settled w d' s') entries /\
    (forall q, (forall entry, entry ∈ entries -> q <> d' ++ [entry.1]) ->
               dst_fs s' !! q = dst_fs s !! q).
Proof.
  intros Hnd Hall. revert Hnd.
  induction Hall as [|[name c] entries [Hne Hc] _ IH]; intros Hnd i s s' evs Hclear;
    cbn [map fst for_each] in *.
  - intros Hrun _. unfold ret in Hrun. simplify_eq. split; [constructor | reflexivity].
  - apply NoDup_cons in Hnd as [Hfresh Hnd].
    apply Forall_cons in Hclear as [Hhead Htail]. cbn [fst snd] in Hhead.
    intros Hrun Herr.
    apply bind_inv in Hrun as [([] & s1 & ev1 & ev2 & H1 & H2 & ->)|(e & _ & [=])].
    apply Forall_app in Herr as [Herr1 Herr2].
    destruct (run_child_settles i name c s s1 ev1 Hne Hc Hhead H1 Herr1)
      as [Hset1 Hframe1].
    assert (forall entry, entry ∈ entries -> d' ++ [entry.1] <> d' ++ [name]) as Hother.
    { intros entry Hin Heq. apply app_inv_head in Heq. injection Heq as Heq.
      apply Hfresh. rewrite <- Heq. apply list_elem_of_fmap. now exists entry. }
    assert (Forall (fun entry =>
                      is_file_node entry.2 = true ->
                      dst_isdir (dst_fs s1) (d' ++ [entry.1]) = false) entries)
      as Htail1.
    { rewrite Forall_forall in Htail |- *. intros entry Hin Hkind.
      specialize (Htail entry Hin Hkind). specialize (Hother entry Hin).
      unfold dst_isdir in Htail |- *.
      destruct (d' ++ [entry.1]); [assumption|]. now rewrite Hframe1. }
    destruct (IH Hnd _ _ _ _ Htail1 H2 Herr2) as [Hset2 Hframe2]. split.
    + constructor; [|exact Hset2].
      unfold entry_settled in Hset1 |- *. cbn [fst snd] in Hset1 |- *.
      destruct c as [size mtime| |sub]; try exact I.
      intros Hin Hext. destruct (Hset1 Hin Hext) as (dsize & dmtime & Hfile & Hle).
      exists dsize, dmtime. split; [|exact Hle].
      rewrite Hframe2; [exact Hfile|].
      intros entry Hentry Heq. now apply (Hother entry Hentry).
    + intros q Hq. rewrite Hframe2, Hframe1; [reflexivity| |].
      * apply (Hq (name, c)). apply list_elem_of_here.
      * intros entry Hin. apply Hq. now apply list_elem_of_further.
Qed.

End Rerun.

Section RerunUnit.

Variable E : env.
Variable w : BackupSelection.

(** [os.makedirs(p)] touches nothing below [p] *)
Lemma mkdirs_lookup (d : gmap path dentry) (p q : path) :
  (List.length p < List.length q)%nat -> mkdirs d p !! q = d !! q.
Proof.
  unfold mkdirs, ancestors.
  assert (forall base,
            (List.length base + List.length p < List.length q)%nat ->
            foldr (fun q0 acc => <[q0 := DDir]> acc) d (ancestors_from base p) !! q =
              d !! q) as Hfrom.
  { induction p as [|name p IH]; intros base Hlen; cbn [ancestors_from foldr];
      [reflexivity|].
    rewrite lookup_insert_ne.
    - apply IH. rewrite length_app. cbn [List.length] in Hlen |- *. lia.
    - intros <-. rewrite length_app in Hlen. cbn [List.length] in Hlen. lia. }
  intros Hlen. apply Hfrom. cbn [List.length]. lia.
Qed.

Lemma os_makedirs_below (p : path) (s s' : world) (r : result unit)
    (evs : list event) :
  os_makedirs p E s = (r, s', evs) ->
  forall q, (List.length p < List.length q)%nat -> dst_fs s' !! q = dst_fs s !! q.
Proof.
  mstep. destruct (faults E _); mstep; [now intros [= <- <- <-]|].
  destruct (blocked_by_file _ _); intros [= <- <- <-]; [reflexivity|].
  intros q Hq. cbn [dst_fs]. now apply mkdirs_lookup.
Qed.

Lemma mapped_dst_length :
  (List.length (dst w) <= List.length (mapped_dst w))%nat /\
  (List.length (path_join (dst w) (path_name (src w))) <=
     List.length (if root w then mapped_dst w else path_join (dst w) (path_name (src w))))%nat.
Proof.
  unfold mapped_dst, path_join.
  destruct (root w), (decide _); rewrite ?length_app; cbn [List.length]; lia.
Qed.

(** what comes before the loop of a directory: the run gets to the loop
    with the files of the backup as they were, or it copies nothing and
    ends with an exception or an error signal *)
Lemma run_dir_loop (entries : list (string * node)) (s s' : world)
    (r : result unit) (evs : list event) :
  lookup_path (src_fs E) (src w) = Some (Dir entries) ->
  run_dir w E s = (r, s', evs) ->
  (exists s0,
     copies s0 = copies s /\
     (forall q, (List.length (mapped_dst w) < List.length q)%nat ->
                dst_fs s0 !! q = dst_fs s !! q) /\
     for_each (run_child w (mapped_dst w)) 0%nat (map fst entries) E s0 = (r, s', evs)) \/
  (copies s' = copies s /\
   Forall (fun e => is_memory_count e = false) evs /\
   (r = Ok tt -> ~ Forall (fun e => is_error e = false) evs)).
Proof.
  intros Hdir Hrun. unfold run_dir in Hrun.
  destruct mapped_dst_length as [Hlen1 Hlen2].
  apply bind_inv in Hrun as [(have_dst & s0 & ev0 & evs1 & H0 & Hrun & ->)|(e & H0 & _)];
    [|discriminate].
  unfold os_path_isdir_dst in H0. injection H0 as <- <- <-. cbn [app].
  apply bind_inv in Hrun as [([] & s1 & ev1 & evs2 & H1 & Hrun & ->)|(e & H1 & ->)].
  2:{ right. destruct (dst_isdir _ _); [discriminate|].
      apply os_makedirs_result in H1 as [-> Hc]. repeat split; [assumption|constructor|].
      discriminate. }
  assert (ev1 = [] /\ copies s1 = copies s /\
          forall q, (List.length (mapped_dst w) < List.length q)%nat ->
                    dst_fs s1 !! q = dst_fs s !! q) as (-> & Hc1 & Hf1).
  { destruct (dst_isdir _ _); [injection H1 as <- <-; auto|].
    pose proof (os_makedirs_below _ _ _ _ _ H1) as Hbelow.
    apply os_makedirs_result in H1 as [-> Hc]. repeat split; [assumption|].
    intros q Hq. apply Hbelow. lia. }
  cbn [app].
  assert (forall s2 evs3,
            (names <- os_listdir (src w) ;;
             for_each (run_child w (mapped_dst w)) 0%nat names) E s2 = (r, s', evs3) ->
            for_each (run_child w (mapped_dst w)) 0%nat (map fst entries) E s2 =
              (r, s', evs3) \/
            (s' = s2 /\ evs3 = [] /\ r <> Ok tt)) as Hlist.
  { intros s2 evs3. unfold os_listdir, bind, fault.
    destruct (faults E _); [intros Hl; simplify_eq; now right|].
    rewrite Hdir.
    destruct (for_each _ _ _ E s2) as [[r1 s3] ev3]. intros Hl. simplify_eq. now left. }
  unfold mapped_dst in Hlist |- *. unfold mapped_dst in Hf1, Hlen2.
  destruct (root w).
  - apply bind_inv in Hrun as [(mapped & s2 & ev2 & evs3 & H2 & Hrun & ->)|(e & H2 & ->)].
    + apply try_inv in H2
        as [(s3 & e1 & e2 & Hmk & Hret & ->)|[(op & s3 & e1 & e2 & Hmk & Hh & ->)|[Hmk _]]].
      * pose proof (os_makedirs_below _ _ _ _ _ Hmk) as Hbelow.
        apply os_makedirs_result in Hmk as [-> Hc3].
        injection Hret as <- <- <-. cbn [app].
        destruct (Hlist _ _ Hrun) as [Hloop|(-> & -> & Hr)].
        -- left. exists s3. repeat split; [congruence| |exact Hloop].
           intros q Hq. rewrite Hbelow by lia. now apply Hf1.
        -- right. repeat split; [congruence|constructor|]. intros ->. now contradiction Hr.
      * right. apply os_makedirs_result in Hmk as [-> Hc3].
        apply bind_inv in Hh as [(u & s4 & e3 & e4 & Hem & Hret & ->)|(e & Hem & _)];
          [|discriminate].
        injection Hem as <- <-. injection Hret as <- <- <-.
        injection Hrun as <- <- <-. subst e3. cbn [app].
        repeat split; [congruence|now repeat constructor|].
        intros _ Herr. apply Forall_cons in Herr as [Herr _]. discriminate.
      * exfalso.
        destruct (os_makedirs_cases E (path_join (dst w) (path_name (src w))) s1)
          as [[s3 Hmk']|Hmk']; rewrite Hmk' in Hmk; discriminate.
    + right. apply try_inv in H2
        as [(s3 & e1 & e2 & Hmk & Hret & ->)|[(op & s3 & e1 & e2 & Hmk & Hh & ->)|[Hmk _]]].
      * discriminate.
      * apply bind_inv in Hh as [(u & s4 & e3 & e4 & Hem & Hret & ->)|(e0 & Hem & _)];
          discriminate.
      * destruct (os_makedirs_cases E (path_join (dst w) (path_name (src w))) s1)
          as [[s3 Hmk']|Hmk']; rewrite Hmk' in Hmk; discriminate.
  - apply bind_inv in Hrun as [(mapped & s2 & ev2 & evs3 & H2 & Hrun & ->)|(e & H2 & _)];
      [|discriminate].
    injection H2 as <- <- <-. cbn [app].
    destruct (Hlist _ _ Hrun) as [Hloop|(-> & -> & Hr)].
    + left. exists s1. repeat split; assumption.
    + right. repeat split; [assumption|constructor|]. intros ->. now contradiction Hr.
Qed.

(** the branch of a selected file, the first time *)
Lemma run_file_settles (size mtime : Z) (s s' : world) (evs : list event) :
  lookup_path (src_fs E) (src w) = Some (File size mtime) ->
  dst_isdir (dst_fs s) (dst w) = true ->
  dst_isdir (dst_fs s) (path_join (dst w) (path_name (src w))) = false ->
  run_file w E s = (Ok tt, s', evs) ->
  Forall (fun e => is_error e = false) evs ->
  existsb (endswith (path_name (src w))) (ignore_extensions w) = false ->
  exists dsize dmtime,
    dst_fs s' !! path_join (dst w) (path_name (src w)) = Some (DFile dsize dmtime) /\
    mtime <= dmtime.
Proof.
  intros Hc Hdir Hclear Hrun Herr Hext. revert Hrun Herr. unfold run_file.
  rewrite Hext. mstep_to_copy.
  destruct (faults E (OpGetsize _)); mstep_to_copy; [discriminate|].
  rewrite Hc. mstep_to_copy.
  assert (forall sc,
            shutil_copy2 (src w) (dst w) E s = (Ok tt, sc, []) ->
            exists dsize dmtime,
              dst_fs sc !! path_join (dst w) (path_name (src w)) =
                Some (DFile dsize dmtime) /\ mtime <= dmtime) as Hcopied.
  { intros sc Hcopy. apply (shutil_copy2_ok E _ _ _ _ size mtime Hc) in Hcopy.
    unfold copy_target in Hcopy. rewrite Hdir in Hcopy. rewrite Hcopy.
    exists size, mtime. rewrite lookup_insert_eq. split; [reflexivity | lia]. }
  destruct (dst_isfile _ _) eqn:Hex; mstep_to_copy.
  - destruct (faults E (OpGetmtimeSrc _)); mstep_to_copy; [discriminate|].
    rewrite Hc. mstep_to_copy.
    destruct (faults E (OpGetmtimeDst _)); mstep_to_copy; [discriminate|].
    destruct (path_join (dst w) (path_name (src w))) as [|n0 p0] eqn:Hd;
      [discriminate|].
    destruct (dst_fs s !! (n0 :: p0)) as [[dsize dmtime|]|] eqn:Hdst; mstep_to_copy;
      try discriminate.
    case_bool_decide as Hnew; mstep_to_copy.
    + destruct (shutil_copy2 _ _ E s) as [[rc sc] ec] eqn:Hcopy.
      apply shutil_copy2_result in Hcopy as Hshape.
      destruct Hshape as (-> & _ & [->|[-> _]]); intros Hrun Herr; simplify_eq.
      * now apply Hcopied.
      * exfalso. apply Forall_cons in Herr as [_ Herr].
        apply Forall_cons in Herr as [Herr _]. discriminate.
    + intros Hrun _; simplify_eq. exists dsize, dmtime. split; [assumption | lia].
  - destruct (shutil_copy2 _ _ E s) as [[rc sc] ec] eqn:Hcopy.
    apply shutil_copy2_result in Hcopy as Hshape.
    destruct Hshape as (-> & _ & [->|[-> _]]); intros Hrun Herr; simplify_eq.
    + now apply Hcopied.
    + exfalso. apply Forall_cons in Herr as [_ Herr].
      apply Forall_cons in Herr as [Herr _]. discriminate.
Qed.

(** the branch of a selected file, the next time *)
Lemma run_file_settled (size mtime : Z) (s s' : world) (r : result unit)
    (evs : list event) :
  lookup_path (src_fs E) (src w) = Some (File size mtime) ->
  path_join (dst w) (path_name (src w)) <> [] ->
  (existsb (endswith (path_name (src w))) (ignore_extensions w) = false ->
   exists dsize dmtime,
     dst_fs s !! path_join (dst w) (path_name (src w)) = Some (DFile dsize dmtime) /\
     mtime <= dmtime) ->
  run_file w E s = (r, s', evs) ->
  s' = s /\ Forall (fun e => is_memory_count e = false) evs.
Proof.
  intros Hc Hplace Hset. unfold run_file.
  destruct (existsb _ _); mstep_to_copy;
    [intros Hrun; simplify_eq; split; [reflexivity | now repeat constructor]|].
  destruct (Hset eq_refl) as (dsize & dmtime & Hdst & Hle).
  destruct (faults E (OpGetsize _)); mstep_to_copy;
    [intros Hrun; simplify_eq; auto|].
  rewrite Hc. mstep_to_copy.
  destruct (path_join (dst w) (path_name (src w))) as [|n0 p0] eqn:Hd;
    [now contradiction Hplace|].
  unfold dst_isfile. rewrite Hdst. mstep_to_copy.
  destruct (faults E (OpGetmtimeSrc _)); mstep_to_copy;
    [intros Hrun; simplify_eq; auto|].
  rewrite Hc. mstep_to_copy.
  destruct (faults E (OpGetmtimeDst _)); mstep_to_copy;
    [intros Hrun; simplify_eq; auto|].
  rewrite Hdst. mstep_to_copy.
  rewrite bool_decide_false by lia. mstep_to_copy.
  intros Hrun; simplify_eq. split; [reflexivity | now repeat constructor].
Qed.

End RerunUnit.

Section RunAgain.

Variable E : env.
Variable w : BackupSelection.

(** X3: a backup made again copies nothing.  When a Task Unit that is
    not killed has run without an error signal, on a backup where no
    directory stands in the place of a file it lists and, for a selected
    file, the backup directory exists, then a Task Unit created anew with
    the same source, destination, exclusions and root flag, run on the
    backup the first one left and on the same source tree, calls
    [shutil.copy2] not once and emits no byte count, whatever fails and
    whenever it is cancelled. *)
Theorem rerun_copies_nothing (s s1 : world) (evs1 : list event)
    (E2 : env) (w2 : BackupSelection) :
  well_formed (src_fs E) = true ->
  (forall j, killed_at w E j = false) ->
  clear_of_directories w E s ->
  run w E s = (Ok tt, s1, evs1) ->
  Forall (fun e => is_error e = false) evs1 ->
  src_fs E2 = src_fs E ->
  src w2 = src w -> dst w2 = dst w -> root w2 = root w ->
  ignore_files w2 = ignore_files w -> ignore_extensions w2 = ignore_extensions w ->
  forall r s2 evs2,
    run w2 E2 s1 = (r, s2, evs2) ->
    copies s2 = copies s1 /\
    count_events is_memory_count evs2 = 0%nat /\
    memory_total evs2 = 0.
Proof.
  intros Hwf Hk Hclear Hrun Herr Htree Hsrc2 Hdst2 Hroot2 Hfiles2 Hext2 r s2 evs2 Hagain.
  assert (mapped_dst w2 = mapped_dst w) as Hmapped
    by (unfold mapped_dst; now rewrite Hsrc2, Hdst2, Hroot2).
  destruct (run_unfold E w s) as (r0 & s0 & evs0 & Hbody & Hrun0).
  rewrite Hrun0 in Hrun. injection Hrun as <- <-.
  apply Forall_app in Herr as [Herr0 Herr1]. apply Forall_app in Herr1 as [Herr1 _].
  destruct (run_unfold E2 w2 s0) as (r' & s' & evs' & Hbody' & Hrun').
  rewrite Hrun' in Hagain. injection Hagain as <- <- <-.
  assert (copies s' = copies s0 /\ Forall (fun e => is_memory_count e = false) evs')
    as [Hcopies Hquiet].
  2:{ split; [exact Hcopies|].
      assert (Forall (fun e => is_memory_count e = false)
                (evs' ++ handler_signals w2 r' ++ [Finished])) as Hall.
      { apply Forall_app. split; [exact Hquiet|].
        destruct r' as [[]|[|op]]; now repeat constructor. }
      split; [now apply count_events_none|].
      clear -Hall. induction Hall as [|e l He _ IH]; [reflexivity|].
      unfold memory_total in IH |- *. cbn [foldr].
      destruct e; try discriminate; cbn [memory_of]; lia. }
  unfold clear_of_directories in Hclear.
  unfold run_body in Hbody, Hbody'.
  apply bind_inv in Hbody as [(is_dir & t1 & e1 & e2 & H1 & Hbody & ->)|(e & H1 & _)];
    [|discriminate].
  apply bind_inv in Hbody' as [(is_dir' & t1' & e1' & e2' & H1' & Hbody' & ->)|(e & H1' & _)];
    [|discriminate].
  unfold os_path_isdir in H1, H1'. rewrite Htree, Hsrc2 in H1'.
  injection H1 as <- <- <-. injection H1' as <- <- <-.
  cbn [app] in Herr0 |- *.
  destruct (lookup_path (src_fs E) (src w)) as [[size mtime| |entries]|] eqn:Hsrc;
    cbn [is_dir_node] in Hbody, Hbody'.
  - apply bind_inv in Hbody as [(is_file & t2 & e3 & e4 & H2 & Hbody & ->)|(e & H2 & _)];
      [|discriminate].
    apply bind_inv in Hbody' as [(is_file' & t2' & e3' & e4' & H2' & Hbody' & ->)|(e & H2' & _)];
      [|discriminate].
    unfold os_path_isfile in H2, H2'. rewrite Htree, Hsrc2 in H2'. rewrite Hsrc in H2, H2'.
    injection H2 as <- <- <-. injection H2' as <- <- <-.
    cbn [is_file_node app] in Hbody, Hbody', Herr0 |- *.
    destruct Hclear as [Hdst Hclear].
    assert (r0 = Ok tt) as ->.
    { destruct r0 as [[]|[|op]]; [reflexivity| |].
      - pose proof (run_file_progress E w _ _ _ _ _ _ Hsrc Hbody Herr0) as Hno.
        now contradiction Hno.
      - apply Forall_cons in Herr1 as [Herr1 _]. discriminate. }
    pose proof (run_file_settles E w size mtime s s0 e4 Hsrc Hdst Hclear Hbody Herr0)
      as Hset.
    assert (path_join (dst w) (path_name (src w)) <> []) as Hplace.
    { intros Heq. rewrite Heq in Hclear. discriminate. }
    rewrite <- Htree, <- Hsrc2 in Hsrc.
    rewrite <- Hsrc2, <- Hdst2, <- Hext2 in Hset. rewrite <- Hsrc2, <- Hdst2 in Hplace.
    destruct (run_file_settled E2 w2 size mtime s0 s' r' e4' Hsrc Hplace Hset Hbody')
      as [-> Hq].
    split; [reflexivity | exact Hq].
  - apply bind_inv in Hbody' as [(is_file' & t2' & e3' & e4' & H2' & Hbody' & ->)|(e & H2' & _)];
      [|discriminate].
    unfold os_path_isfile in H2'. rewrite Htree, Hsrc2, Hsrc in H2'.
    injection H2' as <- <- <-.
    cbn [is_file_node] in Hbody'. injection Hbody' as <- <- <-.
    split; [reflexivity | constructor].
  - assert (well_formed (Dir entries) = true) as Hwfd
      by (eapply well_formed_lookup; eassumption).
    apply well_formed_dir in Hwfd as [Hnd Hall].
    assert (Forall (fun entry =>
                      entry.1 <> "" /\
                      lookup_path (src_fs E) (src w ++ [entry.1]) = Some entry.2) entries)
      as Hentries.
    { rewrite Forall_forall in Hall |- *. intros [name c] Hin.
      split; [now apply (Hall _ Hin)|]. now apply (lookup_path_entry _ _ entries). }
    destruct (run_dir_loop E w entries s s0 r0 e2 Hsrc Hbody)
      as [(t0 & Hc0 & Hf0 & Hloop)|(_ & _ & Hstop)].
    2:{ exfalso. destruct r0 as [[]|[|op]].
        - now apply Hstop.
        - pose proof (run_dir_progress E w entries _ _ _ _ Hk Hsrc
                        (proj2 (well_formed_dir entries) (conj Hnd Hall)) Hbody Herr0)
            as Hno.
          now contradiction Hno.
        - apply Forall_cons in Herr1 as [Herr1 _]. discriminate. }
    assert (r0 = Ok tt) as ->.
    { destruct r0 as [[]|[|op]]; [reflexivity| |].
      - pose proof (for_each_progress E w _ entries Hk Hentries _ _ _ _ _ Hloop Herr0)
          as Hno.
        now contradiction Hno.
      - apply Forall_cons in Herr1 as [Herr1 _]. discriminate. }
    assert (forall entry : string * node,
              (List.length (mapped_dst w) < List.length (mapped_dst w ++ [entry.1]))%nat)
      as Hlonger.
    { intros entry. rewrite length_app. cbn [List.length]. lia. }
    assert (Forall (fun entry =>
                      is_file_node entry.2 = true ->
                      dst_isdir (dst_fs t0) (mapped_dst w ++ [entry.1]) = false)
              entries) as Hclear0.
    { rewrite Forall_forall in Hclear |- *. intros entry Hin Hkind.
      specialize (Hclear entry Hin Hkind). unfold dst_isdir in Hclear |- *.
      destruct (mapped_dst w ++ [entry.1]) eqn:Hq; [assumption|].
      rewrite Hf0; [assumption|]. rewrite <- Hq. apply Hlonger. }
    destruct (for_each_settles E w (mapped_dst w) entries Hnd Hentries _ _ _ _
                Hclear0 Hloop Herr0)
      as [Hset _].
    rewrite <- Htree, <- Hsrc2 in Hsrc.
    destruct (run_dir_loop E2 w2 entries s0 s' r' e2' Hsrc Hbody')
      as [(t0' & Hc0' & Hf0' & Hloop')|(Hc' & Hq' & _)]; [|now split].
    rewrite Hmapped in Hf0', Hloop'.
    assert (Forall (entry_settled w2 (mapped_dst w) t0') entries) as Hset'.
    { rewrite Forall_forall in Hset |- *. intros [name c] Hin.
      specialize (Hset _ Hin). unfold entry_settled in Hset |- *.
      cbn [fst snd] in Hset |- *. destruct c as [size mtime| |sub]; try exact I.
      rewrite Hsrc2, Hfiles2, Hext2.
      intros Hi He. destruct (Hset Hi He) as (dsize & dmtime & Hfile & Hle).
      exists dsize, dmtime. split; [|exact Hle].
      rewrite Hf0'; [exact Hfile|]. apply (Hlonger (name, File size mtime)). }
    assert (Forall (fun entry =>
                      entry.1 <> "" /\
                      lookup_path (src_fs E2) (src w2 ++ [entry.1]) = Some entry.2) entries)
      as Hentries2 by now rewrite Htree, Hsrc2.
    destruct (for_each_settled E2 w2 (mapped_dst w) entries t0' Hentries2 Hset'
                _ _ _ _ Hloop')
      as [-> Hq'].
    split; [exact Hc0' | exact Hq'].
  - apply bind_inv in Hbody' as [(is_file' & t2' & e3' & e4' & H2' & Hbody' & ->)|(e & H2' & _)];
      [|discriminate].
    unfold os_path_isfile in H2'. rewrite Htree, Hsrc2, Hsrc in H2'.
    injection H2' as <- <- <-.
    injection Hbody' as <- <- <-. split; [reflexivity | constructor].
Qed.

End RunAgain.

(** ** The slots of the main window *)

Section Slots.

Lemma list_remove_first {A} `{EqDecision A} (x : A) (before after : list A) :
  x ∉ before -> list_remove x (before ++ x :: after) = Some (before ++ after).
Proof.
  induction before as [|y before IH]; intros Hx; cbn [list_remove app].
  - now rewrite decide_True.
  - apply not_elem_of_cons in Hx as [Hne Hx].
    rewrite decide_False by congruence. now rewrite IH.
Qed.

(** X4: the loop of [load_settings] over the excluded extensions drops
    exactly the items that are empty, hold a digit or hold no
    alphanumeric character: what is left is the list filtered, in its
    order and with its repetitions. *)
Theorem clean_extensions_filter (extensions : list string) :
  clean_extensions extensions =
    filter (fun item => bad_extension item = false) extensions /\
  Forall (fun item =>
            item <> "" /\ any_char isdigit item = false /\
            any_char isalnum item = true)
    (clean_extensions extensions).
Proof.
  assert (forall rest kept,
            Forall (fun item => bad_extension item = false) kept ->
            fold_left
              (fun acc item =>
                 if bad_extension item
                 then match list_remove item acc with Some r => r | None => acc end
                 else acc)
              rest (kept ++ rest) =
            kept ++ filter (fun item => bad_extension item = false) rest) as Hloop.
  { induction rest as [|x rest IH]; intros kept Hkept; cbn [fold_left].
    - reflexivity.
    - rewrite filter_cons. destruct (bad_extension x) eqn:Hx.
      + rewrite list_remove_first.
        * rewrite decide_False by discriminate. now apply IH.
        * intros Hin. rewrite Forall_forall in Hkept. apply Hkept in Hin. congruence.
      + rewrite decide_True by reflexivity.
        rewrite (cons_middle x kept rest), app_assoc.
        rewrite IH; [now rewrite <- app_assoc|].
        apply Forall_app. split; [assumption | now constructor]. }
  assert (clean_extensions extensions =
          filter (fun item => bad_extension item = false) extensions) as Heq.
  { unfold clean_extensions. apply (Hloop extensions []). constructor. }
  split; [exact Heq|]. rewrite Heq. apply Forall_forall. intros item Hin.
  apply list_elem_of_filter in Hin as [Hgood _]. unfold bad_extension in Hgood.
  apply orb_false_elim in Hgood as [Hgood Halnum].
  apply orb_false_elim in Hgood as [Hempty Hdigit].
  apply bool_decide_eq_false in Hempty. apply negb_false_iff in Halnum. auto.
Qed.













End Slots.

(** ** Settings as JSON *)

Section Json.

(** X6: a settings object that is encoded and decoded again comes back
    as it was: [decode_backup_settings(encode_backup_settings(o))] has
    the four attributes of [o], and [encode_backup_settings] raises its
    [TypeError] on every object that is not a [BackupSettings]. *)
Theorem decode_encode_settings (o : Py.object) :
  match o with
  | Py.Settings settings =>
      exists dct,
        encode_backup_settings o = Some dct /\
        decode_backup_settings dct = Loaded settings
  | _ => encode_backup_settings o = None
  end.
Proof.
  destruct o as [[included excluded extensions directory]| |]; try reflexivity.
  eexists. split; [reflexivity|].
  unfold decode_backup_settings. cbn [Py.included_paths Py.excluded_paths
    Py.excluded_file_extensions Py.root_backup_directory].
  rewrite bool_decide_true by (rewrite lookup_insert_eq; eauto).
  repeat (rewrite ?lookup_insert_eq; rewrite ?lookup_insert_ne by discriminate).
  reflexivity.
Qed.

(** X7: [decode_backup_settings] gives the settings exactly when the
    dict has the key [BackupSettings], whatever its value, and the four
    keys of the attributes, whatever else it holds; it gives 0 and says
    nothing exactly when the key [BackupSettings] is missing, as in the
    dict of a backup log; otherwise it logs the first missing key. *)
Theorem decode_backup_settings_keys (dct : dict) :
  (forall settings,
     decode_backup_settings dct = Loaded settings <->
     is_Some (dct !! "BackupSettings") /\
     dct !! "included_paths" = Some (Py.included_paths settings) /\
     dct !! "excluded_paths" = Some (Py.excluded_paths settings) /\
     dct !! "excluded_extensions" = Some (Py.excluded_file_extensions settings) /\
     dct !! "backup_root_directory" = Some (Py.root_backup_directory settings)) /\
  (decode_backup_settings dct = NotSettings <-> dct !! "BackupSettings" = None) /\
  (forall key,
     decode_backup_settings dct = KeyErrorLogged key ->
     dct !! key = None /\
     key ∈ ["included_paths"; "excluded_paths"; "excluded_extensions";
            "backup_root_directory"]) /\
  (forall entry log,
     encode_backup_log (Py.LogEntry entry) = Some log ->
     decode_backup_settings log = NotSettings).
Proof.
  unfold decode_backup_settings. split; [|split; [|split]].
  - intros settings. split.
    + case_bool_decide as Hflag; [|discriminate]. intros H. split; [exact Hflag|].
      destruct (dct !! "included_paths"); [|discriminate].
      destruct (dct !! "excluded_paths"); [|discriminate].
      destruct (dct !! "excluded_extensions"); [|discriminate].
      destruct (dct !! "backup_root_directory"); [|discriminate].
      injection H as <-. repeat split.
    + intros (Hflag & -> & -> & -> & ->). rewrite bool_decide_true by assumption.
      now destruct settings.
  - split.
    + case_bool_decide as Hflag.
      * repeat (destruct (dct !! _); try discriminate).
      * intros _. now apply eq_None_not_Some.
    + intros Hnone. rewrite bool_decide_false; [reflexivity|].
      rewrite Hnone. now intros [? ?].
  - intros key. case_bool_decide as Hflag; [|discriminate].
    destruct (dct !! "included_paths") eqn:H1;
      [|intros [= <-]; split; [assumption | set_solver]].
    destruct (dct !! "excluded_paths") eqn:H2;
      [|intros [= <-]; split; [assumption | set_solver]].
    destruct (dct !! "excluded_extensions") eqn:H3;
      [|intros [= <-]; split; [assumption | set_solver]].
    destruct (dct !! "backup_root_directory") eqn:H4;
      [discriminate|intros [= <-]; split; [assumption | set_solver]].
  - intros entry log [= <-]. rewrite bool_decide_false; [reflexivity|].
    repeat (rewrite lookup_insert_ne by discriminate). rewrite lookup_empty.
    now intros [? ?].
Qed.

End Json.

(** ** Saving and loading the settings *)

Section SaveLoad.

Lemma split_fields (sep : ascii) (s : string) :
  Forall (fun field => any_char (Ascii.eqb sep) field = false) (split sep s).
Proof.
  induction s as [|c s IH]; cbn [split]; [now repeat constructor|].
  destruct (Ascii.eqb_spec c sep) as [->|Hne].
  - constructor; [reflexivity | exact IH].
  - pose proof (split_nonempty sep s) as Hsplit.
    destruct (split sep s) as [|field fields]; [contradiction|].
    apply Forall_cons in IH as [Hfield Hfields]. constructor; [|exact Hfields].
    cbn [any_char]. rewrite Hfield.
    destruct (Ascii.eqb_spec sep c) as [->|_]; [contradiction | reflexivity].
Qed.

Lemma split_field_then (sep : ascii) (field rest : string) :
  any_char (Ascii.eqb sep) field = false ->
  split sep (field +:+ String sep rest) = field :: split sep rest.
Proof.
  induction field as [|c field IH]; intros Hfield.
  - change ("" +:+ String sep rest) with (String sep rest).
    cbn [split]. now rewrite Ascii.eqb_refl.
  - cbn [any_char] in Hfield. apply orb_false_elim in Hfield as [Hc Hfield].
    change (String c field +:+ String sep rest)
      with (String c (field +:+ String sep rest)).
    cbn [split]. rewrite (IH Hfield).
    destruct (Ascii.eqb_spec c sep) as [->|_]; [|reflexivity].
    now rewrite Ascii.eqb_refl in Hc.
Qed.

Lemma split_one_field (sep : ascii) (field : string) :
  any_char (Ascii.eqb sep) field = false -> split sep field = [field].
Proof.
  induction field as [|c field IH]; intros Hfield; [reflexivity|].
  cbn [any_char] in Hfield. apply orb_false_elim in Hfield as [Hc Hfield].
  cbn [split]. rewrite (IH Hfield).
  destruct (Ascii.eqb_spec c sep) as [->|_]; [|reflexivity].
  now rewrite Ascii.eqb_refl in Hc.
Qed.

(** splitting the joined fields gives the fields back *)
Lemma split_join (sep : ascii) (fields : list string) :
  fields <> [] ->
  Forall (fun field => any_char (Ascii.eqb sep) field = false) fields ->
  split sep (join_with sep fields) = fields.
Proof.
  induction fields as [|field fields IH]; intros Hne Hall; [contradiction|].
  apply Forall_cons in Hall as [Hfield Hall].
  destruct fields as [|next fields]; cbn [join_with].
  - now apply split_one_field.
  - rewrite (split_field_then _ _ _ Hfield). f_equal. now apply IH.
Qed.

Lemma join_with_empty (sep : ascii) (fields : list string) :
  Forall (fun field => field <> "") fields ->
  join_with sep fields = "" -> fields = [].
Proof.
  destruct fields as [|field fields]; [reflexivity|].
  intros Hall. apply Forall_cons in Hall as [Hfield _].
  destruct fields as [|next fields]; cbn [join_with]; [contradiction|].
  destruct field; [contradiction | discriminate].
Qed.

Lemma filter_filter_same {A} (P : A -> Prop) `{forall x, Decision (P x)} (l : list A) :
  filter P (filter P l) = filter P l.
Proof.
  induction l as [|x l IH]; [reflexivity|].
  rewrite filter_cons. destruct (decide (P x)) as [Hx|Hx]; [|exact IH].
  rewrite filter_cons, decide_True by assumption. now rewrite IH.
Qed.

(** X8: saving the settings and loading them restores the two path
    lists, shows their texts in the two views, makes the resolved
    location the location (the current directory when there was none),
    and leaves of the text of excluded extensions the fields that are
    not empty, hold no digit and hold an alphanumeric character, joined
    by commas; and with a location whose resolved path resolves to
    itself, saving and loading once more changes nothing. *)
Theorem save_load_round_trip (E : env) (mw other : MainWindow) :
  let loaded := load_settings (saved_settings E mw) other in
  included_paths_list loaded = included_paths_list mw /\
  excluded_paths_list loaded = excluded_paths_list mw /\
  files_to_include_model loaded = appended_rows (included_paths_list mw) /\
  files_to_exclude_model loaded = appended_rows (excluded_paths_list mw) /\
  root_backup_dir loaded =
    match root_backup_dir mw with
    | NoLocation | EmptyText => CurrentDirectory
    | CurrentDirectory => At (resolve E (cwd E))
    | At directory => At (resolve E directory)
    end /\
  excluded_extensions_list loaded =
    filter (fun item => bad_extension item = false) (split "," (input_exclude_by mw)) /\
  input_exclude_by loaded = join_with "," (excluded_extensions_list loaded) /\
  (forall directory,
     root_backup_dir mw = At directory ->
     resolve E (resolve E directory) = resolve E directory ->
     load_settings (saved_settings E loaded) loaded = loaded).
Proof.
  intros loaded.
  set (kept := filter (fun item => bad_extension item = false)
                 (split "," (input_exclude_by mw))).
  assert (excluded_extensions_list loaded = kept /\
          input_exclude_by loaded = join_with "," kept) as [Hlist Htext].
  { unfold loaded, load_settings, saved_settings, save_settings, with_inputs.
    cbn [excluded_extensions_list input_exclude_by excluded_file_extensions].
    destruct (decide (input_exclude_by mw = "")) as [Hempty|Hfull].
    - subst kept. rewrite Hempty. split; reflexivity.
    - rewrite (proj1 (clean_extensions_filter _)). fold kept.
      split; [reflexivity|].
      pose proof (split_nonempty "," (input_exclude_by mw)) as Hsplit.
      now destruct (split "," (input_exclude_by mw)). }
  repeat (split; [reflexivity|]).
  split; [cbn; now destruct (root_backup_dir mw)|].
  split; [exact Hlist|].
  split; [now rewrite Hlist|].
  intros directory Hset Hresolved.
  assert (Forall (fun field => any_char (Ascii.eqb ",") field = false) kept) as Hfields.
  { apply Forall_forall. intros field Hin. apply list_elem_of_filter in Hin as [_ Hin].
    pose proof (split_fields "," (input_exclude_by mw)) as Hall.
    rewrite Forall_forall in Hall. now apply Hall. }
  assert (Forall (fun field => field <> "") kept) as Hfull.
  { apply Forall_forall. intros field Hin. apply list_elem_of_filter in Hin as [Hgood _].
    intros ->. discriminate. }
  assert (clean_extensions (excluded_extensions_list (save_settings loaded)) = kept /\
          match excluded_extensions_list (save_settings loaded) with
          | [] => ""
          | _ => join_with "," kept
          end = join_with "," kept) as [Hagain Htext'].
  { unfold save_settings, with_inputs. cbn [excluded_extensions_list]. rewrite Htext.
    destruct (decide (join_with "," kept = "")) as [Hempty|Hsome].
    - rewrite (join_with_empty _ _ Hfull Hempty). split; reflexivity.
    - assert (kept <> []) as Hkept by (intros Heq; now rewrite Heq in Hsome).
      rewrite (split_join _ _ Hkept Hfields).
      rewrite (proj1 (clean_extensions_filter _)). unfold kept at 1 3.
      rewrite filter_filter_same. fold kept. split; [reflexivity|].
      now destruct kept. }
  assert (root_backup_directory (saved_settings E mw) = Some (resolve E directory))
    as Hsaved by (cbn; now rewrite Hset).
  assert (root_backup_directory (saved_settings E loaded) = Some (resolve E directory))
    as Hsaved'.
  { unfold saved_settings. cbn [root_backup_directory].
    unfold loaded at 1. unfold load_settings. cbn [with_inputs root_backup_dir].
    rewrite Hsaved. now rewrite Hresolved. }
  unfold load_settings at 1.
  change (excluded_file_extensions (saved_settings E loaded))
    with (excluded_extensions_list (save_settings loaded)).
  change (included_paths (saved_settings E loaded)) with (included_paths_list loaded).
  change (excluded_paths (saved_settings E loaded)) with (excluded_paths_list loaded).
  rewrite Hsaved', Hagain, Htext'. rewrite <- Htext, <- Hlist.
  unfold loaded at 1 2 3 4 8. unfold load_settings at 1 2 3 4 5.
  cbn [with_inputs included_paths_list excluded_paths_list].
  unfold loaded. unfold load_settings. rewrite Hsaved. reflexivity.
Qed.

End SaveLoad.

(** ** When a backup is complete *)

Section Completion.

Lemma by_units_total (evs : list event) : by_units evs -> 0 <= progress_total evs.
Proof.
  induction 1 as [|e evs He _ IH]; [reflexivity|].
  unfold progress_total in *. cbn [foldr].
  destruct e; cbn [progress_of]; lia.
Qed.

Lemma progress_total_cons (e : event) (evs : list event) :
  progress_total (e :: evs) = progress_of e + progress_total evs.
Proof. reflexivity. Qed.

Lemma memory_total_cons (e : event) (evs : list event) :
  memory_total (e :: evs) = memory_of e + memory_total evs.
Proof. reflexivity. Qed.

(** a signal that does not bring the counter to the maximum leaves the
    logs, the location and the inputs as they are *)
Lemma deliver_short (E : env) (e : event) (mw : MainWindow) :
  progress mw + progress_of e <> maximum (progress_bar mw) \/ is_progress e = false ->
  backup_logs (window_after (deliver E e mw)) = backup_logs mw /\
  log_entry (window_after (deliver E e mw)) =
    {| total_count := maximum (progress_bar mw);
       log_total_memory := total_memory mw + memory_of e;
       included_in_backup := included_paths_list mw;
       excluded_from_backup := (excluded_paths_list mw, excluded_extensions_list mw) |} /\
  progress (window_after (deliver E e mw)) = progress mw + progress_of e /\
  root_backup_dir (window_after (deliver E e mw)) = root_backup_dir mw.
Proof.
  intros Hshort. unfold log_entry.
  destruct e as [|count| | | |];
    cbn [deliver progress_of memory_of is_progress window_after] in *;
    try (cbn; rewrite ?Z.add_0_r; auto; fail).
  unfold update_progress. cbn [progress progress_bar].
  rewrite setValue_maximum.
  destruct (Z.eqb_spec (progress mw + count) (maximum (progress_bar mw))) as [Heq|_].
  - destruct Hshort as [Hne|]; [contradiction | discriminate].
  - cbn. rewrite setValue_maximum, Z.add_0_r. auto.
Qed.

(** the signal that brings the counter to the maximum: a log is saved in
    the directory of the location, unless [open] fails or there never was
    a location; the counter is left at the maximum *)
Lemma deliver_complete (E : env) (count : Z) (mw : MainWindow) :
  progress mw + count = maximum (progress_bar mw) ->
  backup_logs (window_after (deliver E (Progress count) mw)) =
    match directory E (root_backup_dir mw) with
    | Some save_dir =>
        if faults E (OpOpenLog save_dir) then backup_logs mw
        else backup_logs mw ++ [(save_dir, log_entry mw)]
    | None => backup_logs mw
    end /\
  progress (window_after (deliver E (Progress count) mw)) = maximum (progress_bar mw) /\
  maximum (progress_bar (window_after (deliver E (Progress count) mw))) =
    maximum (progress_bar mw) /\
  match directory E (root_backup_dir mw) with
  | Some _ =>
      exists mw', deliver E (Progress count) mw = Returned mw' /\
                  included_paths_list mw' = [] /\ root_backup_dir mw' = EmptyText
  | None =>
      exists mw', deliver E (Progress count) mw = Raised mw' /\
                  included_paths_list mw' = included_paths_list mw /\
                  root_backup_dir mw' = NoLocation
  end.
Proof.
  intros Hmax. cbn [deliver]. unfold update_progress, save_backup_log.
  cbn [progress progress_bar root_backup_dir total_memory included_paths_list
       excluded_paths_list excluded_extensions_list].
  rewrite setValue_maximum. rewrite (proj2 (Z.eqb_eq _ _) Hmax).
  destruct (directory E (root_backup_dir mw)) as [save_dir|] eqn:Hdir.
  - destruct (faults E (OpOpenLog save_dir)); cbn [window_after];
      (split; [|split; [|split]]); try (cbn; rewrite ?setValue_maximum; auto; fail);
      eexists; (split; [reflexivity|]); split; reflexivity.
  - cbn [window_after]. split; [reflexivity|].
    split; [cbn; exact Hmax|]. split; [cbn; now rewrite setValue_maximum|].
    eexists. split; [reflexivity|]. split; [reflexivity|]. cbn.
    now destruct (root_backup_dir mw).
Qed.

Lemma deliver_all_short (E : env) (evs : list event) :
  forall mw,
    by_units evs ->
    ~ (progress mw < maximum (progress_bar mw) <= progress mw + progress_total evs) ->
    backup_logs (deliver_all E evs mw) = backup_logs mw /\
    log_entry (deliver_all E evs mw) =
      {| total_count := maximum (progress_bar mw);
         log_total_memory := total_memory mw + memory_total evs;
         included_in_backup := included_paths_list mw;
         excluded_from_backup := (excluded_paths_list mw, excluded_extensions_list mw) |} /\
    progress (deliver_all E evs mw) = progress mw + progress_total evs /\
    root_backup_dir (deliver_all E evs mw) = root_backup_dir mw.
Proof.
  induction evs as [|e evs IH]; intros mw Hunits Hout; cbn [deliver_all fold_left].
  - unfold log_entry, progress_total, memory_total. cbn [foldr].
    rewrite !Z.add_0_r. auto.
  - apply Forall_cons in Hunits as [He Hunits].
    pose proof (by_units_total _ Hunits) as Hpos.
    rewrite progress_total_cons, memory_total_cons in *.
    destruct (deliver_short E e mw) as (Hlogs & Hentry & Hprogress & Hroot).
    { destruct e; cbn [progress_of is_progress] in *; auto. left. lia. }
    pose proof (f_equal total_count Hentry) as Hmax.
    pose proof (f_equal log_total_memory Hentry) as Hmem.
    pose proof (f_equal included_in_backup Hentry) as Hinc.
    pose proof (f_equal excluded_from_backup Hentry) as Hexc.
    unfold log_entry in Hmax, Hmem, Hinc, Hexc.
    cbn [total_count log_total_memory included_in_backup excluded_from_backup]
      in Hmax, Hmem, Hinc, Hexc. injection Hexc as Hexc Hext.
    fold (deliver_all E evs (window_after (deliver E e mw))).
    destruct (IH (window_after (deliver E e mw)) Hunits)
      as (Hlogs' & Hentry' & Hprogress' & Hroot').
    { rewrite Hmax, Hprogress. destruct e; cbn [progress_of] in *; lia. }
    rewrite Hlogs', Hlogs, Hentry', Hprogress', Hprogress, Hroot', Hroot.
    rewrite Hmax, Hmem, Hinc, Hexc, Hext.
    repeat split; [f_equal; lia | lia].
Qed.

(** X9: when a backup is reported complete, and what its log holds.
    With progress signalled by units, the signals of workers make the
    window save a backup log only when the counter, from the value it
    has, gets to the maximum of the progress bar: signals that do not
    take it there save nothing.  The unit that does saves one log in the
    directory of the backup location, with the maximum as file count,
    the inputs of the session, and as total the bytes signalled before
    that unit; bytes signalled after it are not in the log, and no later
    unit saves another one.  It saves no log when [open] fails, and none
    when there never was a location: then the slot raises, and the inputs
    of the session are not cleared. *)
Theorem completion_log (E : env) (mw : MainWindow) (evs : list event) :
  by_units evs ->
  (~ (progress mw < maximum (progress_bar mw) <= progress mw + progress_total evs) ->
   backup_logs (deliver_all E evs mw) = backup_logs mw) /\
  (forall before after,
     evs = before ++ Progress 1 :: after ->
     progress mw + progress_total before + 1 = maximum (progress_bar mw) ->
     backup_logs (deliver_all E evs mw) =
       match directory E (root_backup_dir mw) with
       | Some save_dir =>
           if faults E (OpOpenLog save_dir) then backup_logs mw
           else
             backup_logs mw ++
             [(save_dir,
               {| total_count := maximum (progress_bar mw);
                  log_total_memory := total_memory mw + memory_total before;
                  included_in_backup := included_paths_list mw;
                  excluded_from_backup :=
                    (excluded_paths_list mw, excluded_extensions_list mw) |})]
       | None => backup_logs mw
       end /\
     match directory E (root_backup_dir mw) with
     | Some _ =>
         exists mw',
           deliver E (Progress 1) (deliver_all E before mw) = Returned mw' /\
           included_paths_list mw' = []
     | None =>
         exists mw',
           deliver E (Progress 1) (deliver_all E before mw) = Raised mw' /\
           included_paths_list mw' = included_paths_list mw
     end).
Proof.
  intros Hunits. split.
  - intros Hout. now apply deliver_all_short.
  - intros before after -> Hmax.
    apply Forall_app in Hunits as [Hbefore Hafter].
    apply Forall_cons in Hafter as [_ Hafter].
    pose proof (by_units_total _ Hbefore) as Hpos.
    unfold deliver_all at 1. rewrite fold_left_app. cbn [fold_left].
    fold (deliver_all E before mw).
    fold (deliver_all E after
            (window_after (deliver E (Progress 1) (deliver_all E before mw)))).
    destruct (deliver_all_short E before mw Hbefore)
      as (Hlogs & Hentry & Hprogress & Hroot); [lia|].
    pose proof (f_equal total_count Hentry) as Hsame. unfold log_entry in Hsame.
    cbn [total_count] in Hsame.
    pose proof (f_equal included_in_backup Hentry) as Hinc. unfold log_entry in Hinc.
    cbn [included_in_backup] in Hinc.
    destruct (deliver_complete E 1 (deliver_all E before mw))
      as (Hlog & Hp & Hm & Hend); [lia|].
    destruct (deliver_all_short E after
                (window_after (deliver E (Progress 1) (deliver_all E before mw)))
                Hafter) as (Hlogs' & _ & _); [lia|].
    rewrite Hlogs', Hlog, Hlogs, Hroot. fold (log_entry (deliver_all E before mw)).
    rewrite Hentry. rewrite Hroot in Hend. split; [reflexivity|].
    destruct (directory E (root_backup_dir mw)).
    + destruct Hend as (mw' & Hd & Hi & _). eauto.
    + destruct Hend as (mw' & Hd & Hi & _). rewrite Hinc in Hi. eauto.
Qed.

End Completion.

(** ** The counters along a session *)

Section Session.

Variable E : env.

(** what every step keeps is kept along a schedule *)
Lemma rtc_keeps (P : system -> Prop) (sys sys' : system) :
  (forall sys1 sys2, step E sys1 sys2 -> P sys1 -> P sys2) ->
  rtc (step E) sys sys' -> P sys -> P sys'.
Proof.
  intros Hstep. induction 1 as [sys|sys sys1 sys2 H1 _ IH]; [auto|].
  intros Hsys. apply IH. now apply (Hstep sys).
Qed.

(** a backup that comes to rest is a schedule of the application *)
Lemma backup_steps (fuel : nat) (mw : MainWindow) (d : world) (sys : system) :
  backup fuel E mw d = Some sys -> rtc (step E) (started E mw d) sys.
Proof. unfold backup. intros Hrun. now apply drive_steps in Hrun as [Hsteps _]. Qed.

(** a worker signals progress by units *)
Lemma run_by_units (w : BackupSelection) (s s' : world) (r : result unit)
    (evs : list event) :
  run w E s = (r, s', evs) -> by_units evs.
Proof.
  intros Hrun. destruct (run_unfold E w s) as (r0 & s0 & evs0 & Hbody & Hrun0).
  rewrite Hrun0 in Hrun. injection Hrun as <- <- <-.
  apply run_body_signals in Hbody. apply Forall_app. split.
  - eapply Forall_impl; [exact Hbody|]. intros [] He; cbn in He |- *; auto.
  - apply Forall_app. split; [destruct r0 as [|[|]]|]; now repeat constructor.
Qed.

Lemma run_backup_maximum (mw : MainWindow) (backup_dir : path) :
  root_backup_dir mw = At backup_dir ->
  maximum (progress_bar (run_backup E mw)) =
    Z.max 0 (count_total_files (src_fs E) (files_to_include_model mw)) /\
  backup_logs (run_backup E mw) = backup_logs mw.
Proof.
  intros Hdir. unfold run_backup. rewrite Hdir. unfold start_workers. cbv zeta. split.
  - now rewrite enqueue_all_progress_bar.
  - match goal with
    | |- backup_logs (fold_left _ ?items ?start) = _ =>
        change (backup_logs mw) with (backup_logs start); generalize start
    end.
    induction (files_to_include_model mw) as [|item items IH]; intros start;
      [reflexivity|].
    cbn [fold_left]. now rewrite IH.
Qed.

(** X10: a counter left by earlier backups keeps a backup from being
    reported complete.  [cleanup] leaves the counter of progress where
    the last backup took it; when the files [count_total_files] counts
    for a new backup are not more than that, no schedule of the new
    backup brings the counter to the maximum of the progress bar: no
    backup log is saved, whatever the workers copy. *)
Theorem stale_counter_blocks_completion (mw : MainWindow) (backup_dir : path)
    (d : world) (sys : system) :
  root_backup_dir mw = At backup_dir ->
  0 <= progress mw ->
  count_total_files (src_fs E) (files_to_include_model mw) <= progress mw ->
  rtc (step E) (started E mw d) sys ->
  backup_logs (window sys) = backup_logs mw /\
  maximum (progress_bar (window sys)) <= progress (window sys).
Proof.
  intros Hdir Hpos Hcount Hsteps.
  set (P := fun sys : system =>
              (backup_logs (window sys) = backup_logs mw /\
               maximum (progress_bar (window sys)) <= progress (window sys)) /\
              by_units (signals sys)).
  apply (rtc_keeps P _ _) in Hsteps as [Hend _]; [exact Hend| |].
  - clear. intros sys1 sys2 Hstep [[Hlogs Hmax] Hunits].
    destruct Hstep as [sys e rest Hsig|sys i before after _|sys].
    + rewrite Hsig in Hunits. apply Forall_cons in Hunits as [He Hunits].
      destruct (deliver_short E e (window sys)) as (Hlogs' & Hentry & Hprogress & _).
      { destruct e; cbn [progress_of is_progress] in *; auto. left. lia. }
      pose proof (f_equal total_count Hentry) as Hsame. unfold log_entry in Hsame.
      cbn [total_count] in Hsame.
      split; [|exact Hunits]. cbn [handle window].
      rewrite Hlogs', Hsame, Hprogress. split; [exact Hlogs|].
      destruct e; cbn [progress_of] in *; lia.
    + unfold work. cbn [dequeue window disk signals].
      destruct (workers (with_workers _ _ _) !! i) as [w|]; [|now split].
      destruct (run w E (disk sys)) as [[r d'] evs] eqn:Hrun. cbn [window signals].
      split; [now split|]. apply Forall_app. split; [exact Hunits|].
      now apply run_by_units in Hrun.
    + now split.
  - destruct (run_backup_maximum mw backup_dir Hdir) as [Hmax Hlogs].
    destruct (run_backup_counters E mw) as [Hprogress _].
    split; [|constructor]. cbn [started window].
    rewrite Hmax, Hlogs, Hprogress. split; [reflexivity | lia].
Qed.

Lemma memory_total_app (l1 l2 : list event) :
  memory_total (l1 ++ l2) = memory_total l1 + memory_total l2.
Proof.
  unfold memory_total. induction l1 as [|e l1 IH]; cbn [app foldr]; [reflexivity|].
  rewrite IH. lia.
Qed.

(** X11: along every schedule of the application, the two counters of
    the window are what they were plus the sums of the progress and of
    the byte counts of the signals handled since, whether or not the
    backup was cancelled or reported complete in between. *)
Theorem counters_sum_handled_signals (sys sys' : system) :
  rtc (step E) sys sys' ->
  exists since,
    handled sys' = handled sys ++ since /\
    progress (window sys') = progress (window sys) + progress_total since /\
    total_memory (window sys') = total_memory (window sys) + memory_total since.
Proof.
  induction 1 as [sys|sys sys1 sys2 Hstep _ (since & Hh & Hp & Hm)].
  - exists []. rewrite app_nil_r. unfold progress_total, memory_total. cbn [foldr].
    split; [reflexivity | lia].
  - assert (exists first,
              handled sys1 = handled sys ++ first /\
              progress (window sys1) = progress (window sys) + progress_total first /\
              total_memory (window sys1) =
                total_memory (window sys) + memory_total first)
      as (first & Hh1 & Hp1 & Hm1).
    { destruct Hstep as [sys e rest Hsig|sys i before after _|sys].
      - exists [e]. split; [reflexivity|]. cbn [handle window].
        unfold progress_total, memory_total. cbn [foldr].
        destruct e as [|count| | | |]; cbn [deliver progress_of memory_of window_after];
          try (cbn; lia).
        destruct (update_progress_counters E count (window sys)) as [-> ->]. lia.
      - exists []. rewrite app_nil_r. unfold work. cbn [dequeue window disk signals].
        destruct (workers (with_workers _ _ _) !! i) as [w|];
          [destruct (run w E (disk sys)) as [[r d'] evs]|];
          unfold progress_total, memory_total; cbn [foldr window handled];
          (split; [reflexivity|]); cbn; lia.
      - exists []. rewrite app_nil_r.
        unfold progress_total, memory_total; cbn [foldr];
          (split; [reflexivity|]); cbn; lia. }
    exists (first ++ since). rewrite Hh, Hh1, Hp, Hp1, Hm, Hm1, <- app_assoc.
    split; [reflexivity|].
    rewrite progress_total_app, memory_total_app. lia.
Qed.

End Session.

(** ** The backup after a run *)

Section Backup_kept.

Variable E : env.

Lemma mkdirs_lookup_cases (d : gmap path dentry) (p q : path) :
  mkdirs d p !! q = if decide (q ∈ ancestors p) then Some DDir else d !! q.
Proof.
  unfold mkdirs. induction (ancestors p) as [|a l IH]; cbn [foldr].
  - rewrite decide_False; [reflexivity | apply not_elem_of_nil].
  - destruct (decide (q = a)) as [->|Hne].
    + rewrite lookup_insert_eq, decide_True; [reflexivity | left].
    + rewrite lookup_insert_ne by congruence. rewrite IH.
      destruct (decide (q ∈ l)) as [Hin|Hout].
      * rewrite decide_True; [reflexivity | now right].
      * rewrite decide_False; [reflexivity|].
        intros Hin. apply elem_of_cons in Hin as [?|?]; contradiction.
Qed.

Lemma ancestors_from_elem (base p q : path) :
  q ∈ ancestors_from base p ->
  q <> [] /\ q `prefix_of` base ++ p.
Proof.
  revert base. induction p as [|name p IH]; intros base; cbn [ancestors_from].
  - intros Hin. now apply elem_of_nil in Hin.
  - intros Hin. apply elem_of_cons in Hin as [->|Hin].
    + split; [now destruct base|]. exists p. now rewrite <- app_assoc.
    + apply IH in Hin as [Hne Hpre]. split; [exact Hne|].
      now rewrite <- app_assoc in Hpre.
Qed.

Lemma ancestors_elem (p q : path) :
  q ∈ ancestors p -> q <> [] /\ q `prefix_of` p.
Proof. apply (ancestors_from_elem [] p q). Qed.

(** [os.makedirs] changes nothing, or makes the directories that lead
    to its path where no file is in the way *)
Lemma os_makedirs_world (p : path) (s s' : world) (r : result unit)
    (evs : list event) :
  os_makedirs p E s = (r, s', evs) ->
  s' = s \/
  (blocked_by_file (dst_fs s) p = false /\ dst_fs s' = mkdirs (dst_fs s) p).
Proof.
  mstep. destruct (faults E _); mstep; [intros [= <- <- <-]; now left|].
  destruct (blocked_by_file _ _) eqn:Hb; intros [= <- <- <-]; [now left|].
  right. split; reflexivity.
Qed.

(** [shutil.copy2] changes nothing, or puts a file where no directory
    is *)
Lemma shutil_copy2_world (source target : path) (s s' : world) (r : result unit)
    (evs : list event) :
  shutil_copy2 source target E s = (r, s', evs) ->
  dst_fs s' = dst_fs s \/
  exists size mtime,
    dst_isdir (dst_fs s) (copy_target (dst_fs s) source target) = false /\
    dst_fs s' =
      <[copy_target (dst_fs s) source target := DFile size mtime]> (dst_fs s).
Proof.
  mstep. destruct (faults E _); mstep; [intros [= <- <- <-]; now left|].
  destruct (lookup_path _ _) as [[size mtime| |]|];
    try (intros [= <- <- <-]; now left).
  destruct (dst_isdir _ _) eqn:Hdir; cbn [negb andb];
    [intros [= <- <- <-]; now left|].
  destruct (_ || _); intros [= <- <- <-]; [|now left].
  right. exists size, mtime. cbn [dst_fs]. split; reflexivity.
Qed.

Lemma keeps_entries_refl (d : gmap path dentry) : keeps_entries d d.
Proof. intros p e Hp. exists e. split; [exact Hp | now destruct e]. Qed.

Lemma keeps_entries_trans (d1 d2 d3 : gmap path dentry) :
  keeps_entries d1 d2 -> keeps_entries d2 d3 -> keeps_entries d1 d3.
Proof.
  intros H12 H23 p e Hp. destruct (H12 p e Hp) as (e2 & Hp2 & Hk2).
  destruct (H23 p e2 Hp2) as (e3 & Hp3 & Hk3). exists e3. split; [exact Hp3|].
  destruct e, e2, e3; try discriminate; reflexivity.
Qed.

Lemma os_makedirs_keeps (p : path) :
  respects (fun s s' _ => keeps_entries (dst_fs s) (dst_fs s')) E (os_makedirs p).
Proof.
  intros s r s' evs Hrun.
  apply os_makedirs_world in Hrun as [->|[Hfree ->]]; [apply keeps_entries_refl|].
  intros q e Hq. rewrite mkdirs_lookup_cases.
  destruct (decide (q ∈ ancestors p)) as [Hin|_].
  - exists DDir. split; [reflexivity|].
    destruct e as [size mtime|]; [exfalso | reflexivity].
    unfold blocked_by_file in Hfree.
    assert (dst_isfile (dst_fs s) q = true) as Hfile.
    { apply dst_isfile_lookup. split; [now apply ancestors_elem in Hin | eauto]. }
    assert (existsb (dst_isfile (dst_fs s)) (ancestors p) = true) as Hex.
    { apply existsb_exists. exists q. split; [now apply list_elem_of_In | exact Hfile]. }
    congruence.
  - exists e. split; [exact Hq | now destruct e].
Qed.

Lemma shutil_copy2_keeps (source target : path) :
  respects (fun s s' _ => keeps_entries (dst_fs s) (dst_fs s')) E
    (shutil_copy2 source target).
Proof.
  intros s r s' evs Hrun.
  apply shutil_copy2_world in Hrun as [->|(size & mtime & Hdir & ->)];
    [apply keeps_entries_refl|].
  intros q e Hq.
  destruct (decide (q = copy_target (dst_fs s) source target)) as [->|Hne].
  - rewrite lookup_insert_eq. exists (DFile size mtime). split; [reflexivity|].
    destruct e as [dsize dmtime|]; [reflexivity | exfalso].
    unfold dst_isdir in Hdir.
    destruct (copy_target (dst_fs s) source target); [discriminate|].
    now rewrite bool_decide_true in Hdir.
  - rewrite lookup_insert_ne by congruence.
    exists e. split; [exact Hq | now destruct e].
Qed.

Lemma run_keeps (w : BackupSelection) :
  respects (fun s s' _ => keeps_entries (dst_fs s) (dst_fs s')) E (run w).
Proof.
  set (R := fun (s s' : world) (_ : list event) => keeps_entries (dst_fs s) (dst_fs s')).
  assert (forall s, R s s []) as R_refl by (intros; apply keeps_entries_refl).
  assert (forall s1 s2 s3 ev1 ev2, R s1 s2 ev1 -> R s2 s3 ev2 -> R s1 s3 (ev1 ++ ev2))
    as R_trans by (intros; eapply keeps_entries_trans; eassumption).
  assert (forall e, respects R E (emit e)) as Hemit.
  { intros e s r s' evs [= <- <- <-]. apply keeps_entries_refl. }
  apply (run_respects_at R E); [|intros; assumption].
  apply (run_body_respects R E R_refl R_trans).
  - apply site_run_respects; [assumption.. | |].
    + intros e _. apply Hemit.
    + apply shutil_copy2_keeps.
  - apply os_makedirs_keeps.
  - intros e c. apply Hemit.
Qed.

(** X12: a backup never loses what it holds.  Whatever a Task Unit does
    (copies, overwrites, failures, cancellation), every path of the
    backup that was there before [run] is there after it, a directory
    still a directory and a file still a file; and so it is along every
    schedule of the application. *)
Theorem backup_entries_kept :
  (forall w s, keeps_entries (dst_fs s) (dst_fs (run w E s).1.2)) /\
  (forall sys sys',
     rtc (step E) sys sys' ->
     keeps_entries (dst_fs (disk sys)) (dst_fs (disk sys'))).
Proof.
  assert (forall w s, keeps_entries (dst_fs s) (dst_fs (run w E s).1.2)) as Hrun.
  { intros w s. destruct (run w E s) as [[r s'] evs] eqn:Hrun.
    now apply run_keeps in Hrun. }
  split; [exact Hrun|].
  induction 1 as [sys|sys sys1 sys2 Hstep _ IH]; [apply keeps_entries_refl|].
  eapply keeps_entries_trans; [|exact IH]. clear IH.
  destruct Hstep as [sys e rest _|sys i before after _|sys];
    try apply keeps_entries_refl.
  unfold work. cbn [dequeue window disk].
  destruct (workers (with_workers _ _ _) !! i) as [w|]; [|apply keeps_entries_refl].
  specialize (Hrun w (disk sys)).
  destruct (run w E (disk sys)) as [[r d'] evs]. exact Hrun.
Qed.

End Backup_kept.

(** ** Where a run writes *)

Section Written.

Variable E : env.

Lemma prefix_snoc {A} (p l : list A) (x : A) :
  p `prefix_of` l ++ [x] -> p `prefix_of` l \/ p = l ++ [x].
Proof.
  intros [k Hk]. destruct k as [|y k _] using rev_ind.
  - right. now rewrite app_nil_r in Hk.
  - left. rewrite app_assoc in Hk. apply app_inj_tail in Hk as [-> _].
    now exists k.
Qed.

Lemma prefix_path_join (t p : path) (name : string) :
  t `prefix_of` p -> t `prefix_of` path_join p name.
Proof.
  intros Hpre. unfold path_join. destruct (decide _); [exact Hpre|].
  now apply prefix_app_r.
Qed.

Lemma prefix_mapped_dst (w : BackupSelection) : dst w `prefix_of` mapped_dst w.
Proof. unfold mapped_dst. destruct (root w); [now apply prefix_path_join | reflexivity]. Qed.

Lemma same_outside_refl (t : path) (d : gmap path dentry) : same_outside t d d.
Proof. intros p _. now left. Qed.

Lemma same_outside_trans (t : path) (d1 d2 d3 : gmap path dentry) :
  same_outside t d1 d2 -> same_outside t d2 d3 -> same_outside t d1 d3.
Proof.
  intros H12 H23 p Hp. destruct (H23 p Hp) as [->|Hdir]; [now apply H12 | now right].
Qed.

(** what holds outside a directory holds outside a directory above *)
Lemma same_outside_above (t above : path) (d d' : gmap path dentry) :
  above `prefix_of` t -> same_outside t d d' -> same_outside above d d'.
Proof.
  intros Habove Hsame p Hp.
  destruct (Hsame p) as [->|[Hdir Hpre]]; [|now left|].
  - intros Ht. apply Hp. now transitivity t.
  - right. split; [exact Hdir|].
    destruct (prefix_weak_total _ _ _ Hpre Habove) as [?|?]; [assumption|contradiction].
Qed.

Lemma os_makedirs_outside (t p : path) :
  (forall q, q `prefix_of` p -> ~ t `prefix_of` q -> q `prefix_of` t) ->
  respects (fun s s' _ => same_outside t (dst_fs s) (dst_fs s')) E (os_makedirs p).
Proof.
  intros Hp s r s' evs Hrun.
  apply os_makedirs_world in Hrun as [->|[_ ->]]; [apply same_outside_refl|].
  intros q Hq. rewrite mkdirs_lookup_cases.
  destruct (decide (q ∈ ancestors p)) as [Hin|_]; [|now left].
  right. split; [reflexivity|]. apply Hp; [|exact Hq].
  now apply ancestors_elem in Hin.
Qed.

Lemma shutil_copy2_outside (t source target : path) :
  t `prefix_of` target ->
  respects (fun s s' _ => same_outside t (dst_fs s) (dst_fs s')) E
    (shutil_copy2 source target).
Proof.
  intros Ht s r s' evs Hrun.
  apply shutil_copy2_world in Hrun as [->|(size & mtime & _ & ->)];
    [apply same_outside_refl|].
  intros q Hq. left. apply lookup_insert_ne. intros <-. apply Hq.
  unfold copy_target. destruct (dst_isdir _ _); [now apply prefix_path_join | exact Ht].
Qed.

Lemma run_outside (w : BackupSelection) :
  respects (fun s s' _ => same_outside (dst w) (dst_fs s) (dst_fs s')) E (run w).
Proof.
  set (R := fun (s s' : world) (_ : list event) =>
              same_outside (dst w) (dst_fs s) (dst_fs s')).
  assert (forall s, R s s []) as R_refl by (intros; apply same_outside_refl).
  assert (forall s1 s2 s3 ev1 ev2, R s1 s2 ev1 -> R s2 s3 ev2 -> R s1 s3 (ev1 ++ ev2))
    as R_trans by (intros; eapply same_outside_trans; eassumption).
  assert (forall e, respects R E (emit e)) as Hemit.
  { intros e s r s' evs [= <- <- <-]. apply same_outside_refl. }
  apply (run_respects_at R E); [|intros; assumption].
  apply (run_body_respects_at R E R_refl R_trans).
  - intros i name.
    apply (site_run_respects_at R E R_refl R_trans w (Child (mapped_dst w) i name)).
    + intros e _. apply Hemit.
    + apply shutil_copy2_outside. cbn [site_target].
      apply prefix_path_join, prefix_mapped_dst.
  - apply (site_run_respects_at R E R_refl R_trans w Selected).
    + intros e _. apply Hemit.
    + now apply shutil_copy2_outside.
  - apply os_makedirs_outside. auto.
  - apply os_makedirs_outside. intros q Hq Hout. unfold path_join in Hq.
    destruct (decide _); [exact Hq|].
    apply prefix_snoc in Hq as [Hq| ->]; [exact Hq|].
    exfalso. apply Hout. now apply prefix_app_r.
  - intros e. apply Hemit.
Qed.

(** the workers a turn of the loop asks for copy below the destination
    of the loop *)
Lemma run_child_spawn (w : BackupSelection) (d : path) (i : nat) (name : string) :
  respects
    (fun _ _ evs => forall w', NewThread w' ∈ evs -> dst w' = path_join d name) E
    (run_child w d i name).
Proof.
  set (R := fun (_ _ : world) (evs : list event) =>
              forall w', NewThread w' ∈ evs -> dst w' = path_join d name).
  assert (forall s, R s s []) as R_refl.
  { intros s w' Hin. now apply elem_of_nil in Hin. }
  assert (forall s1 s2 s3 ev1 ev2, R s1 s2 ev1 -> R s2 s3 ev2 -> R s1 s3 (ev1 ++ ev2))
    as R_trans.
  { intros s1 s2 s3 ev1 ev2 H1 H2 w' Hin.
    apply elem_of_app in Hin as [Hin|Hin]; [now apply H1 | now apply H2]. }
  assert (forall e, is_new_thread e = false -> respects R E (emit e)) as Hemit.
  { intros e He s r s' evs [= <- <- <-] w' Hin.
    apply list_elem_of_singleton in Hin as <-. discriminate. }
  assert (forall source target, respects R E (shutil_copy2 source target)) as Hcopy.
  { intros source target s r s' evs Hrun.
    apply shutil_copy2_result in Hrun as [-> _].
    intros w' Hin. now apply elem_of_nil in Hin. }
  pose proof (@respects_bind R E R_trans) as Bind.
  pose proof (@respects_if R E) as If.
  unfold run_child.
  apply Bind; [now apply respects_read_is_killed|]. intros killed.
  apply If; [now apply respects_raise|].
  apply If.
  { apply Bind; [now apply Hemit|]. intros _. now apply Hemit. }
  apply Bind; [now apply respects_isdir|]. intros is_dir.
  apply If.
  { intros s r s' evs [= <- <- <-] w' Hin.
    apply list_elem_of_singleton in Hin. now injection Hin as ->. }
  apply Bind; [now apply respects_isfile|]. intros is_file.
  apply If; [|now apply respects_ret].
  apply If.
  { apply Bind; [now apply Hemit|]. intros _. now apply Hemit. }
  apply Bind; [now apply respects_getsize|]. intros file_size.
  apply Bind; [now apply respects_isfile_dst|]. intros exists_.
  apply If.
  - apply Bind; [now apply respects_check_existing_file|]. intros newer.
    apply Bind; [|intros _; now apply Hemit].
    apply If; [|now apply respects_ret].
    apply Bind; [now apply Hemit|]. intros _.
    apply respects_try; [assumption | apply Hcopy | | now apply Hemit].
    intros e. now apply Hemit.
  - apply Bind; [now apply Hemit|]. intros _.
    apply respects_try; [assumption | apply Hcopy | |].
    + intros e. now apply Hemit.
    + apply Bind; [now apply Hemit|]. intros _. now apply Hemit.
Qed.

(** a selected file asks for no worker *)
Lemma run_file_spawn (w : BackupSelection) :
  respects (fun _ _ evs => Forall (fun e => is_new_thread e = false) evs) E (run_file w).
Proof.
  set (R := fun (_ _ : world) (evs : list event) =>
              Forall (fun e => is_new_thread e = false) evs).
  assert (forall s, R s s []) as R_refl by (intros; constructor).
  assert (forall s1 s2 s3 ev1 ev2, R s1 s2 ev1 -> R s2 s3 ev2 -> R s1 s3 (ev1 ++ ev2))
    as R_trans by (intros; now apply Forall_app).
  assert (forall e, is_new_thread e = false -> respects R E (emit e)) as Hemit.
  { intros e He s r s' evs [= <- <- <-]. now repeat constructor. }
  assert (forall source target, respects R E (shutil_copy2 source target)) as Hcopy.
  { intros source target s r s' evs Hrun.
    apply shutil_copy2_result in Hrun as [-> _]. constructor. }
  pose proof (@respects_bind R E R_trans) as Bind.
  pose proof (@respects_if R E) as If.
  unfold run_file. apply If.
  { apply Bind; [now apply Hemit|]. intros _. now apply Hemit. }
  apply Bind; [now apply respects_getsize|]. intros file_size.
  apply Bind; [now apply respects_isfile_dst|]. intros exists_.
  apply If.
  - apply Bind; [now apply respects_check_existing_file|]. intros newer.
    apply Bind; [|intros _; now apply Hemit].
    apply If; [|now apply respects_ret].
    apply Bind; [now apply Hemit|]. intros _.
    apply respects_try; [assumption | apply Hcopy | | now apply Hemit].
    intros e. now apply Hemit.
  - apply Bind; [now apply Hemit|]. intros _.
    apply respects_try; [assumption | apply Hcopy | |].
    + intros e. now apply Hemit.
    + apply Bind; [now apply Hemit|]. intros _. now apply Hemit.
Qed.

(** the workers a unit asks for copy below its destination *)
Lemma run_spawn (w : BackupSelection) :
  respects
    (fun _ _ evs => forall w', NewThread w' ∈ evs -> dst w `prefix_of` dst w') E
    (run w).
Proof.
  set (R := fun (_ _ : world) (evs : list event) =>
              forall w', NewThread w' ∈ evs -> dst w `prefix_of` dst w').
  assert (forall s, R s s []) as R_refl.
  { intros s w' Hin. now apply elem_of_nil in Hin. }
  assert (forall s1 s2 s3 ev1 ev2, R s1 s2 ev1 -> R s2 s3 ev2 -> R s1 s3 (ev1 ++ ev2))
    as R_trans.
  { intros s1 s2 s3 ev1 ev2 H1 H2 w' Hin.
    apply elem_of_app in Hin as [Hin|Hin]; [now apply H1 | now apply H2]. }
  assert (forall e, is_new_thread e = false -> respects R E (emit e)) as Hemit.
  { intros e He s r s' evs [= <- <- <-] w' Hin.
    apply list_elem_of_singleton in Hin as <-. discriminate. }
  assert (forall p, respects R E (os_makedirs p)) as Hmk.
  { intros p s r s' evs Hrun. apply os_makedirs_result in Hrun as [-> _].
    intros w' Hin. now apply elem_of_nil in Hin. }
  apply (run_respects_at R E).
  - apply (run_body_respects_at R E R_refl R_trans).
    + intros i name s r s' evs Hrun w' Hin.
      apply run_child_spawn in Hrun. rewrite (Hrun w' Hin).
      apply prefix_path_join, prefix_mapped_dst.
    + intros s r s' evs Hrun w' Hin. apply run_file_spawn in Hrun.
      rewrite Forall_forall in Hrun. now apply Hrun in Hin.
    + apply Hmk.
    + apply Hmk.
    + intros e. now apply Hemit.
  - intros s s' evs r Hevs w' Hin. apply elem_of_app in Hin as [Hin|Hin];
      [now apply Hevs|]. exfalso.
    apply elem_of_app in Hin as [Hin|Hin].
    + destruct r as [|[|]]; cbn in Hin;
        repeat (apply elem_of_cons in Hin as [Hin|Hin]; [discriminate|]);
        now apply elem_of_nil in Hin.
    + apply list_elem_of_singleton in Hin. discriminate.
Qed.

End Written.

Section Pool.

Variable E : env.
Variable Q : BackupSelection -> Prop.
Hypothesis Q_kill : forall w, Q w -> Q (kill w).
Hypothesis Q_spawn : forall w s r s' evs w',
  Q w -> run w E s = (r, s', evs) -> NewThread w' ∈ evs -> Q w'.

Lemma lookup_kill (ws : list BackupSelection) (i : nat) (w : BackupSelection) :
  map kill ws !! i = Some w -> exists w0, ws !! i = Some w0 /\ w = kill w0.
Proof.
  change (map kill ws) with (kill <$> ws). rewrite list_lookup_fmap.
  destruct (ws !! i) as [w0|]; [|discriminate]. intros [= <-]. eauto.
Qed.

Lemma deliver_pool_all (e : event) (rest : list event) (sys : system) :
  signals sys = e :: rest -> pool_all Q sys -> pool_all Q (handle E e rest sys).
Proof.
  intros Hsig [Hpool Hnew]. split; cbn [handle window signals].
  2:{ intros w Hin. apply Hnew. rewrite Hsig. now right. }
  destruct e as [| | | | |worker]; cbn [deliver window_after]; try exact Hpool.
  - intros i w Hi Hw. cbn in Hi, Hw.
    apply lookup_kill in Hw as (w0 & Hw0 & ->). apply Q_kill. now apply (Hpool i).
  - progress_cases; exact Hpool.
  - intros i w Hi Hw. cbn in Hi, Hw.
    apply lookup_app_Some in Hw as [Hw|[Hlen Hw]].
    + apply elem_of_app in Hi as [Hi|Hi]; [now apply (Hpool i w)|].
      apply list_elem_of_singleton in Hi as ->.
      apply lookup_lt_Some in Hw. lia.
    + destruct (i - List.length (workers (window sys)))%nat; [|discriminate].
      injection Hw as <-. apply Hnew. rewrite Hsig. left.
Qed.

(** a step keeps them so, and the worker it runs, if any, has the
    property *)
Lemma step_pool_all (sys sys' : system) :
  step E sys sys' -> pool_all Q sys -> pool_all Q sys'.
Proof.
  intros Hstep Hall.
  destruct Hstep as [sys e rest Hsig|sys i before after Hpool|sys].
  - now apply deliver_pool_all.
  - destruct Hall as [Hwait Hnew]. unfold work. cbn [dequeue window disk signals].
    change (workers (with_workers (workers (window sys)) (before ++ after) (window sys)))
      with (workers (window sys)).
    assert (forall j w,
              j ∈ before ++ after -> workers (window sys) !! j = Some w -> Q w) as Hrest.
    { intros j w Hj. apply Hwait. rewrite Hpool.
      apply elem_of_app in Hj as [Hj|Hj]; apply elem_of_app; [now left|].
      right. now right. }
    destruct (workers (window sys) !! i) as [w|] eqn:Hw; [|now split].
    assert (Q w) as HQ.
    { apply (Hwait i w); [|exact Hw]. rewrite Hpool. apply elem_of_app. right. left. }
    destruct (run w E (disk sys)) as [[r d'] evs] eqn:Hrun. cbn [window disk signals].
    split; [exact Hrest|].
    intros w' Hin. apply elem_of_app in Hin as [Hin|Hin]; [now apply Hnew|].
    now apply (Q_spawn w _ _ _ _ w' HQ Hrun).
  - destruct Hall as [Hwait Hnew]. split; [|exact Hnew].
    intros i w Hi Hw. cbn in Hi, Hw.
    apply lookup_kill in Hw as (w0 & Hw0 & ->). apply Q_kill. now apply (Hwait i).
Qed.

(** the pool right after [run_backup] holds its root workers *)
Lemma started_pool_all (mw : MainWindow) (d : world) (backup_dir : path) :
  root_backup_dir mw = At backup_dir -> threadpool mw = [] ->
  (forall item,
     Q {| src := item; dst := backup_dir;
          ignore_files := files_to_exclude_model mw;
          ignore_extensions :=
            if decide (input_exclude_by mw = "") then []
            else split "," (input_exclude_by mw);
          root := true; is_killed := false |}) ->
  pool_all Q (started E mw d).
Proof.
  intros Hdir Hpool Hroot. split; cbn [started window signals].
  2:{ intros w Hin. now apply elem_of_nil in Hin. }
  intros i w Hi Hw.
  assert (w ∈ pool_workers (run_backup E mw)) as Hin.
  { unfold pool_workers. apply list_elem_of_omap. exists i. split; assumption. }
  revert Hin. clear Hi Hw. unfold run_backup. rewrite Hdir.
  unfold start_workers. cbv zeta.
  match goal with
  | |- context [fold_left _ ?items ?m] =>
      destruct (run_backup_pool backup_dir (files_to_exclude_model mw)
                  (if decide (input_exclude_by mw = "") then []
                   else split "," (input_exclude_by mw)) items m) as [_ Hp]
  end.
  { cbn. rewrite Hpool. constructor. }
  cbn in Hp. cbn. rewrite Hp. unfold pool_workers. cbn. rewrite Hpool. csimpl.
  intros Hin. apply list_elem_of_fmap in Hin as (item & -> & _). apply Hroot.
Qed.

End Pool.

Section Location.

Variable E : env.
Variable B : path.

Lemma step_below (d0 : gmap path dentry) (sys sys' : system) :
  step E sys sys' ->
  same_outside B d0 (dst_fs (disk sys)) /\
  pool_all (fun w => B `prefix_of` dst w) sys ->
  same_outside B d0 (dst_fs (disk sys')) /\
  pool_all (fun w => B `prefix_of` dst w) sys'.
Proof.
  intros Hstep [Hdisk Hbelow]. split.
  2:{ apply (step_pool_all E _) with (sys := sys); try assumption.
      - now intros w.
      - intros w s r s' evs w' HB Hrun Hin. apply (run_spawn E w) in Hrun.
        transitivity (dst w); [exact HB | now apply Hrun]. }
  destruct Hstep as [sys e rest Hsig|sys i before after Hpool|sys]; try exact Hdisk.
  destruct Hbelow as [Hwait _]. unfold work. cbn [dequeue window disk signals].
  change (workers (with_workers (workers (window sys)) (before ++ after) (window sys)))
    with (workers (window sys)).
  destruct (workers (window sys) !! i) as [w|] eqn:Hw; [|exact Hdisk].
  assert (B `prefix_of` dst w) as HB.
  { apply (Hwait i w); [|exact Hw]. rewrite Hpool. apply elem_of_app. right. left. }
  destruct (run w E (disk sys)) as [[r d'] evs] eqn:Hrun. cbn [disk].
  eapply same_outside_trans; [exact Hdisk|].
  apply (same_outside_above (dst w)); [exact HB|].
  now apply (run_outside E w) in Hrun.
Qed.

(** X13: a backup writes below its destination only.  Outside the
    destination directory of a Task Unit, [run] leaves every path of the
    backup as it was, but for the directories that lead to the
    destination, which it may create; and a backup started from an empty
    pool leaves, on every schedule, every path outside the backup
    location as it was, but for the directories that lead to the
    location. *)
Theorem backup_writes_below_location :
  (forall w s, same_outside (dst w) (dst_fs s) (dst_fs (run w E s).1.2)) /\
  (forall mw d sys,
     root_backup_dir mw = At B -> threadpool mw = [] ->
     rtc (step E) (started E mw d) sys ->
     same_outside B (dst_fs d) (dst_fs (disk sys))).
Proof.
  split.
  - intros w s. destruct (run w E s) as [[r s'] evs] eqn:Hrun.
    now apply (run_outside E w) in Hrun.
  - intros mw d sys Hdir Hpool Hsteps.
    apply (rtc_keeps E
             (fun sys => same_outside B (dst_fs d) (dst_fs (disk sys)) /\
                         pool_all (fun w => B `prefix_of` dst w) sys))
      in Hsteps as [Hdisk _].
    + exact Hdisk.
    + intros sys1 sys2. apply step_below.
    + split; [apply same_outside_refl|].
      apply (started_pool_all E _ mw d B); try assumption. reflexivity.
Qed.

End Location.

(** ** The answers to the copies *)

Section Answers.

Variable E : env.








End Answers.

(** ** The theorems at work *)

Section Witnesses.

(** the worker of the desk gets to the text file first *)
Lemma desk_arrives_text (E : env) :
  src_fs E = desk_tree -> faults E (OpListdir ["home"; "docs"]) = false ->
  arrives desk_worker E desk_disk (Child ["backup"; "docs"] 0 "a.txt") desk_disk [].
Proof.
  intros Htree Hlist.
  exists [("a.txt", File 10 7); ("b.jpg", File 30 2)], desk_disk, [], [].
  rewrite Htree. repeat split; try assumption; vm_compute; reflexivity.
Defined.


(** on the full disk the overwrite fails: the trace of the worker holds
    a structured error, and still the progress unit *)
Lemma copy_failure_signals_witness :
  exists after s',
    run desk_worker full_disk_env desk_disk =
      (Ok tt, s',
       [] ++
       [Status "a.txt...";
        Error (OSError (OpCopy2 ["home"; "docs"; "a.txt"] ["backup"; "docs"; "a.txt"]))
          (ErrorOverwritingFile ["home"; "docs"; "a.txt"]) window_message;
        Progress 1] ++
       after).
Proof.
  assert (decided desk_worker full_disk_env (Child ["backup"; "docs"] 0 "a.txt") 10 7) as Hd.
  { repeat split; vm_compute; reflexivity. }
  assert (shutil_copy2 ["home"; "docs"; "a.txt"] ["backup"; "docs"; "a.txt"]
            full_disk_env desk_disk =
          (Raise (OSError (OpCopy2 ["home"; "docs"; "a.txt"] ["backup"; "docs"; "a.txt"])),
           {| dst_fs := dst_fs desk_disk;
              copies := [(["home"; "docs"; "a.txt"], ["backup"; "docs"; "a.txt"])] |},
           [])) as Hcopy.
  { vm_compute. reflexivity. }
  destruct (copy_failure_signals full_disk_env desk_worker
              (Child ["backup"; "docs"] 0 "a.txt") 10 7 desk_disk desk_disk _ [] _
              (desk_arrives_text full_disk_env eq_refl eq_refl) Hd Hcopy)
    as [_ Hpresent].
  refine (proj1 (Hpresent 8 5 _ _ _ _ _)); vm_compute; reflexivity.
Defined.

(** the picture of the desk is skipped, after the text file has been
    copied *)
Lemma excluded_extension_never_copied_witness :
  exists evs after s' calls,
    run desk_worker desk_env desk_disk =
      (Ok tt, s', [Status "a.txt..."; MemoryCount 10; Progress 1] ++ evs ++ after) /\
    tally evs = (0, 1, 0)%nat /\
    progress_total evs = 1 /\
    copies s' = copies desk_disk ++ calls /\
    forall target, (["home"; "docs"; "b.jpg"], target) ∉ calls.
Proof.
  assert (arrives desk_worker desk_env desk_disk (Child ["backup"; "docs"] 1 "b.jpg")
            desk_text_copied [Status "a.txt..."; MemoryCount 10; Progress 1]) as Harr.
  { exists [("a.txt", File 10 7); ("b.jpg", File 30 2)], desk_disk, [],
      [Status "a.txt..."; MemoryCount 10; Progress 1].
    repeat split; vm_compute; reflexivity. }
  destruct (excluded_extension_never_copied desk_env desk_worker
              (Child ["backup"; "docs"] 1 "b.jpg") 30 2 desk_disk desk_text_copied _ Harr)
    as (evs & after & s' & calls & Hrun & _ & Htally & Htotal & Hcalls & Hnone).
  - split; vm_compute; reflexivity.
  - vm_compute. reflexivity.
  - exists evs, after, s', calls. auto.
Defined.

(** with "jpg,png," as the text, nothing of the desk is copied *)
Lemma empty_extension_ignores_every_file_witness :
  "" ∈ ignore_extensions comma_worker /\
  exists s' evs,
    run comma_worker desk_env desk_disk = (Ok tt, s', evs) /\
    copies s' = copies desk_disk /\
    count_events is_memory_count evs = 0%nat.
Proof.
  assert ("" ∈ ignore_extensions comma_worker) as Hin.
  { apply (split_trailing_empty "," "jpg,png"). }
  split; [exact Hin|].
  destruct (empty_extension_ignores_every_file desk_env comma_worker Hin)
    as (_ & _ & Hrun).
  destruct (Hrun desk_disk) as (s' & evs & H1 & H2 & H3 & _).
  exists s', evs. auto.
Defined.

(** the backup of the album comes to rest with the one unit expected for
    its excluded directory *)
Lemma backup_progress_witness :
  exists sys,
    backup 10 album_env album_window empty_disk = Some sys /\
    undisturbed sys /\
    progress_total (handled sys) = 1.
Proof.
  destruct (backup 10 album_env album_window empty_disk) as [sys|] eqn:Hrun;
    [|vm_compute in Hrun; discriminate].
  exists sys. split; [reflexivity|].
  assert (undisturbed sys) as Hcalm.
  { pose proof Hrun as Hvalue. vm_compute in Hvalue. injection Hvalue as <-.
    split; vm_compute; repeat constructor. }
  split; [exact Hcalm|].
  destruct (backup_progress album_env album_window ["backup"] empty_disk)
    as [_ Htotal]; try reflexivity.
  destruct (Htotal 10%nat sys Hrun Hcalm) as [_ ->]. vm_compute. reflexivity.
Defined.

(** the backup of the desk emits the two units [count_total_files]
    counts *)
Lemma backup_progress_is_file_count_witness :
  exists sys,
    backup 10 desk_env desk_window desk_disk = Some sys /\
    undisturbed sys /\
    progress_total (handled sys) = 2.
Proof.
  destruct (backup 10 desk_env desk_window desk_disk) as [sys|] eqn:Hrun;
    [|vm_compute in Hrun; discriminate].
  exists sys. split; [reflexivity|].
  assert (undisturbed sys) as Hcalm.
  { pose proof Hrun as Hvalue. vm_compute in Hvalue. injection Hvalue as <-.
    split; vm_compute; repeat constructor. }
  split; [exact Hcalm|].
  destruct (backup_progress_is_file_count desk_env desk_window ["backup"] desk_disk)
    with (fuel := 10%nat) (sys := sys) as [-> _];
    try reflexivity; try assumption.
  intros q entries Hq. now apply elem_of_nil in Hq.
Defined.

(** the worker of the desk overwrites the text file once; a worker made
    anew for the same selection then copies nothing, here on a disk that
    would refuse every copy *)
Lemma rerun_copies_nothing_witness :
  exists s1 evs1 s2 evs2,
    run desk_worker desk_env desk_disk = (Ok tt, s1, evs1) /\
    copies s1 = [(["home"; "docs"; "a.txt"], ["backup"; "docs"; "a.txt"])] /\
    run desk_worker full_disk_env s1 = (Ok tt, s2, evs2) /\
    copies s2 = copies s1 /\
    memory_total evs2 = 0.
Proof.
  destruct (run desk_worker desk_env desk_disk) as [[r1 s1] evs1] eqn:Hrun.
  assert (r1 = Ok tt) as -> by (vm_compute in Hrun; congruence).
  destruct (run desk_worker full_disk_env s1) as [[r2 s2] evs2] eqn:Hagain.
  assert (r2 = Ok tt) as ->.
  { destruct (run_unfold full_disk_env desk_worker s1) as (r & s' & evs & _ & Hshape).
    congruence. }
  assert (Forall (fun e => is_error e = false) evs1) as Herr.
  { pose proof Hrun as Hvalue. vm_compute in Hvalue. injection Hvalue as _ <-.
    repeat constructor. }
  assert (clear_of_directories desk_worker desk_env desk_disk) as Hclear.
  { vm_compute. constructor; [reflexivity|]. constructor; [reflexivity|]. constructor. }
  destruct (rerun_copies_nothing desk_env desk_worker desk_disk s1 evs1
              full_disk_env desk_worker
              eq_refl (fun j => eq_refl) Hclear Hrun Herr
              eq_refl eq_refl eq_refl eq_refl eq_refl eq_refl _ _ _ Hagain)
    as (Hcopies & _ & Hmemory).
  exists s1, evs1, s2, evs2. repeat split; try assumption.
  pose proof Hrun as Hvalue. vm_compute in Hvalue. injection Hvalue as <- _.
  reflexivity.
Defined.


(** the text "jpg,png," comes back as "jpg,png", and the location as it
    was *)
Lemma save_load_round_trip_witness :
  let mw :=
    with_inputs (At ["backup"]) [PathText ["home"; "docs"]] [] []
      [["home"; "docs"]] [] "jpg,png," "" init in
  input_exclude_by (load_settings (saved_settings desk_env mw) init) = "jpg,png" /\
  root_backup_dir (load_settings (saved_settings desk_env mw) init) = At ["backup"] /\
  load_settings
    (saved_settings desk_env (load_settings (saved_settings desk_env mw) init))
    (load_settings (saved_settings desk_env mw) init) =
  load_settings (saved_settings desk_env mw) init.
Proof.
  intros mw.
  destruct (save_load_round_trip desk_env mw init)
    as (_ & _ & _ & _ & Hroot & Hlist & Htext & Hagain).
  split; [rewrite Htext, Hlist; vm_compute; reflexivity|].
  split; [rewrite Hroot; reflexivity|].
  apply (Hagain ["backup"]); reflexivity.
Defined.

(** a new file is the last unit of a backup of one file: the log is saved
    in the backup location before the byte count of the file comes *)
Lemma completion_log_witness :
  backup_logs
    (deliver_all desk_env [Status "a.txt..."; Progress 1; MemoryCount 10; Finished]
       (with_inputs (At ["backup"]) [PathText ["home"; "a.txt"]] [] []
          [["home"; "a.txt"]] [] "" "" (set_max_progress_value 1 init))) =
    [(["backup"],
      {| total_count := 1; log_total_memory := 0;
         included_in_backup := [PathText ["home"; "a.txt"]];
         excluded_from_backup := ([], []) |})].
Proof.
  assert (by_units [Status "a.txt..."; Progress 1; MemoryCount 10; Finished]) as Hunits
    by (repeat constructor).
  destruct (completion_log desk_env
              (with_inputs (At ["backup"]) [PathText ["home"; "a.txt"]] [] []
                 [["home"; "a.txt"]] [] "" "" (set_max_progress_value 1 init))
              _ Hunits) as [_ Hlog].
  destruct (Hlog [Status "a.txt..."] [MemoryCount 10; Finished]) as [-> _];
    reflexivity.
Defined.

(** the desk is backed up twice in one session: the second backup saves
    no log *)
Lemma stale_counter_blocks_completion_witness :
  exists first again,
    backup 10 desk_env desk_window desk_disk = Some first /\
    backup 10 desk_env
      (with_inputs (At ["backup"]) [PathText ["home"; "docs"]] [] []
         [["home"; "docs"]] [] "" "" (window first))
      (disk first) = Some again /\
    List.length (backup_logs (window first)) = 1%nat /\
    backup_logs (window again) = backup_logs (window first).
Proof.
  destruct (backup 10 desk_env desk_window desk_disk) as [first|] eqn:Hfirst;
    [|vm_compute in Hfirst; discriminate].
  assert (progress (window first) = 2 /\
          List.length (backup_logs (window first)) = 1%nat) as [Hprogress Hlogs].
  { pose proof Hfirst as Hvalue. vm_compute in Hvalue. injection Hvalue as <-.
    split; reflexivity. }
  set (mw := with_inputs (At ["backup"]) [PathText ["home"; "docs"]] [] []
               [["home"; "docs"]] [] "" "" (window first)).
  destruct (backup 10 desk_env mw (disk first)) as [again|] eqn:Hagain.
  2:{ exfalso. subst mw. pose proof Hfirst as Hvalue. vm_compute in Hvalue.
      injection Hvalue as <-. vm_compute in Hagain. discriminate Hagain. }
  exists first, again. split; [reflexivity|]. split; [exact Hagain|].
  split; [exact Hlogs|].
  apply backup_steps in Hagain as Hsteps.
  apply (stale_counter_blocks_completion desk_env mw ["backup"] (disk first) again);
    try assumption; try reflexivity.
  - change (progress mw) with (progress (window first)). lia.
  - change (progress mw) with (progress (window first)). rewrite Hprogress.
    vm_compute. discriminate.
Defined.

(** the window of the desk after its backup has counted the two units and
    the bytes of the two files *)
Lemma counters_sum_handled_signals_witness :
  exists sys,
    backup 10 desk_env desk_window desk_disk = Some sys /\
    progress (window sys) = 2 /\ total_memory (window sys) = 40.
Proof.
  destruct (backup 10 desk_env desk_window desk_disk) as [sys|] eqn:Hrun;
    [|vm_compute in Hrun; discriminate Hrun].
  exists sys. split; [reflexivity|].
  assert (progress_total (handled sys) = 2 /\ memory_total (handled sys) = 40)
    as [Hunits Hbytes].
  { pose proof Hrun as Hvalue. vm_compute in Hvalue. injection Hvalue as <-.
    split; vm_compute; reflexivity. }
  apply backup_steps in Hrun as Hsteps.
  destruct (counters_sum_handled_signals desk_env _ _ Hsteps)
    as (since & Hhandled & -> & ->).
  cbn [started handled app] in Hhandled. rewrite <- Hhandled, Hunits, Hbytes.
  split; vm_compute; reflexivity.
Defined.

(** the text file the backup of the desk held is a file after the backup *)
Lemma backup_entries_kept_witness :
  exists sys e',
    backup 10 desk_env desk_window desk_disk = Some sys /\
    dst_fs (disk sys) !! ["backup"; "docs"; "a.txt"] = Some e' /\
    same_kind (DFile 8 5) e' = true.
Proof.
  destruct (backup 10 desk_env desk_window desk_disk) as [sys|] eqn:Hrun;
    [|vm_compute in Hrun; discriminate Hrun].
  apply backup_steps in Hrun as Hsteps.
  destruct (proj2 (backup_entries_kept desk_env) _ _ Hsteps
              ["backup"; "docs"; "a.txt"] (DFile 8 5)) as (e' & He' & Hkind);
    [reflexivity|].
  exists sys, e'. split; [reflexivity|]. split; assumption.
Defined.

(** the backup of the desk leaves what is outside "backup" alone *)
Lemma backup_writes_below_location_witness :
  exists sys,
    backup 10 desk_env desk_window desk_disk = Some sys /\
    same_outside ["backup"] (dst_fs desk_disk) (dst_fs (disk sys)).
Proof.
  destruct (backup 10 desk_env desk_window desk_disk) as [sys|] eqn:Hrun;
    [|vm_compute in Hrun; discriminate Hrun].
  apply backup_steps in Hrun as Hsteps.
  exists sys. split; [reflexivity|].
  apply (proj2 (backup_writes_below_location desk_env ["backup"]) desk_window);
    [reflexivity | reflexivity | exact Hsteps].
Defined.


End Witnesses.
